(** * PageLogic code loader: a shallow embedding of [src/code/loader.ts]

    The loader reads a page, resolves [:include] / [:import] directives,
    collects [:define] macros and expands macro uses.  The TypeScript code
    works by mutating a shared acorn/JSX syntax tree through object
    references ([d.parent.children.splice(...)]), so the embedding keeps an
    explicit store of nodes addressed by identifiers and threads it, together
    with the load session, through a small state monad.

    Modelling conventions
    - JavaScript strings are [string]s (sequences of 8-bit characters).
    - Source positions ([start], [end], [loc]) are not represented; no
      decision of the loader reads them.
    - Attribute nodes are kept by value inside their element.  The only
      attribute mutation of the loader ([dstAttr.value = srcAttr.value] in
      [populateMacro]) hits a freshly cloned element.
    - Objects used as dictionaries are read and written through their own
      properties.  In JavaScript a read [o[k]] of a name that [o] inherits
      from [Object.prototype] ([constructor], [toString], ...) yields the
      inherited member instead of [undefined], and a write to [__proto__]
      sets no key.  Such runs are outside the model: [prototypeNames],
      [plainRead] and [plainTable] below say which reads and tables are
      covered, and the statements that give the result of such a read assume
      them.
    - [async]/[await] is sequential here: the loader never starts two
      parses at once. *)

From Stdlib Require Import String Ascii List ZArith Lia Bool DecimalString.
From stdpp Require Import base option list gmap strings.

Set Warnings "-register-all,-level-tolerance".

Open Scope string_scope.
Open Scope list_scope.

Abbreviation length := List.length (only parsing).

(** ** JavaScript strings and arrays *)

Module JS.

Definition dquote : string := String (ascii_of_nat 34) EmptyString.

(** [s.startsWith(p)] *)
Definition startsWith (s p : string) : bool := String.prefix p s.

(** [s.substring(n)] for [0 <= n] *)
Definition substringFrom (n : nat) (s : string) : string :=
  String.substring n (String.length s - n) s.

(** White space as matched by [\s] and removed by [trim()], restricted to
    the 8-bit range: TAB, LF, VT, FF, CR, SPACE and NBSP. *)
Definition isWhiteSpace (c : ascii) : bool :=
  let n := nat_of_ascii c in
  (Nat.leb 9 n && Nat.leb n 13) || Nat.eqb n 32 || Nat.eqb n 160.

Fixpoint allWhiteSpace (s : string) : bool :=
  match s with
  | EmptyString => true
  | String c s' => isWhiteSpace c && allWhiteSpace s'
  end.

(** [!s?.trim()] on an optional string *)
Definition blank (s : option string) : bool :=
  match s with
  | None => true
  | Some v => allWhiteSpace v
  end.

(** [s.indexOf(c)] for a one-character needle; [-1] when absent *)
Fixpoint indexOfChar_from (c : ascii) (s : string) (i : Z) : Z :=
  match s with
  | EmptyString => (-1)%Z
  | String c' s' => if Ascii.eqb c c' then i else indexOfChar_from c s' (i + 1)%Z
  end.

Definition indexOfChar (c : ascii) (s : string) : Z := indexOfChar_from c s 0.

Section Arrays.
Context {A : Type} `{EqDecision A}.

(** [l.indexOf(x)]: position of the first element identical to [x],
    [-1] when there is none *)
Fixpoint indexOf_from (x : A) (l : list A) (i : Z) : Z :=
  match l with
  | [] => (-1)%Z
  | y :: l' => if decide (x = y) then i else indexOf_from x l' (i + 1)%Z
  end.

Definition indexOf (x : A) (l : list A) : Z := indexOf_from x l 0.

Definition includes (x : A) (l : list A) : bool := bool_decide (x ∈ l).

(** [l.splice(start, deleteCount, ...items)]: a negative [start] counts
    from the end, and both bounds are clamped to the array *)
Definition spliceStart (start : Z) (len : nat) : nat :=
  Z.to_nat (if (start <? 0)%Z
            then Z.max (Z.of_nat len + start) 0
            else Z.min start (Z.of_nat len)).

Definition splice (start : Z) (deleteCount : nat) (items l : list A) : list A :=
  let s := spliceStart start (length l) in
  take s l ++ items ++ drop (s + deleteCount) l.

(** [i >= 0 && l.splice(i, 1)] *)
Definition removeAt (i : Z) (l : list A) : list A :=
  if (0 <=? i)%Z then splice i 1 [] l else l.

(** [nn.shift()] and [nn.pop()] *)
Definition shift (l : list A) : list A := tail l.
Definition pop (l : list A) : list A := removelast l.
End Arrays.

End JS.

(** ** Node's [path] module, POSIX flavour

    Only the four functions the loader calls.  They are library code, written
    here after Node's [lib/path.js]. *)

Module Path.

Definition slash : ascii := "/"%char.

(** The segments between separators: ["a//b"] gives [["a"; ""; "b"]]. *)
Fixpoint segments_acc (s : string) (cur : string) : list string :=
  match s with
  | EmptyString => [cur]
  | String c s' =>
      if Ascii.eqb c slash
      then cur :: segments_acc s' EmptyString
      else segments_acc s' (cur +:+ String c EmptyString)
  end.

Definition segments (s : string) : list string := segments_acc s EmptyString.

Definition isAbsolute (s : string) : bool :=
  match s with
  | String c _ => Ascii.eqb c slash
  | EmptyString => false
  end.

Fixpoint lastChar (s : string) : option ascii :=
  match s with
  | EmptyString => None
  | String c EmptyString => Some c
  | String _ s' => lastChar s'
  end.

Definition trailingSeparator (s : string) : bool :=
  match lastChar s with
  | Some c => Ascii.eqb c slash
  | None => false
  end.

(** One step of [normalizeString]; the stack holds the kept segments, the
    last one first. *)
Definition normalizeStep (allowAboveRoot : bool) (stack : list string) (seg : string)
  : list string :=
  if decide (seg = "" ∨ seg = ".") then stack
  else if decide (seg = "..") then
    match stack with
    | top :: rest =>
        if decide (top = "..")
        then (if allowAboveRoot then ".." :: stack else stack)
        else rest
    | [] => if allowAboveRoot then [".."] else []
    end
  else seg :: stack.

Definition normalizeString (allowAboveRoot : bool) (s : string) : string :=
  String.concat "/" (rev (fold_left (normalizeStep allowAboveRoot) (segments s) [])).

Definition normalize (p : string) : string :=
  if decide (p = "") then "."
  else
    let abs := isAbsolute p in
    let trail := trailingSeparator p in
    let q := normalizeString (negb abs) p in
    if decide (q = "") then
      (if abs then "/" else if trail then "./" else ".")
    else
      (if abs then "/" else "") +:+ q +:+ (if trail then "/" else "").

Definition join (args : list string) : string :=
  match filter (λ a, a ≠ "") args with
  | [] => "."
  | a :: rest => normalize (String.concat "/" (a :: rest))
  end.

(** [dirname]: scan from the right, skip trailing separators and the base
    name, and cut at the separator found at a position [>= 1]. *)
Fixpoint dirnameEnd (rev_tail : list ascii) (i : nat) (matchedSlash : bool)
  : option nat :=
  match rev_tail with
  | [] => None
  | c :: rest =>
      match i with
      | O => None
      | S i' =>
          if Ascii.eqb c slash
          then (if matchedSlash then dirnameEnd rest i' true else Some i)
          else dirnameEnd rest i' false
      end
  end.

Definition dirname (p : string) : string :=
  if decide (p = "") then "."
  else
    let hasRoot := isAbsolute p in
    match dirnameEnd (rev (list_ascii_of_string p)) (String.length p - 1) true with
    | None => if hasRoot then "/" else "."
    | Some e =>
        if hasRoot && Nat.eqb e 1 then "//" else String.substring 0 e p
    end.

(** [resolve] of one path against the working directory [cwd] *)
Definition resolve (cwd p : string) : string :=
  let full := if isAbsolute p then p else cwd +:+ "/" +:+ p in
  let q := normalizeString false full in
  "/" +:+ q.

Fixpoint dropCommon (a b : list string) : list string * list string :=
  match a, b with
  | x :: a', y :: b' => if decide (x = y) then dropCommon a' b' else (a, b)
  | _, _ => (a, b)
  end.

Definition nonEmptySegments (p : string) : list string :=
  filter (λ a, a ≠ "") (segments p).

(** [relative(from, to)]: climb out of what is left of [from], then walk
    down what is left of [to]. *)
Definition relative (cwd from to : string) : string :=
  let f := resolve cwd from in
  let t := resolve cwd to in
  if decide (f = t) then ""
  else
    let '(f', t') := dropCommon (nonEmptySegments f) (nonEmptySegments t) in
    String.concat "/" (map (λ _, "..") f' ++ t').

End Path.

(** ** Syntax trees

    What the external parser hands over ([Tree], a value) and what the loader
    works on (nodes in a store, [Node]).  A child is an element, a text run or
    a fragment the loader does not look into. *)

Definition NodeId := nat.

Inductive AttrValue :=
| Literal (value : string)
| ExpressionValue (payload : string)
| NoValue.

Inductive JSXAttr :=
| JSXAttribute (name : string) (value : AttrValue)
| JSXSpreadAttribute (payload : string).

Inductive JSXName :=
| JSXIdentifier (name : string)
| JSXOtherName (payload : string).

Inductive Tree :=
| TElement (name : JSXName) (attributes : list JSXAttr) (selfClosing : bool)
    (closing : option JSXName) (children : list Tree)
| TText (value : string)
| TOther (payload : string).

Inductive TStatement :=
| TExpressionStatement (expression : Tree)
| TOtherStatement.

(** Result of reading a file and running the external parser on its text. *)
Inductive FileResult :=
| ReadFailure
| ParseFailure (error : string)
| Parsed (body : list TStatement).

Record JSXElement := mkElement {
  openingName : JSXName;
  attributes : list JSXAttr;
  selfClosing : bool;
  closingName : option JSXName;
  children : list NodeId
}.

Inductive Node :=
| NElement (e : JSXElement)
| NText (value : string)
| NOther (payload : string).

Inductive Statement :=
| ExpressionStatement (expression : NodeId)
| OtherStatement.

Definition Program := list Statement.

#[global] Instance AttrValue_eq_dec : EqDecision AttrValue.
Proof. solve_decision. Defined.
#[global] Instance JSXAttr_eq_dec : EqDecision JSXAttr.
Proof. solve_decision. Defined.
#[global] Instance JSXName_eq_dec : EqDecision JSXName.
Proof. solve_decision. Defined.

(** ** The store of nodes

    Object identity is the index in the store; objects are never freed. *)

Abbreviation Heap := (list Node).

Definition element (h : Heap) (n : NodeId) : option JSXElement :=
  match h !! n with
  | Some (NElement e) => Some e
  | _ => None
  end.

Definition isElement (h : Heap) (n : NodeId) : bool :=
  match element h n with Some _ => true | None => false end.

(** [n.children] and [n.openingElement.attributes]; empty for anything that
    is not an element. *)
Definition childrenOf (h : Heap) (n : NodeId) : list NodeId :=
  match element h n with Some e => children e | None => [] end.

Definition attributesOf (h : Heap) (n : NodeId) : list JSXAttr :=
  match element h n with Some e => attributes e | None => [] end.

Definition updateElement (f : JSXElement → JSXElement) (n : NodeId) (h : Heap) : Heap :=
  alter (λ x, match x with NElement e => NElement (f e) | _ => x end) n h.

Definition setChildren (l : list NodeId) (e : JSXElement) : JSXElement :=
  mkElement (openingName e) (attributes e) (selfClosing e) (closingName e) l.

Definition setAttributes (l : list JSXAttr) (e : JSXElement) : JSXElement :=
  mkElement (openingName e) l (selfClosing e) (closingName e) (children e).

(** [new] object: appended to the store *)
Definition allocNode (x : Node) (h : Heap) : NodeId * Heap := (length h, h ++ [x]).

(** The objects built by the parser for a tree, children first. *)
Fixpoint alloc (t : Tree) (h : Heap) : NodeId * Heap :=
  match t with
  | TElement nm attrs sc cl ts =>
      let '(ids, h') :=
        (fix allocs (ts : list Tree) (h : Heap) : list NodeId * Heap :=
           match ts with
           | [] => ([], h)
           | t' :: ts' =>
               let '(i, h1) := alloc t' h in
               let '(rest, h2) := allocs ts' h1 in
               (i :: rest, h2)
           end) ts h in
      allocNode (NElement (mkElement nm attrs sc cl ids)) h'
  | TText v => allocNode (NText v) h
  | TOther p => allocNode (NOther p) h
  end.

Fixpoint allocStatements (body : list TStatement) (h : Heap) : Program * Heap :=
  match body with
  | [] => ([], h)
  | TExpressionStatement t :: rest =>
      let '(i, h1) := alloc t h in
      let '(p, h2) := allocStatements rest h1 in
      (ExpressionStatement i :: p, h2)
  | TOtherStatement :: rest =>
      let '(p, h2) := allocStatements rest h in
      (OtherStatement :: p, h2)
  end.

(** The tree below a node.  [depth] bounds the descent; a store of [n]
    objects without cycles has no path longer than [n], and the loader never
    builds a cycle (JavaScript would not return from one either). *)
Fixpoint toTree (depth : nat) (h : Heap) (n : NodeId) : Tree :=
  match depth with
  | O => TOther ""
  | S d =>
      match h !! n with
      | Some (NElement e) =>
          TElement (openingName e) (attributes e) (selfClosing e) (closingName e)
            (map (toTree d h) (children e))
      | Some (NText v) => TText v
      | Some (NOther p) => TOther p
      | None => TOther ""
      end
  end.

Definition treeAt (h : Heap) (n : NodeId) : Tree := toTree (length h) h n.

(** [JSON.parse(JSON.stringify(node))]: a deep copy made of new objects *)
Definition clone (n : NodeId) (h : Heap) : NodeId * Heap := alloc (treeAt h n) h.

(** ** Helpers of [src/code/utils.ts] *)

(** Modelled from the spec: [getJSXAttributeKeys], [getJSXAttributeNode],
    [getJSXAttribute] and [removeJSXAttribute] live in [src/code/utils.ts],
    which is not part of the sources at hand.  An attribute entry has a name
    and a value that is a literal or an opaque expression; the helpers look an
    entry up by name, first match first, and [getJSXAttribute] yields the
    literal text of its value. *)
Definition getJSXAttributeKeys (attrs : list JSXAttr) : list string :=
  flat_map (λ a, match a with JSXAttribute k _ => [k] | _ => [] end) attrs.

Fixpoint getJSXAttributeNode (attrs : list JSXAttr) (key : string) : option JSXAttr :=
  match attrs with
  | [] => None
  | JSXAttribute k v :: rest =>
      if decide (k = key) then Some (JSXAttribute k v) else getJSXAttributeNode rest key
  | _ :: rest => getJSXAttributeNode rest key
  end.

Definition getJSXAttribute (attrs : list JSXAttr) (key : string) : option string :=
  match getJSXAttributeNode attrs key with
  | Some (JSXAttribute _ (Literal v)) => Some v
  | _ => None
  end.

Fixpoint removeJSXAttribute (attrs : list JSXAttr) (key : string) : list JSXAttr :=
  match attrs with
  | [] => []
  | JSXAttribute k v :: rest =>
      if decide (k = key) then rest else JSXAttribute k v :: removeJSXAttribute rest key
  | a :: rest => a :: removeJSXAttribute rest key
  end.

(** [dstAttr.value = v] on the entry [getJSXAttributeNode] finds *)
Fixpoint setJSXAttributeValue (attrs : list JSXAttr) (key : string) (v : AttrValue)
  : list JSXAttr :=
  match attrs with
  | [] => []
  | JSXAttribute k v0 :: rest =>
      if decide (k = key) then JSXAttribute k v :: rest
      else JSXAttribute k v0 :: setJSXAttributeValue rest key v
  | a :: rest => a :: setJSXAttributeValue rest key v
  end.

(** JavaScript truthiness of an optional string: defined and not empty *)
Definition truthy (s : option string) : option string :=
  match s with
  | Some v => if decide (v = "") then None else Some v
  | None => None
  end.

(** ** The walker of [src/code/walker.ts] *)

(** Modelled from the spec: [walker.ancestor] lives in [src/code/walker.ts],
    which is not part of the sources at hand.  It visits the elements of a
    tree, each with its ancestors; text and expression fragments are opaque.
    A visit is recorded as the element and, when its immediate ancestor is an
    element too, that ancestor.  The specification has the elements taken in
    document order; the walks of acorn-walk, to which the comment in
    [processDirectives] points, call the visitor of a node once its children
    have been walked.  The order is a parameter of the model, so that nothing
    proved below depends on which of the two the missing file has. *)
Inductive WalkOrder :=
| DocumentOrder
| ChildrenFirst.

Fixpoint walkElement (order : WalkOrder) (depth : nat) (h : Heap)
    (parent : option NodeId) (n : NodeId) : list (NodeId * option NodeId) :=
  match depth with
  | O => []
  | S d =>
      match element h n with
      | Some e =>
          let below := flat_map (walkElement order d h (Some n)) (children e) in
          match order with
          | DocumentOrder => (n, parent) :: below
          | ChildrenFirst => below ++ [(n, parent)]
          end
      | None => []
      end
  end.

Inductive WalkRoot :=
| RootProgram (p : Program)
| RootElement (n : NodeId).

Definition walk (order : WalkOrder) (h : Heap) (root : WalkRoot)
  : list (NodeId * option NodeId) :=
  match root with
  | RootProgram p =>
      flat_map (λ st, match st with
                      | ExpressionStatement n => walkElement order (length h) h None n
                      | OtherStatement => []
                      end) p
  | RootElement n => walkElement order (length h) h None n
  end.

(** ** The load session *)

Inductive CodeErrorType := error | warning.

Record CodeError := mkCodeError {
  type : CodeErrorType;
  msg : string;
  from : option NodeId
}.

Inductive MacroDefinition := mkMacro {
  mname : string;
  mnode : NodeId;
  mbase : string;
  mfrom : option MacroDefinition
}.

Record CodeLoaderSource := mkSource {
  ast : option Program;
  files : list string;
  errors : list CodeError;
  macros : gmap string MacroDefinition
}.

Record Directive := mkDirective {
  dname : string;
  dnode : NodeId;
  dparent : NodeId
}.

Record Slot := mkSlot {
  snode : NodeId;
  sparent : NodeId
}.

#[global] Instance CodeErrorType_eq_dec : EqDecision CodeErrorType.
Proof. solve_decision. Defined.
#[global] Instance CodeError_eq_dec : EqDecision CodeError.
Proof. solve_decision. Defined.

(** *** Objects used as ordered dictionaries

    The slot tables are plain objects whose keys are later listed with
    [Reflect.ownKeys]: array-index keys first, in ascending order, then the
    other keys in the order of their first assignment. *)

Module Obj.
Section Obj.
Context {V : Type}.

Definition t := list (string * V).

Fixpoint get (o : t) (k : string) : option V :=
  match o with
  | [] => None
  | (k', v) :: o' => if decide (k' = k) then Some v else get o' k
  end.

(** [o[k] = v]: an existing key keeps its place *)
Fixpoint set (o : t) (k : string) (v : V) : t :=
  match o with
  | [] => [(k, v)]
  | (k', v') :: o' => if decide (k' = k) then (k', v) :: o' else (k', v') :: set o' k v
  end.
End Obj.

Definition digit (c : ascii) : option N :=
  let n := N_of_ascii c in
  if ((48 <=? n) && (n <=? 57))%N then Some (n - 48)%N else None.

Fixpoint decimal (s : string) (acc : N) : option N :=
  match s with
  | EmptyString => Some acc
  | String c s' =>
      match digit c with
      | Some d => decimal s' (10 * acc + d)%N
      | None => None
      end
  end.

(** A canonical numeric string below [2^32 - 1] *)
Definition arrayIndex (s : string) : option N :=
  match s with
  | EmptyString => None
  | String c s' =>
      if Ascii.eqb c "0"%char && negb (String.eqb s' "") then None
      else match decimal s 0 with
           | Some n => if (n <? 4294967295)%N then Some n else None
           | None => None
           end
  end.

Fixpoint insertSorted (x : N * string) (l : list (N * string)) : list (N * string) :=
  match l with
  | [] => [x]
  | y :: l' => if (x.1 <? y.1)%N then x :: l else y :: insertSorted x l'
  end.

Definition ownKeys {V : Type} (o : @t V) : list string :=
  let ks := map fst o in
  let idx := flat_map (λ k, match arrayIndex k with Some n => [(n, k)] | None => [] end) ks in
  let others := filter (λ k, arrayIndex k = None) ks in
  map snd (fold_right insertSorted [] idx) ++ others.
End Obj.

(** *** The state monad of the loader

    Every method works on the same store and the same session object. *)

Record World := mkWorld {
  heap : Heap;
  source : CodeLoaderSource
}.

Definition M (A : Type) : Type := World → A * World.

Definition pure {A : Type} (a : A) : M A := λ w, (a, w).

Definition bind {A B : Type} (m : M A) (k : A → M B) : M B :=
  λ w, let '(a, w') := m w in k a w'.

Notation "x <- m ;; k" := (bind m (λ x, k))
  (at level 100, m at next level, right associativity).
Notation "m ;; k" := (bind m (λ _, k))
  (at level 100, right associativity).

Definition getHeap : M Heap := λ w, (heap w, w).
Definition getSource : M CodeLoaderSource := λ w, (source w, w).
Definition modifyHeap (f : Heap → Heap) : M unit :=
  λ w, (tt, mkWorld (f (heap w)) (source w)).
Definition modifySource (f : CodeLoaderSource → CodeLoaderSource) : M unit :=
  λ w, (tt, mkWorld (heap w) (f (source w))).

(** Run a computation that builds new objects. *)
Definition withHeap {A : Type} (f : Heap → A * Heap) : M A :=
  λ w, let '(a, h) := f (heap w) in (a, mkWorld h (source w)).

Fixpoint forEach {A : Type} (l : list A) (body : A → M unit) : M unit :=
  match l with
  | [] => pure tt
  | x :: l' => body x ;; forEach l' body
  end.

(** [source.errors.push(new CodeError(type, msg, from))] *)
Definition pushError (t : CodeErrorType) (m : string) (f : option NodeId) : M unit :=
  modifySource (λ s, mkSource (ast s) (files s) (errors s ++ [mkCodeError t m f]) (macros s)).

Definition pushFile (relPath : string) : M unit :=
  modifySource (λ s, mkSource (ast s) (files s ++ [relPath]) (errors s) (macros s)).

Definition setMacro (k : string) (m : MacroDefinition) : M unit :=
  modifySource (λ s, mkSource (ast s) (files s) (errors s) (<[k := m]> (macros s))).

Definition setAst (p : option Program) (s : CodeLoaderSource) : CodeLoaderSource :=
  mkSource p (files s) (errors s) (macros s).

(** [n.children = f(n.children)] and the same for the attributes *)
Definition modifyChildren (n : NodeId) (f : list NodeId → list NodeId) : M unit :=
  modifyHeap (updateElement (λ e, setChildren (f (children e)) e) n).

Definition modifyAttributes (n : NodeId) (f : list JSXAttr → list JSXAttr) : M unit :=
  modifyHeap (updateElement (λ e, setAttributes (f (attributes e)) e) n).

(** ** Constants of the loader *)

Definition MAX_NESTING : nat := 100.
Definition TAGS_PREFIX : string := ":".
Definition INCLUDE_TAG : string := ":include".
Definition IMPORT_TAG : string := ":import".
Definition INCLUDE_SRC_ATTR : string := "src".
Definition DEFINE_TAG : string := ":define".
Definition DEFINE_TAG_ATTR : string := "tag".
Definition SLOT_TAG : string := ":slot".
Definition SLOT_NAME_ATTR : string := "name".
Definition SLOT_DEFAULT_NAME : string := "default".

Definition quoted (s : string) : string := JS.dquote +:+ s +:+ JS.dquote.

(** ** The regular expression of [collectMacro]

    [/^([\-\w]+)(\:[\-\w]+)?$/]: a non-empty run of word characters and
    dashes, then optionally a colon and another such run, up to the end. *)

Definition isWordChar (c : ascii) : bool :=
  let n := nat_of_ascii c in
  (Nat.leb 48 n && Nat.leb n 57) || (Nat.leb 65 n && Nat.leb n 90)
  || (Nat.leb 97 n && Nat.leb n 122) || Nat.eqb n 95.

Definition isTagChar (c : ascii) : bool := Ascii.eqb c "-"%char || isWordChar c.

Fixpoint allTagChars (s : string) : bool :=
  match s with
  | EmptyString => true
  | String c s' => isTagChar c && allTagChars s'
  end.

(** The longest prefix of tag characters and what follows it *)
Fixpoint spanTagChars (s : string) : string * string :=
  match s with
  | EmptyString => (EmptyString, EmptyString)
  | String c s' =>
      if isTagChar c
      then let '(a, b) := spanTagChars s' in (String c a, b)
      else (EmptyString, s)
  end.

(** [exec]: the two groups, the second without its colon *)
Definition execTag (tag : string) : option (string * option string) :=
  let '(name, rest) := spanTagChars tag in
  if decide (name = "") then None
  else match rest with
       | EmptyString => Some (name, None)
       | String c b =>
           if Ascii.eqb c ":"%char && negb (String.eqb b "") && allTagChars b
           then Some (name, Some b)
           else None
       end.

Fixpoint foldM {A S : Type} (f : S → A → M S) (l : list A) (s : S) : M S :=
  match l with
  | [] => pure s
  | x :: l' => s' <- f s x ;; foldM f l' s'
  end.

Abbreviation SlotMap := (@Obj.t Slot).

(** ** The loader *)

Section Loader.

(** [this.rootPath] *)
Variable rootPath : string.
(** the working directory of the process, which [path.relative] reads *)
Variable cwd : string.
(** [fs.promises.readFile(pname)] followed by [this.parser.parse] *)
Variable fs : string → FileResult.
(** the order in which [walker.ancestor] calls its visitor *)
Variable order : WalkOrder.

Definition addError (t : CodeErrorType) (m : string) (f : option NodeId) : M unit :=
  pushError t m f.

(** *** Macros *)

Definition addDefaultSlot (node : NodeId) : M Slot :=
  defaultSlot <- withHeap (allocNode (NElement
    (mkElement (JSXIdentifier SLOT_TAG)
       [JSXAttribute SLOT_NAME_ATTR (Literal SLOT_DEFAULT_NAME)]
       false (Some (JSXIdentifier SLOT_TAG)) []))) ;;
  modifyChildren node (λ l, l ++ [defaultSlot]) ;;
  pure (mkSlot defaultSlot node).

(** The visitor of [collectSlots], applied to one visited element *)
Definition collectSlot (h : Heap) (ignore : option SlotMap) (ret : SlotMap)
    (v : NodeId * option NodeId) : M SlotMap :=
  match v with
  | (node, Some parent) =>
      match element h node with
      | Some e =>
          if decide (openingName e = JSXIdentifier SLOT_TAG) then
            match truthy (getJSXAttribute (attributes e) SLOT_NAME_ATTR) with
            | None =>
                pushError error
                  ("missing slot " +:+ quoted "name" +:+ " attribute") (Some node) ;;
                pure ret
            | Some name =>
                let ignored :=
                  match ignore with
                  | Some ig =>
                      match Obj.get ig name with
                      | Some islot => bool_decide (node = snode islot)
                      | None => false
                      end
                  | None => false
                  end in
                if ignored then pure ret
                else pure (Obj.set ret name (mkSlot node parent))
            end
          else pure ret
      | None => pure ret
      end
  | (_, None) => pure ret
  end.

Definition collectSlots (node : NodeId) (ignore : option SlotMap) : M SlotMap :=
  h <- getHeap ;;
  ret <- foldM (collectSlot h ignore) (walk order h (RootElement node)) [] ;;
  match Obj.get ret SLOT_DEFAULT_NAME, ignore with
  | None, None =>
      slot <- addDefaultSlot node ;;
      pure (Obj.set ret SLOT_DEFAULT_NAME slot)
  | _, _ => pure ret
  end.

(** One round of the attribute loop of [populateMacro] *)
Definition mergeAttribute (srcAttrs dstAttrs : list JSXAttr) (key : string)
  : list JSXAttr :=
  match getJSXAttributeNode srcAttrs key with
  | Some (JSXAttribute k v) =>
      match getJSXAttributeNode dstAttrs key with
      | Some _ => setJSXAttributeValue dstAttrs key v
      | None => dstAttrs ++ [JSXAttribute k v]
      end
  | _ => dstAttrs
  end.

(** The slot a child of the use-site asks for *)
Definition slotNameOf (h : Heap) (node : NodeId) : string :=
  match element h node with
  | Some e => default SLOT_DEFAULT_NAME (truthy (getJSXAttribute (attributes e) SLOT_NAME_ATTR))
  | None => SLOT_DEFAULT_NAME
  end.

(** One round of the child loop of [populateMacro] *)
Definition routeChild (slots : SlotMap) (node : NodeId) : M unit :=
  h <- getHeap ;;
  match Obj.get slots (slotNameOf h node) with
  | None => pure tt
  | Some slot =>
      let i := JS.indexOf (snode slot) (childrenOf h (sparent slot)) in
      modifyChildren (sparent slot) (JS.splice i 0 [node])
  end.

(** One round of the last loop of [populateMacro] *)
Definition replaceSlot (slots : SlotMap) (key : string) : M unit :=
  match Obj.get slots key with
  | Some slot =>
      h <- getHeap ;;
      let i := JS.indexOf (snode slot) (childrenOf h (sparent slot)) in
      modifyChildren (sparent slot) (JS.splice i 1 (childrenOf h (snode slot)))
  | None => pure tt
  end.

(** The first loop of [populateMacro]: the attributes of the use-site *)
Definition mergeAttributes (src dst : NodeId) : M unit :=
  h <- getHeap ;;
  forEach (getJSXAttributeKeys (attributesOf h src))
    (λ key, h' <- getHeap ;;
            modifyAttributes dst (λ a, mergeAttribute (attributesOf h' src) a key)).

(** The second loop: the children of the use-site.  [dst] is a fresh copy
    in every call, so the loop runs over a list nobody changes meanwhile. *)
Definition routeChildren (slots : SlotMap) (src : NodeId) : M unit :=
  h <- getHeap ;;
  forEach (childrenOf h src) (routeChild slots).

(** The third loop: every slot of the table gives way to its children *)
Definition replaceSlots (slots : SlotMap) : M unit :=
  forEach (Obj.ownKeys slots) (replaceSlot slots).

Definition populateMacro (src dst : NodeId) (removeSlots : bool) : M SlotMap :=
  mergeAttributes src dst ;;
  slots <- collectSlots dst None ;;
  routeChildren slots src ;;
  if negb removeSlots then pure slots
  else replaceSlots slots ;; pure [].

(** One round of the loop of [expandMacro] that drops overridden slots *)
Definition dropOldSlot (oldSlots : SlotMap) (key : string) : M unit :=
  match Obj.get oldSlots key with
  | Some oldSlot =>
      h <- getHeap ;;
      let i := JS.indexOf (snode oldSlot) (childrenOf h (sparent oldSlot)) in
      modifyChildren (sparent oldSlot) (JS.splice i 1 [])
  | None => pure tt
  end.

Definition expandMacro (use : NodeId) (macro : MacroDefinition)
    (removeSlots : bool) (nesting : nat) : M NodeId :=
  if Nat.ltb MAX_NESTING nesting then
    pushError error ("too many nested macros " +:+ quoted (mname macro)) (Some use) ;;
    pure use
  else
    ret <- withHeap (clone (mnode macro)) ;;
    oldSlots <- populateMacro use ret removeSlots ;;
    (if negb removeSlots then
       newSlots <- collectSlots ret (Some oldSlots) ;;
       forEach (Obj.ownKeys newSlots) (dropOldSlot oldSlots)
     else pure tt) ;;
    pure ret.

(** [name.name = base] keeps the kind of the name object *)
Definition rename (base : string) (n : JSXName) : JSXName :=
  match n with
  | JSXIdentifier _ => JSXIdentifier base
  | JSXOtherName p => JSXOtherName p
  end.

(** The rewriting of the [:define] element into the macro body *)
Definition defineBody (base : string) (e : JSXElement) : JSXElement :=
  let nm := rename base (openingName e) in
  mkElement nm (removeJSXAttribute (attributes e) DEFINE_TAG_ATTR) false
    (if selfClosing e then Some nm else rename base <$> closingName e)
    (children e).

Definition collectMacro (d : Directive) : M unit :=
  h <- getHeap ;;
  match truthy (getJSXAttribute (attributesOf h (dnode d)) DEFINE_TAG_ATTR) with
  | None =>
      pushError warning ("bad or missing " +:+ DEFINE_TAG_ATTR +:+ " attribute")
        (Some (dnode d))
  | Some tag =>
      match execTag tag with
      | None =>
          pushError warning
            ("invalid tag name " +:+ JS.dquote +:+ tag
             +:+ " (does it include a dash?)" +:+ JS.dquote)
            (Some (dnode d))
      | Some (name, res2) =>
          let base := default "div" res2 in
          src <- getSource ;;
          let from := if (0 <? JS.indexOfChar "-" base)%Z
                      then macros src !! base else None in
          modifyHeap (updateElement (defineBody base) (dnode d)) ;;
          node <- match from with
                  | Some m => expandMacro (dnode d) m false 0
                  | None => pure (dnode d)
                  end ;;
          setMacro name (mkMacro name node base from)
      end
  end.

(** *** Inclusions *)

(** One round of the loop of [applyIncludedAttributes] *)
Definition includeAttribute (p rootElement : NodeId) (existing : list string)
    (key : string) : M unit :=
  if JS.includes key existing then pure tt
  else
    h' <- getHeap ;;
    match getJSXAttributeNode (attributesOf h' rootElement) key with
    | Some attr => modifyAttributes p (λ a, a ++ [attr])
    | None => pure tt
    end.

Definition applyIncludedAttributes (directive : Directive) (rootElement : NodeId)
  : M unit :=
  h <- getHeap ;;
  let p := dparent directive in
  let existing := getJSXAttributeKeys (attributesOf h p) in
  let included := getJSXAttributeKeys (attributesOf h rootElement) in
  forEach included (includeAttribute p rootElement existing).

(** [n.type === 'JSXText' && /^\s*$/.test(n.value)] *)
Definition isBlankText (h : Heap) (n : NodeId) : bool :=
  match h !! n with
  | Some (NText v) => JS.allWhiteSpace v
  | _ => false
  end.

Definition trimIncluded (h : Heap) (nn : list NodeId) : list NodeId :=
  let nn1 := match nn with
             | n :: _ => if isBlankText h n then JS.shift nn else nn
             | [] => nn
             end in
  match last nn1 with
  | Some n => if isBlankText h n then JS.pop nn1 else nn1
  | None => nn1
  end.

Section Directives.

(** [this.parse], for the recursive call of [processInclude] *)
Variable parseRec :
  string → string → nat → bool → option NodeId → M (option Program).

Definition processInclude (d : Directive) (i : Z) (currDir : string) (nesting : nat)
  : M unit :=
  h <- getHeap ;;
  let src := getJSXAttribute (attributesOf h (dnode d)) INCLUDE_SRC_ATTR in
  match src with
  | Some s =>
      if JS.blank src then
        pushError error ("missing " +:+ INCLUDE_SRC_ATTR +:+ " attribute") (Some (dnode d))
      else
        program <- parseRec s currDir (nesting + 1)
                     (bool_decide (dname d = IMPORT_TAG)) (Some (dnode d)) ;;
        match program with
        | Some (ExpressionStatement rootElement :: _) =>
            applyIncludedAttributes d rootElement ;;
            h' <- getHeap ;;
            let nn := trimIncluded h' (childrenOf h' rootElement) in
            modifyChildren (dparent d) (JS.splice i 0 nn)
        | _ => pure tt
        end
  | None =>
      pushError error ("missing " +:+ INCLUDE_SRC_ATTR +:+ " attribute") (Some (dnode d))
  end.

(** The visitor of [processDirectives], applied to one visited element *)
Definition directiveOf (h : Heap) (v : NodeId * option NodeId) : option Directive :=
  match v with
  | (node, Some parent) =>
      match element h node with
      | Some e =>
          match openingName e with
          | JSXIdentifier name =>
              if JS.startsWith name TAGS_PREFIX
              then Some (mkDirective name node parent)
              else None
          | JSXOtherName _ => None
          end
      | None => None
      end
  | (_, None) => None
  end.

(** One round of the loop of [processDirectives] *)
Definition processDirective (currDir : string) (nesting : nat) (d : Directive)
  : M unit :=
  h <- getHeap ;;
  let i := JS.indexOf (dnode d) (childrenOf h (dparent d)) in
  if decide (dname d = INCLUDE_TAG ∨ dname d = IMPORT_TAG) then
    modifyChildren (dparent d) (JS.removeAt i) ;;
    processInclude d i currDir nesting
  else if decide (dname d = DEFINE_TAG) then
    modifyChildren (dparent d) (JS.removeAt i) ;;
    collectMacro d
  else if decide (dname d = SLOT_TAG) then
    pure tt
  else
    modifyChildren (dparent d) (JS.removeAt i) ;;
    pushError warning ("unknown directive " +:+ dname d) (Some (dnode d)).

Definition processDirectives (program : Program) (currDir : string) (nesting : nat)
  : M unit :=
  h <- getHeap ;;
  let directives := omap (directiveOf h) (walk order h (RootProgram program)) in
  forEach directives (processDirective currDir nesting).

(** [body.length >= 1], [body[0]] an expression statement holding an element *)
Definition rootIsElement (h : Heap) (program : Program) : bool :=
  match program with
  | ExpressionStatement n :: _ => isElement h n
  | _ => false
  end.

(** [parse] from the reading of the file on *)
Definition readAndParse (pname relPath : string) (nesting : nat) (from : option NodeId)
  : M (option Program) :=
  match fs pname with
  | ReadFailure =>
      addError error ("failed to read " +:+ quoted relPath) from ;;
      pure None
  | ParseFailure e =>
      addError error (e +:+ " in " +:+ quoted relPath) from ;;
      pure None
  | Parsed body =>
      program <- withHeap (allocStatements body) ;;
      h <- getHeap ;;
      if rootIsElement h program then
        processDirectives program (Path.dirname relPath) nesting ;;
        pure (Some program)
      else
        (* [source.ast] is still undefined while [parse] runs *)
        addError error ("HTML tag expected " +:+ quoted relPath) None ;;
        pure None
  end.

(** [parse] after its nesting guard *)
Definition parseBody (fname currDir : string) (nesting : nat) (once : bool)
    (from : option NodeId) : M (option Program) :=
  let currDir := if JS.startsWith fname "/" then "" else currDir in
  let pname := Path.normalize (Path.join [rootPath; currDir; fname]) in
  if negb (JS.startsWith pname rootPath) then
    let s := Path.relative cwd rootPath pname in
    addError error ("forbidden pathname " +:+ quoted s) from ;;
    pure None
  else
    let relPath := JS.substringFrom (String.length rootPath) pname in
    src <- getSource ;;
    if negb (JS.includes relPath (files src)) then
      pushFile relPath ;;
      readAndParse pname relPath nesting from
    else if once then pure None
    else readAndParse pname relPath nesting from.

End Directives.

Definition tooManyInclusions (from : option NodeId) : M (option Program) :=
  addError error "too many nested inclusions" from ;;
  pure None.

(** [parse].  The recursion goes through [processInclude] with [nesting + 1]
    and stops at [MAX_NESTING], so it is structural in the number [depth]
    of levels left; [parse] starts it with [MAX_NESTING - nesting], for
    which the [O] branch is never reached below the bound. *)
Fixpoint parseAt (depth : nat) (fname currDir : string) (nesting : nat) (once : bool)
    (from : option NodeId) : M (option Program) :=
  if Nat.leb MAX_NESTING nesting then tooManyInclusions from
  else
    match depth with
    | O => tooManyInclusions from
    | S depth' => parseBody (parseAt depth') fname currDir nesting once from
    end.

Definition parse (fname currDir : string) (nesting : nat) (once : bool)
    (from : option NodeId) : M (option Program) :=
  parseAt (MAX_NESTING - nesting) fname currDir nesting once from.

(** *** Macro expansion *)

(** The visitor of [expandMacros], applied to one visited element *)
Definition expandUse (h : Heap) (nesting : nat)
    (ee : list (NodeId * NodeId * NodeId)) (v : NodeId * option NodeId)
  : M (list (NodeId * NodeId * NodeId)) :=
  match v with
  | (node, Some parent) =>
      match element h node with
      | Some e =>
          match openingName e with
          | JSXIdentifier name =>
              src <- getSource ;;
              match macros src !! name with
              | Some macro =>
                  res <- expandMacro node macro true nesting ;;
                  pure (ee ++ [(node, res, parent)])
              | None => pure ee
              end
          | JSXOtherName _ => pure ee
          end
      | None => pure ee
      end
  | (_, None) => pure ee
  end.

(** [e.parent.children.splice(i, 1, e.res)] *)
Definition replaceUse (use res parent : NodeId) : M unit :=
  h <- getHeap ;;
  let i := JS.indexOf use (childrenOf h parent) in
  modifyChildren parent (JS.splice i 1 [res]).

(** The loop of [expandMacros] that replaces the usages; [again] is the
    recursive call [this.expandMacros(e.res, source, nesting + 1)]. *)
Fixpoint replaceUsages (again : NodeId → World → option World)
    (ee : list (NodeId * NodeId * NodeId)) (w : World) : option World :=
  match ee with
  | [] => Some w
  | (use, res, parent) :: ee' =>
      let '(_, w') := replaceUse use res parent w in
      match again res w' with
      | Some w'' => replaceUsages again ee' w''
      | None => None
      end
  end.

(** [expandMacros].  The walk only reads the tree ([expandMacro] writes to
    its fresh copy), so the visits are taken first.  The recursion has no
    structural bound; [fuel] counts the calls that may be nested, and
    [None] stands for running out of it. *)
Fixpoint expandMacros (fuel : nat) (root : option WalkRoot) (nesting : nat) (w : World)
  : option World :=
  match fuel with
  | O => None
  | S fuel' =>
      let visits := match root with
                    | Some r => walk order (heap w) r
                    | None => []
                    end in
      let '(ee, w1) := foldM (expandUse (heap w) nesting) visits [] w in
      replaceUsages
        (λ res, expandMacros fuel' (Some (RootElement res)) (nesting + 1)) ee w1
  end.

(** *** [load] *)

Definition emptySource : CodeLoaderSource := mkSource None [] [] ∅.

(** The first statement of [load] and the assignment of its result *)
Definition loadInclusions (fname : string) : World :=
  let '(program, w) := parse fname "." 0 false None (mkWorld [] emptySource) in
  mkWorld (heap w) (setAst program (source w)).

Definition load (fuel : nat) (fname : string) : option World :=
  let w := loadInclusions fname in
  expandMacros fuel (RootProgram <$> ast (source w)) 0 w.

End Loader.

(** ** Notions used to state the properties *)

#[global] Instance Slot_eq_dec : EqDecision Slot.
Proof. solve_decision. Defined.

(** A method keeps a relation between the world before and after it. *)
Definition preserves {A : Type} (R : World → World → Prop) (m : M A) : Prop :=
  ∀ w, R w (m w).2.

(** Nothing but the diagnostics of the session has changed. *)
Definition onlyErrors (w w' : World) : Prop :=
  ast (source w') = ast (source w)
  ∧ files (source w') = files (source w)
  ∧ macros (source w') = macros (source w).

Definition sameFiles (w w' : World) : Prop :=
  files (source w') = files (source w).

(** A property of the visited files that survives a method *)
Definition keepsInv (I : list string → Prop) (w w' : World) : Prop :=
  I (files (source w)) → I (files (source w')).

(** The inner loop of [alloc]: the objects built for a list of trees, in
    their order; [one] builds a single tree. *)
Section AllocAll.
Variable one : Tree → Heap → NodeId * Heap.

Fixpoint allocAll (ts : list Tree) (h : Heap) : list NodeId * Heap :=
  match ts with
  | [] => ([], h)
  | t :: ts' =>
      let '(i, h1) := one t h in
      let '(rest, h2) := allocAll ts' h1 in
      (i :: rest, h2)
  end.
End AllocAll.

(** No object of the store refers to an object that is not there. *)
Definition closed (h : Heap) : Prop :=
  Forall (λ x, match x with
               | NElement e => Forall (λ c, (c < length h)%nat) (children e)
               | _ => True
               end) h.

#[global] Instance closed_dec h : Decision (closed h).
Proof.
  unfold closed. apply Forall_dec. intros [e | v | p]; apply _.
Defined.

(** The objects from [L] on are fresh: the children of each are distinct
    objects of the store that are themselves not older than [L]. *)
Definition freshFrom (L : nat) (h : Heap) : Prop :=
  ∀ i, (L ≤ i)%nat →
       NoDup (childrenOf h i)
       ∧ Forall (λ c, (L ≤ c < length h)%nat) (childrenOf h i).

(** A method that leaves the tree structure alone: the same objects, each
    with the same children. *)
Definition sameShape (w w' : World) : Prop :=
  length (heap w') = length (heap w)
  ∧ (∀ m, childrenOf (heap w') m = childrenOf (heap w) m)
  ∧ ∀ m, isElement (heap w') m = isElement (heap w) m.

(** The session only grows: diagnostics and visited files are appended, and
    a name that is registered stays registered. *)
Definition sessionGrows (w w' : World) : Prop :=
  errors (source w) `prefix_of` errors (source w')
  ∧ files (source w) `prefix_of` files (source w')
  ∧ ∀ k, is_Some (macros (source w) !! k) → is_Some (macros (source w') !! k).

(** The store only grows: every object stays, a text or an expression stays
    what it is, an element stays an element. *)
Definition storeGrows (w w' : World) : Prop :=
  ∀ n x, heap w !! n = Some x →
         match x with
         | NElement _ => isElement (heap w') n = true
         | _ => heap w' !! n = Some x
         end.

(** The first [L] objects of the store are left as they are. *)
Definition keepsOld (L : nat) (w w' : World) : Prop :=
  (L ≤ length (heap w))%nat →
  (L ≤ length (heap w'))%nat ∧ take L (heap w') = take L (heap w).

(** The objects from [L] on have no child older than [L]. *)
Definition newChildren (L : nat) (h : Heap) : Prop :=
  ∀ i, (L ≤ i)%nat → Forall (λ c, (L ≤ c)%nat) (childrenOf h i).

(** A method that hangs no object older than [L] under one from [L] on. *)
Definition keepsNew (L : nat) (w w' : World) : Prop :=
  (L ≤ length (heap w))%nat ∧ newChildren L (heap w) →
  (L ≤ length (heap w'))%nat ∧ newChildren L (heap w').

(** The first [B] objects of the store keep their child lists. *)
Definition kidsKept (B : nat) (w w' : World) : Prop :=
  (B ≤ length (heap w))%nat →
  (B ≤ length (heap w'))%nat
  ∧ ∀ p, (p < B)%nat → childrenOf (heap w') p = childrenOf (heap w) p.

(** Objects made after the first [B] are put into the child list of [p], and
    no other child list among the first [B] objects changes. *)
Definition splicedInto (B : nat) (p : NodeId) (w w' : World) : Prop :=
  (B ≤ length (heap w'))%nat
  ∧ (∀ q, (q < B)%nat → q ≠ p → childrenOf (heap w') q = childrenOf (heap w) q)
  ∧ ∃ s nn, Forall (λ c, (B ≤ c)%nat) nn
            ∧ childrenOf (heap w') p
              = take s (childrenOf (heap w) p) ++ nn ++ drop s (childrenOf (heap w) p).

(** The loop of [processDirectives] under way, for the directives [all] of
    a program made of the objects before [B]: no parent has one of these
    objects twice among its children, every [:slot] is where it was, and
    every other directive of [done] is out of its parent's child list. *)
Definition directivesInv (B : nat) (all done : list Directive) (w : World) : Prop :=
  (B ≤ length (heap w))%nat
  ∧ (∀ d, d ∈ all →
          NoDup (filter (λ c, (c < B)%nat) (childrenOf (heap w) (dparent d))))
  ∧ (∀ d, d ∈ all → dname d = SLOT_TAG → dnode d ∈ childrenOf (heap w) (dparent d))
  ∧ (∀ d, d ∈ done → dname d ≠ SLOT_TAG → dnode d ∉ childrenOf (heap w) (dparent d)).

(** The tree a session ends with: the root element of [ast] *)
Definition finalTree (w : World) : option Tree :=
  match ast (source w) with
  | Some (ExpressionStatement n :: _) => Some (treeAt (heap w) n)
  | _ => None
  end.

Definition isDirectiveName (n : JSXName) : bool :=
  match n with
  | JSXIdentifier name => JS.startsWith name TAGS_PREFIX
  | JSXOtherName _ => false
  end.

(** Some element of the tree has a tag that begins with [:] *)
Fixpoint hasDirectiveTag (t : Tree) : bool :=
  match t with
  | TElement nm _ _ _ ts => isDirectiveName nm || existsb hasDirectiveTag ts
  | _ => false
  end.

(** A path lies within a directory when the components of the directory
    open the components of the path. *)
Definition withinRoot (root p : string) : Prop :=
  Path.nonEmptySegments root `prefix_of` Path.nonEmptySegments p.

(** The name [parse] resolves a request to *)
Definition resolved (rootPath fname currDir : string) : string :=
  Path.normalize
    (Path.join [rootPath; if JS.startsWith fname "/" then "" else currDir; fname]).

(** The entry [relPath] of [files] stands for the file [rootPath + relPath]. *)
Definition denotes (rootPath relPath : string) : string := rootPath +:+ relPath.

(** What [applyIncludedAttributes] appends: for each attribute name of the
    included root that the parent lacks, the root's entry of that name *)
Definition includedAttributes (existing : list string) (rattrs : list JSXAttr)
  : list JSXAttr :=
  flat_map (λ key, if JS.includes key existing then []
                   else option_list (getJSXAttributeNode rattrs key))
    (getJSXAttributeKeys rattrs).

(** The names every plain object inherits from [Object.prototype].  For a
    dictionary [o] built by the loader, [o[k]] is the own value of [k] when
    [k] is a key of [o], [undefined] when it is neither a key nor one of
    these names, and an inherited function or object otherwise. *)
Definition prototypeNames : list string :=
  ["constructor"; "__defineGetter__"; "__defineSetter__"; "hasOwnProperty";
   "__lookupGetter__"; "__lookupSetter__"; "isPrototypeOf"; "propertyIsEnumerable";
   "toString"; "valueOf"; "__proto__"; "toLocaleString"].

(** The read [o[k]] is the one [Obj.get] models: [k] is a key of [o], or no
    object inherits it. *)
Definition plainRead {V : Type} (o : @Obj.t V) (k : string) : Prop :=
  is_Some (Obj.get o k) ∨ k ∉ prototypeNames.

#[global] Instance plainRead_dec {V : Type} (o : @Obj.t V) k : Decision (plainRead o k).
Proof. unfold plainRead. apply _. Defined.

(** The dictionary is the one [Obj.set] builds: no assignment to it went to
    [__proto__], which would have replaced its prototype. *)
Definition plainTable {V : Type} (o : @Obj.t V) : Prop :=
  Obj.get o "__proto__" = None.

#[global] Instance plainTable_dec {V : Type} (o : @Obj.t V) : Decision (plainTable o).
Proof. unfold plainTable. destruct (Obj.get o "__proto__"); [right | left]; congruence. Defined.

(** Slot routing, stated on lists: the slot a child goes to, the children
    that go to the slot [s] under the parent [p], and a child list in which
    each of them stands right before its slot. *)
Definition targetSlot (slots : SlotMap) (h : Heap) (c : NodeId) : option Slot :=
  Obj.get slots (slotNameOf h c).

Definition routedTo (slots : SlotMap) (h : Heap) (cs : list NodeId) (s p : NodeId)
  : list NodeId :=
  filter (λ c, targetSlot slots h c = Some (mkSlot s p)) cs.

Definition routedChildren (slots : SlotMap) (h : Heap) (cs : list NodeId)
    (p : NodeId) (l : list NodeId) : list NodeId :=
  flat_map (λ x, routedTo slots h cs x p ++ [x]) l.

Definition tooManyInclusionsError (e : CodeError) : Prop :=
  type e = error ∧ msg e = "too many nested inclusions".

#[global] Instance tooManyInclusionsError_dec e : Decision (tooManyInclusionsError e).
Proof. unfold tooManyInclusionsError. apply _. Defined.

(** ** Pages used in the examples *)

Definition tag (name : string) (attrs : list (string * string)) (cs : list Tree) : Tree :=
  TElement (JSXIdentifier name)
    (map (λ kv, JSXAttribute kv.1 (Literal kv.2)) attrs)
    false (Some (JSXIdentifier name)) cs.

Definition emptyTag (name : string) (attrs : list (string * string)) : Tree :=
  TElement (JSXIdentifier name)
    (map (λ kv, JSXAttribute kv.1 (Literal kv.2)) attrs)
    true None [].

Definition page (t : Tree) : FileResult := Parsed [TExpressionStatement t].

(** A document root with the given files; anything else cannot be read. *)
Fixpoint site (filesOnDisk : list (string * FileResult)) (pname : string) : FileResult :=
  match filesOnDisk with
  | [] => ReadFailure
  | (name, r) :: rest => if decide (name = pname) then r else site rest pname
  end.

(** The third scenario of the specification, as written there *)
Definition siteAttributes : string → FileResult :=
  site [("/var/www/a.html",
         page (tag "html" [] [emptyTag ":include" [("src", "b.html"); ("class", "y")]]));
        ("/var/www/b.html", page (tag "root" [("id", "r")] [TText "x"]))].

(** The same with [class] on the parent element and on the included root *)
Definition siteParentAttributes : string → FileResult :=
  site [("/var/www/a.html",
         page (tag "html" [("class", "y")] [emptyTag ":include" [("src", "b.html")]]));
        ("/var/www/b.html",
         page (tag "root" [("id", "r"); ("class", "z")] [TText "x"]))].

Definition siteImportTwice : string → FileResult :=
  site [("/var/www/a.html",
         page (tag "html" []
                 [emptyTag ":import" [("src", "b.html")];
                  emptyTag ":import" [("src", "b.html")]]));
        ("/var/www/b.html", page (tag "div" [("class", "x")] [TText "hello"]))].

Definition siteIncludeTwice : string → FileResult :=
  site [("/var/www/a.html",
         page (tag "html" []
                 [emptyTag ":include" [("src", "b.html")];
                  emptyTag ":include" [("src", "b.html")]]));
        ("/var/www/b.html", page (tag "div" [("class", "x")] [TText "hello"]))].

Definition siteMixed : string → FileResult :=
  site [("/var/www/a.html",
         page (tag "html" []
                 [emptyTag ":include" [("src", "b.html")];
                  emptyTag ":import" [("src", "c.html")];
                  emptyTag ":include" [("src", "b.html")];
                  emptyTag ":import" [("src", "b.html")];
                  emptyTag ":import" [("src", "c.html")]]));
        ("/var/www/b.html", page (tag "div" [] [TText "b"; emptyTag ":import" [("src", "c.html")]]));
        ("/var/www/c.html", page (tag "div" [] [TText "c"]))].

(** A directory next to the document root whose name starts like it *)
Definition siteSibling : string → FileResult :=
  site [("/var/www/a.html", page (tag "html" [] []));
        ("/var/www2/secret.html", page (tag "html" [] [TText "secret"]))].

Definition chainName (i : nat) : string :=
  "f" +:+ NilEmpty.string_of_uint (Nat.to_uint i) +:+ ".html".

(** [f0.html] includes [f1.html], which includes [f2.html], and so on; the
    last file, number [n], includes nothing. *)
Definition chainFile (n i : nat) : string * FileResult :=
  ("/var/www/" +:+ chainName i,
   page (tag "html" []
           (if decide (i < n)%nat
            then [emptyTag ":include" [("src", chainName (S i))]]
            else []))).

Definition siteChain (n : nat) : string → FileResult :=
  site (map (chainFile n) (seq 0 (S n))).

Definition siteDefineNoDash : string → FileResult :=
  site [("/var/www/a.html",
         page (tag "html" []
                 [tag ":define" [("tag", "foo")] [tag "b" [] [TText "x"]];
                  emptyTag "foo" []]))].

Definition siteCard : string → FileResult :=
  site [("/var/www/a.html",
         page (tag "html" []
                 [tag ":define" [("tag", "my-card")]
                    [tag "div" [("class", "card")]
                       [emptyTag ":slot" [("name", "header")];
                        emptyTag ":slot" [("name", "default")]]];
                  tag "my-card" []
                    [tag "span" [("name", "header")] [TText "H"];
                     TText "B";
                     tag "i" [("name", "footer")] [TText "F"];
                     tag "em" [] [TText "C"];
                     tag "span" [("name", "header")] [TText "H2"]]]))].

Definition siteStraySlot : string → FileResult :=
  site [("/var/www/a.html",
         page (tag "html" [] [emptyTag ":slot" [("name", "a")]]))].

(** A [:slot] below an unknown directive, and a page whose root is one *)
Definition siteSlotInUnknown : string → FileResult :=
  site [("/var/www/a.html",
         page (tag "html" [] [tag ":foo" [] [emptyTag ":slot" [("name", "a")]]]))].

Definition siteRootDirective : string → FileResult :=
  site [("/var/www/a.html", page (tag ":foo" [] [tag "p" [] [TText "y"]]))].

(** An unknown directive below a definition that takes another macro for
    its base *)
Definition siteDirectiveInDefinition : string → FileResult :=
  site [("/var/www/a.html",
         page (tag "html" []
                 [tag ":define" [("tag", "my-base")] [TText "base:"];
                  tag ":define" [("tag", "my-x:my-base")] [tag ":foo" [] [TText "q"]];
                  emptyTag "my-x" []]))].

(** The statements of a file with an unknown directive and a [:slot] *)
Definition fooAndSlotBody : list TStatement :=
  [TExpressionStatement
     (tag "html" [] [tag ":foo" [] [TText "x"]; emptyTag ":slot" [("name", "a")]])].

Definition fooAndSlotHeap : Heap :=
  Eval vm_compute in (allocStatements fooAndSlotBody []).2.

Definition siteUnknownDirective : string → FileResult :=
  site [("/var/www/a.html",
         page (tag "html" [] [tag ":foo" [] [TText "x"]; tag "p" [] [TText "y"]]))].

Definition siteRecursiveMacro : string → FileResult :=
  site [("/var/www/a.html",
         page (tag "html" []
                 [tag ":define" [("tag", "my-a")] [emptyTag "my-a" []];
                  emptyTag "my-a" []]))].

Definition siteRedefine : string → FileResult :=
  site [("/var/www/a.html",
         page (tag "html" []
                 [tag ":define" [("tag", "my-x")] [tag "i" [] [TText "one"]];
                  tag ":define" [("tag", "my-x")] [tag "b" [] [TText "two"]];
                  emptyTag "my-x" []]))].

(** Two definitions of [my-x] that both take [my-base] for their base *)
Definition pageRedefineInherit : Tree :=
  tag "html" []
    [tag ":define" [("tag", "my-base")]
       [TText "base:"; emptyTag ":slot" [("name", "default")]];
     tag ":define" [("tag", "my-x:my-base")] [tag "i" [] [TText "one"]];
     tag ":define" [("tag", "my-x:my-base")] [tag "b" [] [TText "two"]];
     emptyTag "my-x" []].

Definition siteRedefineInherit : string → FileResult :=
  site [("/var/www/a.html", page pageRedefineInherit)].

(** A chain of a hundred files whose last one imports the first again *)
Definition deepImportFile (n i : nat) : string * FileResult :=
  ("/var/www/" +:+ chainName i,
   page (tag "html" []
           [if decide (i < n)%nat
            then emptyTag ":include" [("src", chainName (S i))]
            else emptyTag ":import" [("src", chainName 0)]])).

Definition siteDeepImport : string → FileResult :=
  site (map (deepImportFile 99) (seq 0 100)).

(** A use-site whose only child has an empty [name] *)
Definition siteEmptyName : string → FileResult :=
  site [("/var/www/a.html",
         page (tag "html" []
                 [tag ":define" [("tag", "my-card")]
                    [tag "div" [("class", "card")]
                       [emptyTag ":slot" [("name", "header")];
                        emptyTag ":slot" [("name", "default")]]];
                  tag "my-card" [] [tag "span" [("name", "")] [TText "E"]]]))].

(** The attributes of the root element of a tree *)
Definition rootAttributes (t : option Tree) : list JSXAttr :=
  match t with
  | Some (TElement _ attrs _ _ _) => attrs
  | _ => []
  end.

(** [n] elements [name] around a tree, one inside the other *)
Fixpoint nested (n : nat) (name : string) (t : Tree) : Tree :=
  match n with
  | O => t
  | S n' => tag name [] [nested n' name t]
  end.

(** The session of [siteMixed] after its inclusions *)
Definition sessionMixed : World :=
  Eval vm_compute in loadInclusions "/var/www" "/" siteMixed DocumentOrder "a.html".

(** The macro page after its inclusions; [cardUse] is the use-site
    [<my-card>], the last child of the root element. *)
Definition cardWorld : World :=
  Eval vm_compute in loadInclusions "/var/www" "/" siteCard DocumentOrder "a.html".

Definition cardUse : NodeId := 13.

(** Stamping [my-card] at [cardUse], up to the collection of the slots:
    the copy of the body, its slot table and the world at that point *)
Definition cardStamp : NodeId * SlotMap * World :=
  Eval vm_compute in
    match macros (source cardWorld) !! "my-card" with
    | Some m =>
        let '(ret, w1) := withHeap (clone (mnode m)) cardWorld in
        let '(slots, w2) := (mergeAttributes cardUse ret ;; collectSlots DocumentOrder ret None) w1 in
        (ret, slots, w2)
    | None => (0, [], cardWorld)
    end.

(** The same for the page [siteEmptyName]; its use-site is the node 6. *)
Definition emptyNameWorld : World :=
  Eval vm_compute in loadInclusions "/var/www" "/" siteEmptyName DocumentOrder "a.html".

Definition emptyNameUse : NodeId := 6.

Definition emptyNameStamp : NodeId * SlotMap * World :=
  Eval vm_compute in
    match macros (source emptyNameWorld) !! "my-card" with
    | Some m =>
        let '(ret, w1) := withHeap (clone (mnode m)) emptyNameWorld in
        let '(slots, w2) := (mergeAttributes emptyNameUse ret ;; collectSlots DocumentOrder ret None) w1 in
        (ret, slots, w2)
    | None => (0, [], emptyNameWorld)
    end.

(** The page [pageRedefineInherit] once [my-base] (node 2) and the first
    [my-x] (node 5) have been collected, and the directive of the second
    [my-x] (node 8) *)
Definition inheritWorld : World :=
  Eval vm_compute in
    (collectMacro DocumentOrder (mkDirective ":define" 5 10)
       (collectMacro DocumentOrder (mkDirective ":define" 2 10)
          (withHeap (alloc pageRedefineInherit) (mkWorld [] emptySource)).2).2).2.

Definition inheritDirective : Directive := mkDirective ":define" 8 10.

(** The page with an unknown directive, parsed but not yet processed, and
    the directive for its element [:foo] *)
Definition unknownWorld : World :=
  Eval vm_compute in
    (withHeap (alloc (tag "html" [] [tag ":foo" [] [TText "x"]; tag "p" [] [TText "y"]]))
       (mkWorld [] emptySource)).2.

Definition unknownDirective : Directive := mkDirective ":foo" 1 4.

(** The macro page after its macros have been expanded *)
Definition cardSession : World :=
  Eval vm_compute in
    default cardWorld
      (expandMacros DocumentOrder 5 (RootProgram <$> ast (source cardWorld)) 0 cardWorld).

(** A use-site [<my-x class="a" id="u"/>], the node 0, and an element
    [<div class="b" title="t">], the node 1 *)
Definition attrWorld : World :=
  Eval vm_compute in
    (withHeap (alloc (tag "html" []
                        [emptyTag "my-x" [("class", "a"); ("id", "u")];
                         tag "div" [("class", "b"); ("title", "t")] []]))
       (mkWorld [] emptySource)).2.

(** The page [a<:include src="b.html" class="y"/>z] of [/a.html], parsed
    but not yet processed, and the directive for its element [:include] *)
Definition includeWorld : World :=
  Eval vm_compute in
    (withHeap (alloc (tag "html" []
                        [TText "a";
                         emptyTag ":include" [("src", "b.html"); ("class", "y")];
                         TText "z"]))
       (mkWorld [] (mkSource None ["/a.html"] [] ∅))).2.

Definition includeDirective : Directive := mkDirective ":include" 1 3.

(** The same page where the root of [/b.html] has a blank text at either
    end of its children, and the world once that file has been parsed *)
Definition siteBlankEnds : string → FileResult :=
  site [("/var/www/b.html",
         page (tag "root" [("id", "r")]
                 [TText " "; tag "p" [] [TText "x"]; TText (String (ascii_of_nat 10) " ")]))].

Definition blankEndsWorld : World :=
  Eval vm_compute in
    (parse "/var/www" "/" siteBlankEnds DocumentOrder "b.html" "/" 1 false (Some 1)
       (mkWorld (updateElement (setChildren [0; 2]) 3 (heap includeWorld))
          (source includeWorld))).2.

(** The same page in a document root without [/b.html], once the inclusion
    has been tried *)
Definition missingWorld : World :=
  Eval vm_compute in
    (parse "/var/www" "/" siteCard DocumentOrder "b.html" "/" 1 false (Some 1)
       (mkWorld (updateElement (setChildren [0; 2]) 3 (heap includeWorld))
          (source includeWorld))).2.

(** A page with an [:import] whose [src] is a space, and its directive *)
Definition noSrcWorld : World :=
  Eval vm_compute in
    (withHeap (alloc (tag "html" [] [emptyTag ":import" [("src", " ")]; tag "p" [] []]))
       (mkWorld [] emptySource)).2.

Definition noSrcDirective : Directive := mkDirective ":import" 0 2.

(** A page with a [:define] whose [tag] has a space in it, and its directive *)
Definition badTagWorld : World :=
  Eval vm_compute in
    (withHeap (alloc (tag "html" [] [tag ":define" [("tag", "a b")] [TText "x"]]))
       (mkWorld [] emptySource)).2.

Definition badTagDirective : Directive := mkDirective ":define" 1 2.

(** * Properties *)

(** ** Sanity checks of the library models *)

Example normalize_ex1 : Path.normalize "/var/www/./../www2/x.html" = "/var/www2/x.html".
Proof. reflexivity. Qed.
Example join_ex1 : Path.join ["/var/www"; "."; "../etc/passwd"] = "/var/etc/passwd".
Proof. reflexivity. Qed.
Example join_ex2 : Path.join ["/var/www"; "/"; "b.html"] = "/var/www/b.html".
Proof. reflexivity. Qed.
Example join_ex3 : Path.join ["/"; ""; "../../x"] = "/x".
Proof. reflexivity. Qed.
Example dirname_ex1 : Path.dirname "/a.html" = "/".
Proof. reflexivity. Qed.
Example dirname_ex2 : Path.dirname "/lib/b.html" = "/lib".
Proof. reflexivity. Qed.
Example dirname_ex3 : Path.dirname "a.html" = ".".
Proof. reflexivity. Qed.
Example relative_ex1 : Path.relative "/" "/var/www" "/var/etc/passwd" = "../etc/passwd".
Proof. reflexivity. Qed.
Example splice_ex1 : JS.splice 1 1 [7; 8] [1; 2; 3] = [1; 7; 8; 3].
Proof. reflexivity. Qed.
Example splice_ex2 : JS.splice (-1) 1 [9] [1; 2; 3] = [1; 2; 9].
Proof. reflexivity. Qed.
Example splice_ex3 : JS.splice (-1) 0 [9] [1; 2; 3] = [1; 2; 9; 3].
Proof. reflexivity. Qed.
Example ownKeys_ex1 :
  Obj.ownKeys (Obj.set (Obj.set (Obj.set (Obj.set [] "b" 1) "10" 2) "a" 3) "9" 4)
  = ["9"; "10"; "b"; "a"].
Proof. reflexivity. Qed.
Example execTag_ex1 : execTag "my-card" = Some ("my-card", None).
Proof. reflexivity. Qed.
Example execTag_ex2 : execTag "my-big:my-card" = Some ("my-big", Some "my-card").
Proof. reflexivity. Qed.
Example execTag_ex3 : execTag "my card" = None.
Proof. reflexivity. Qed.
Example execTag_ex4 : execTag "my-card:" = None.
Proof. reflexivity. Qed.

(** ** Relations kept by the methods *)

Section Preserve.
Variable R : World → World → Prop.
Hypothesis R_refl : ∀ w, R w w.
Hypothesis R_trans : ∀ a b c, R a b → R b c → R a c.

Lemma preserves_pure {A : Type} (a : A) : preserves R (pure a).
Proof. intros w. apply R_refl. Qed.

Lemma preserves_bind {A B : Type} (m : M A) (k : A → M B) :
  preserves R m → (∀ a, preserves R (k a)) → preserves R (bind m k).
Proof.
  intros Hm Hk w. unfold bind. specialize (Hm w).
  destruct (m w) as [a w']. simpl in Hm.
  eapply R_trans; [exact Hm | apply Hk].
Qed.

Lemma preserves_forEach {A : Type} (l : list A) (body : A → M unit) :
  (∀ x, preserves R (body x)) → preserves R (forEach l body).
Proof.
  intros Hb. induction l as [| x l IH]; simpl.
  - apply preserves_pure.
  - apply preserves_bind; auto.
Qed.

Lemma preserves_foldM {A S : Type} (f : S → A → M S) (l : list A) :
  (∀ s x, preserves R (f s x)) → ∀ s, preserves R (foldM f l s).
Proof.
  intros Hf. induction l as [| x l IH]; intros s; simpl.
  - apply preserves_pure.
  - apply preserves_bind; auto.
Qed.
End Preserve.

Lemma onlyErrors_refl w : onlyErrors w w.
Proof. repeat split. Qed.
Lemma onlyErrors_trans a b c : onlyErrors a b → onlyErrors b c → onlyErrors a c.
Proof. unfold onlyErrors. intros (? & ? & ?) (? & ? & ?). repeat split; congruence. Qed.

Lemma sameFiles_refl w : sameFiles w w.
Proof. reflexivity. Qed.
Lemma sameFiles_trans a b c : sameFiles a b → sameFiles b c → sameFiles a c.
Proof. unfold sameFiles. congruence. Qed.

Lemma onlyErrors_sameFiles {A : Type} (m : M A) :
  preserves onlyErrors m → preserves sameFiles m.
Proof. intros H w. apply (H w). Qed.

(** Walk through a method: binds and loops first, then the cases of its
    tests, with [tac] for the calls. *)
Ltac pres_with Hrefl Htrans tac :=
  repeat first
    [ solve [tac]
    | apply (preserves_pure _ Hrefl)
    | apply (preserves_bind _ Htrans)
    | apply (preserves_forEach _ Hrefl Htrans)
    | apply (preserves_foldM _ Hrefl Htrans)
    | progress cbv beta
    | match goal with |- ∀ _, _ => intro end
    | match goal with
      | |- preserves _ (match ?x with _ => _ end) => destruct x
      | |- preserves _ (if ?x then _ else _) => destruct x
      | |- preserves _ (let '(_, _) := ?x in _) => destruct x
      end ].

Lemma err_getHeap : preserves onlyErrors getHeap.
Proof. intros w. apply onlyErrors_refl. Qed.
Lemma err_getSource : preserves onlyErrors getSource.
Proof. intros w. apply onlyErrors_refl. Qed.
Lemma err_modifyHeap f : preserves onlyErrors (modifyHeap f).
Proof. intros w. repeat split. Qed.
Lemma err_withHeap {A : Type} (f : Heap → A * Heap) : preserves onlyErrors (withHeap f).
Proof. intros w. unfold withHeap. destruct (f (heap w)). repeat split. Qed.
Lemma err_pushError t m f : preserves onlyErrors (pushError t m f).
Proof. intros w. repeat split. Qed.
Lemma err_modifyChildren n f : preserves onlyErrors (modifyChildren n f).
Proof. intros w. repeat split. Qed.
Lemma err_modifyAttributes n f : preserves onlyErrors (modifyAttributes n f).
Proof. intros w. repeat split. Qed.

Create HintDb errs.
#[export] Hint Resolve err_getHeap err_getSource err_modifyHeap err_withHeap
  err_pushError err_modifyChildren err_modifyAttributes : errs.

Ltac errs := pres_with onlyErrors_refl onlyErrors_trans ltac:(auto with errs).

Lemma err_addDefaultSlot node : preserves onlyErrors (addDefaultSlot node).
Proof. unfold addDefaultSlot. errs. Qed.
#[export] Hint Resolve err_addDefaultSlot : errs.

Lemma err_collectSlot h ignore ret v : preserves onlyErrors (collectSlot h ignore ret v).
Proof. unfold collectSlot. errs. Qed.
#[export] Hint Resolve err_collectSlot : errs.

Lemma err_collectSlots order node ignore : preserves onlyErrors (collectSlots order node ignore).
Proof. unfold collectSlots. errs. Qed.
#[export] Hint Resolve err_collectSlots : errs.

Lemma err_routeChild slots node : preserves onlyErrors (routeChild slots node).
Proof. unfold routeChild. errs. Qed.
Lemma err_replaceSlot slots key : preserves onlyErrors (replaceSlot slots key).
Proof. unfold replaceSlot. errs. Qed.
Lemma err_dropOldSlot slots key : preserves onlyErrors (dropOldSlot slots key).
Proof. unfold dropOldSlot. errs. Qed.
#[export] Hint Resolve err_routeChild err_replaceSlot err_dropOldSlot : errs.

Lemma err_mergeAttributes src dst : preserves onlyErrors (mergeAttributes src dst).
Proof. unfold mergeAttributes. errs. Qed.
Lemma err_routeChildren slots src : preserves onlyErrors (routeChildren slots src).
Proof. unfold routeChildren. errs. Qed.
Lemma err_replaceSlots slots : preserves onlyErrors (replaceSlots slots).
Proof. unfold replaceSlots. errs. Qed.
#[export] Hint Resolve err_mergeAttributes err_routeChildren err_replaceSlots : errs.

Lemma err_populateMacro order src dst rs : preserves onlyErrors (populateMacro order src dst rs).
Proof. unfold populateMacro. errs. Qed.
#[export] Hint Resolve err_populateMacro : errs.

Lemma err_expandMacro order use macro rs nesting :
  preserves onlyErrors (expandMacro order use macro rs nesting).
Proof. unfold expandMacro. errs. Qed.
#[export] Hint Resolve err_expandMacro : errs.

Lemma err_includeAttribute p r existing key :
  preserves onlyErrors (includeAttribute p r existing key).
Proof. unfold includeAttribute. errs. Qed.
#[export] Hint Resolve err_includeAttribute : errs.

Lemma err_applyIncludedAttributes d r : preserves onlyErrors (applyIncludedAttributes d r).
Proof. unfold applyIncludedAttributes. errs. Qed.
Lemma err_replaceUse use res parent : preserves onlyErrors (replaceUse use res parent).
Proof. unfold replaceUse. errs. Qed.
Lemma err_expandUse order h nesting ee v : preserves onlyErrors (expandUse order h nesting ee v).
Proof. unfold expandUse. errs. Qed.
#[export] Hint Resolve err_applyIncludedAttributes err_replaceUse err_expandUse : errs.

Lemma replaceUsages_onlyErrors again ee :
  (∀ res w w', again res w = Some w' → onlyErrors w w') →
  ∀ w w', replaceUsages again ee w = Some w' → onlyErrors w w'.
Proof.
  intros Hagain. induction ee as [| [[use res] parent] ee IH]; intros w w' H.
  - simpl in H. simplify_eq. apply onlyErrors_refl.
  - cbn [replaceUsages] in H.
    pose proof (err_replaceUse use res parent w) as H2.
    destruct (replaceUse use res parent w) as [u w2]. simpl in H2.
    destruct (again res w2) as [w3 |] eqn:E3; [| discriminate].
    apply Hagain in E3. apply IH in H.
    eapply onlyErrors_trans; [exact H2 |].
    eapply onlyErrors_trans; [exact E3 | exact H].
Qed.

(** Macro expansion leaves the tree handle, the visited files and the
    registry of the session alone. *)
Lemma expandMacros_onlyErrors order fuel :
  ∀ root nesting w w', expandMacros order fuel root nesting w = Some w' → onlyErrors w w'.
Proof.
  induction fuel as [| fuel IH]; intros root nesting w w'; simpl; [discriminate |].
  destruct (foldM _ _ _ w) as [ee w1] eqn:E.
  assert (H1 : onlyErrors w w1).
  { pose proof (preserves_foldM _ onlyErrors_refl onlyErrors_trans
                  (expandUse order (heap w) nesting)
                  (match root with Some r => walk order (heap w) r | None => [] end)
                  (err_expandUse order (heap w) nesting) [] w) as H.
    rewrite E in H. exact H. }
  intros H. apply replaceUsages_onlyErrors in H.
  - eapply onlyErrors_trans; eauto.
  - intros res v v' Hv. eapply IH. exact Hv.
Qed.

(** ** The visited files *)

Lemma keep_setMacro k m : preserves sameFiles (setMacro k m).
Proof. intros w. reflexivity. Qed.

Ltac keep :=
  pres_with sameFiles_refl sameFiles_trans
    ltac:(first [ apply keep_setMacro | apply onlyErrors_sameFiles; auto with errs ]).

Lemma keep_collectMacro order d : preserves sameFiles (collectMacro order d).
Proof. unfold collectMacro. keep. Qed.

Section FilesInvariant.
Variables rootPath cwd : string.
Variable fs : string → FileResult.
Variable order : WalkOrder.
Variable I : list string → Prop.
Hypothesis I_push : ∀ l pname,
  I l → JS.startsWith pname rootPath = true →
  JS.substringFrom (String.length rootPath) pname ∉ l →
  I (l ++ [JS.substringFrom (String.length rootPath) pname]).

Lemma keepsInv_refl w : keepsInv I w w.
Proof. intros H. exact H. Qed.
Lemma keepsInv_trans a b c : keepsInv I a b → keepsInv I b c → keepsInv I a c.
Proof. unfold keepsInv. auto. Qed.

Lemma keepsInv_sameFiles {A : Type} (m : M A) :
  preserves sameFiles m → preserves (keepsInv I) m.
Proof. intros H w Hi. rewrite (H w). exact Hi. Qed.

Ltac keepinv_with tac :=
  pres_with keepsInv_refl keepsInv_trans
    ltac:(first [ assumption | tac
                | apply keepsInv_sameFiles; first [ apply keep_collectMacro | apply onlyErrors_sameFiles; auto with errs ] ]).
Ltac keepinv := keepinv_with fail.

Section Rec.
Variable parseRec : string → string → nat → bool → option NodeId → M (option Program).
Hypothesis parseRec_inv : ∀ f c n o fr, preserves (keepsInv I) (parseRec f c n o fr).

Lemma inv_processInclude d i currDir nesting :
  preserves (keepsInv I) (processInclude parseRec d i currDir nesting).
Proof. unfold processInclude. keepinv_with ltac:(apply parseRec_inv). Qed.

Lemma inv_processDirective currDir nesting d :
  preserves (keepsInv I) (processDirective order parseRec currDir nesting d).
Proof. unfold processDirective. keepinv_with ltac:(apply inv_processInclude). Qed.

Lemma inv_processDirectives program currDir nesting :
  preserves (keepsInv I) (processDirectives order parseRec program currDir nesting).
Proof. unfold processDirectives. keepinv_with ltac:(apply inv_processDirective). Qed.

Lemma inv_readAndParse pname relPath nesting from :
  preserves (keepsInv I) (readAndParse fs order parseRec pname relPath nesting from).
Proof. unfold readAndParse, addError. keepinv_with ltac:(apply inv_processDirectives). Qed.

Lemma inv_parseBody fname currDir nesting once from :
  preserves (keepsInv I)
    (parseBody rootPath cwd fs order parseRec fname currDir nesting once from).
Proof.
  unfold parseBody.
  set (pname := Path.normalize _).
  destruct (JS.startsWith pname rootPath) eqn:Hp; simpl.
  - intros w. unfold bind, getSource.
    destruct (JS.includes _ (files (source w))) eqn:Hin; simpl.
    + destruct once; [apply keepsInv_refl | apply inv_readAndParse].
    + eapply keepsInv_trans; [| apply inv_readAndParse].
      intros Hi. simpl. apply I_push; auto.
      unfold JS.includes in Hin. apply bool_decide_eq_false in Hin. exact Hin.
  - unfold addError. keepinv.
Qed.
End Rec.

Lemma inv_parseAt depth :
  ∀ fname currDir nesting once from,
    preserves (keepsInv I) (parseAt rootPath cwd fs order depth fname currDir nesting once from).
Proof.
  induction depth as [| depth IH]; intros; cbn [parseAt];
    destruct (Nat.leb MAX_NESTING nesting);
    try (unfold tooManyInclusions, addError; keepinv).
  apply inv_parseBody. exact IH.
Qed.

Lemma inv_parse fname currDir nesting once from :
  preserves (keepsInv I) (parse rootPath cwd fs order fname currDir nesting once from).
Proof. apply inv_parseAt. Qed.

Lemma inv_loadInclusions fname :
  I [] → I (files (source (loadInclusions rootPath cwd fs order fname))).
Proof.
  intros H0. unfold loadInclusions.
  pose proof (inv_parse fname "." 0 false None (mkWorld [] emptySource)) as H.
  destruct (parse _ _ _ _ _ _ _ _ _) as [p w]. simpl in *. apply H. exact H0.
Qed.
End FilesInvariant.

Lemma load_files rootPath cwd fs order fuel fname w :
  load rootPath cwd fs order fuel fname = Some w →
  files (source w) = files (source (loadInclusions rootPath cwd fs order fname)).
Proof. unfold load. intros H. apply expandMacros_onlyErrors in H. apply H. Qed.

Lemma loadInclusions_NoDup rootPath cwd fs order fname :
  NoDup (files (source (loadInclusions rootPath cwd fs order fname))).
Proof.
  apply (inv_loadInclusions rootPath cwd fs order (λ l, NoDup l)).
  - intros l pname Hl _ Hn. apply NoDup_app. split; [exact Hl |].
    split; [| apply NoDup_singleton].
    intros x Hx Hx'. apply list_elem_of_singleton in Hx'. subst. contradiction.
  - constructor.
Qed.

(** Every visited file was let through by the prefix test of [parse]. *)
Lemma loadInclusions_prefixed rootPath cwd fs order fname :
  Forall (λ relPath, ∃ pname, JS.startsWith pname rootPath = true
                              ∧ relPath = JS.substringFrom (String.length rootPath) pname)
    (files (source (loadInclusions rootPath cwd fs order fname))).
Proof.
  apply (inv_loadInclusions rootPath cwd fs order
           (Forall (λ relPath, ∃ pname, JS.startsWith pname rootPath = true
                      ∧ relPath = JS.substringFrom (String.length rootPath) pname))).
  - intros l pname Hl Hp _. apply Forall_app. split; [exact Hl |].
    apply Forall_singleton. eauto.
  - constructor.
Qed.

(** ** [parse] obeys the recursive equation of the source *)

Lemma bind_ext {A B : Type} (m : M A) (k1 k2 : A → M B) w :
  (∀ a w', k1 a w' = k2 a w') → bind m k1 w = bind m k2 w.
Proof. intros H. unfold bind. destruct (m w). apply H. Qed.

Lemma forEach_ext {A : Type} (l : list A) (b1 b2 : A → M unit) :
  (∀ x w, b1 x w = b2 x w) → ∀ w, forEach l b1 w = forEach l b2 w.
Proof.
  intros H. induction l as [| x l IH]; intros w; simpl; [reflexivity |].
  unfold bind. rewrite H. destruct (b2 x w). apply IH.
Qed.

Section ParseEquation.
Variables rootPath cwd : string.
Variable fs : string → FileResult.
Variable order : WalkOrder.

Section Ext.
Variables rec1 rec2 : string → string → nat → bool → option NodeId → M (option Program).
Variable nesting : nat.
Hypothesis rec_eq : ∀ f c o fr w, rec1 f c (nesting + 1) o fr w = rec2 f c (nesting + 1) o fr w.

Lemma processInclude_ext d i currDir w :
  processInclude rec1 d i currDir nesting w = processInclude rec2 d i currDir nesting w.
Proof.
  unfold processInclude. apply bind_ext. intros h w'.
  destruct (getJSXAttribute _ _); [| reflexivity].
  destruct (JS.blank _); [reflexivity |].
  unfold bind. rewrite rec_eq. reflexivity.
Qed.

Lemma processDirective_ext currDir d w :
  processDirective order rec1 currDir nesting d w = processDirective order rec2 currDir nesting d w.
Proof.
  unfold processDirective. apply bind_ext. intros h w'.
  destruct (decide _); [| reflexivity].
  apply bind_ext. intros _ w''. apply processInclude_ext.
Qed.

Lemma processDirectives_ext program currDir w :
  processDirectives order rec1 program currDir nesting w
  = processDirectives order rec2 program currDir nesting w.
Proof.
  unfold processDirectives. apply bind_ext. intros h w'.
  apply forEach_ext. intros d w''. apply processDirective_ext.
Qed.

Lemma readAndParse_ext pname relPath from w :
  readAndParse fs order rec1 pname relPath nesting from w
  = readAndParse fs order rec2 pname relPath nesting from w.
Proof.
  unfold readAndParse. destruct (fs pname); try reflexivity.
  apply bind_ext. intros program w'. apply bind_ext. intros h w''.
  destruct (rootIsElement h program); [| reflexivity].
  unfold bind. rewrite processDirectives_ext. reflexivity.
Qed.

Lemma parseBody_ext fname currDir once from w :
  parseBody rootPath cwd fs order rec1 fname currDir nesting once from w
  = parseBody rootPath cwd fs order rec2 fname currDir nesting once from w.
Proof.
  unfold parseBody. destruct (negb _); [reflexivity |].
  apply bind_ext. intros src w'.
  destruct (negb _).
  - apply bind_ext. intros _ w''. apply readAndParse_ext.
  - destruct once; [reflexivity | apply readAndParse_ext].
Qed.
End Ext.

Lemma parseAt_enough depth :
  ∀ nesting fname currDir once from w,
    (MAX_NESTING - nesting ≤ depth)%nat →
    parseAt rootPath cwd fs order depth fname currDir nesting once from w
    = parse rootPath cwd fs order fname currDir nesting once from w.
Proof.
  induction depth as [| depth IH]; intros nesting fname currDir once from w Hd.
  - unfold parse. replace (MAX_NESTING - nesting) with 0 by lia. reflexivity.
  - unfold parse. destruct (MAX_NESTING - nesting) as [| k] eqn:Hk.
    + cbn [parseAt]. destruct (Nat.leb MAX_NESTING nesting) eqn:Hg; [reflexivity |].
      apply Nat.leb_gt in Hg. lia.
    + cbn [parseAt]. destruct (Nat.leb MAX_NESTING nesting); [reflexivity |].
      apply parseBody_ext. intros f c o fr w'.
      rewrite (IH (nesting + 1)) by lia.
      unfold parse. replace (MAX_NESTING - (nesting + 1)) with k by lia. reflexivity.
Qed.

(** Below the bound, [parse] is its body with [parse] itself as the
    recursive call. *)
Lemma parse_unfold fname currDir nesting once from w :
  (nesting < MAX_NESTING)%nat →
  parse rootPath cwd fs order fname currDir nesting once from w
  = parseBody rootPath cwd fs order (parse rootPath cwd fs order) fname currDir nesting once from w.
Proof.
  intros Hn. unfold parse at 1.
  destruct (MAX_NESTING - nesting) as [| k] eqn:Hk; [lia |].
  cbn [parseAt]. destruct (Nat.leb MAX_NESTING nesting) eqn:Hg.
  { apply Nat.leb_le in Hg. lia. }
  apply parseBody_ext. intros f c o fr w'.
  apply parseAt_enough. lia.
Qed.

Lemma parse_too_deep fname currDir nesting once from w :
  (MAX_NESTING ≤ nesting)%nat →
  parse rootPath cwd fs order fname currDir nesting once from w
  = (None,
     mkWorld (heap w)
       (mkSource (ast (source w)) (files (source w))
          (errors (source w) ++ [mkCodeError error "too many nested inclusions" from])
          (macros (source w)))).
Proof.
  intros Hn. unfold parse.
  replace (MAX_NESTING - nesting) with 0 by lia.
  cbn [parseAt]. apply Nat.leb_le in Hn. rewrite Hn. reflexivity.
Qed.

Lemma parse_forbidden fname currDir nesting once from w :
  (nesting < MAX_NESTING)%nat →
  JS.startsWith (resolved rootPath fname currDir) rootPath = false →
  parse rootPath cwd fs order fname currDir nesting once from w
  = (None,
     mkWorld (heap w)
       (mkSource (ast (source w)) (files (source w))
          (errors (source w)
           ++ [mkCodeError error
                 ("forbidden pathname "
                  +:+ quoted (Path.relative cwd rootPath (resolved rootPath fname currDir)))
                 from])
          (macros (source w)))).
Proof.
  intros Hn Hp. rewrite parse_unfold by exact Hn.
  unfold parseBody. fold (resolved rootPath fname currDir). rewrite Hp. reflexivity.
Qed.

Lemma parse_import_visited fname currDir nesting from w :
  (nesting < MAX_NESTING)%nat →
  JS.startsWith (resolved rootPath fname currDir) rootPath = true →
  JS.substringFrom (String.length rootPath) (resolved rootPath fname currDir) ∈ files (source w) →
  parse rootPath cwd fs order fname currDir nesting true from w = (None, w).
Proof.
  intros Hn Hp Hin. rewrite parse_unfold by exact Hn.
  unfold parseBody. fold (resolved rootPath fname currDir). rewrite Hp. simpl.
  unfold bind, getSource, JS.includes.
  rewrite bool_decide_eq_true_2 by exact Hin. reflexivity.
Qed.

Lemma parse_include_visited fname currDir nesting from w :
  (nesting < MAX_NESTING)%nat →
  JS.startsWith (resolved rootPath fname currDir) rootPath = true →
  JS.substringFrom (String.length rootPath) (resolved rootPath fname currDir) ∈ files (source w) →
  parse rootPath cwd fs order fname currDir nesting false from w
  = readAndParse fs order (parse rootPath cwd fs order) (resolved rootPath fname currDir)
      (JS.substringFrom (String.length rootPath) (resolved rootPath fname currDir)) nesting from w.
Proof.
  intros Hn Hp Hin. rewrite parse_unfold by exact Hn.
  unfold parseBody. fold (resolved rootPath fname currDir). rewrite Hp. simpl.
  unfold bind, getSource, JS.includes.
  rewrite bool_decide_eq_true_2 by exact Hin. reflexivity.
Qed.

Lemma parse_first_visit fname currDir nesting once from w :
  (nesting < MAX_NESTING)%nat →
  JS.startsWith (resolved rootPath fname currDir) rootPath = true →
  JS.substringFrom (String.length rootPath) (resolved rootPath fname currDir) ∉ files (source w) →
  parse rootPath cwd fs order fname currDir nesting once from w
  = readAndParse fs order (parse rootPath cwd fs order) (resolved rootPath fname currDir)
      (JS.substringFrom (String.length rootPath) (resolved rootPath fname currDir)) nesting from
      (pushFile (JS.substringFrom (String.length rootPath) (resolved rootPath fname currDir)) w).2.
Proof.
  intros Hn Hp Hin. rewrite parse_unfold by exact Hn.
  unfold parseBody. fold (resolved rootPath fname currDir). rewrite Hp. simpl.
  unfold bind, getSource, JS.includes.
  rewrite bool_decide_eq_false_2 by exact Hin. reflexivity.
Qed.
End ParseEquation.

(** ** Arrays *)

Section ArrayFacts.
Context {A : Type} `{EqDecision A}.
Implicit Types (x y : A) (l : list A).

Lemma indexOf_from_app x l1 l2 i :
  x ∉ l1 → JS.indexOf_from x (l1 ++ x :: l2) i = (i + Z.of_nat (length l1))%Z.
Proof.
  revert i. induction l1 as [| y l1 IH]; intros i Hn; simpl.
  - rewrite decide_True by reflexivity. lia.
  - apply not_elem_of_cons in Hn as [Hxy Hn].
    rewrite decide_False by exact Hxy. rewrite IH by exact Hn. lia.
Qed.

Lemma indexOf_app x l1 l2 :
  x ∉ l1 → JS.indexOf x (l1 ++ x :: l2) = Z.of_nat (length l1).
Proof. intros Hn. unfold JS.indexOf. rewrite indexOf_from_app by exact Hn. lia. Qed.

Lemma indexOf_from_absent x l i : x ∉ l → JS.indexOf_from x l i = (-1)%Z.
Proof.
  revert i. induction l as [| y l IH]; intros i Hn; simpl; [reflexivity |].
  apply not_elem_of_cons in Hn as [Hxy Hn].
  rewrite decide_False by exact Hxy. apply IH. exact Hn.
Qed.

Lemma splice_at_length k items l1 l2 :
  JS.splice (Z.of_nat (length l1)) k items (l1 ++ l2) = l1 ++ items ++ drop k l2.
Proof.
  unfold JS.splice, JS.spliceStart.
  destruct (Z.ltb_spec (Z.of_nat (length l1)) 0) as [Hlt | _]; [lia |].
  rewrite length_app.
  replace (Z.to_nat (Z.min _ _)) with (length l1) by lia.
  rewrite take_app_length. rewrite drop_app_add'; [reflexivity | reflexivity].
Qed.

Lemma removeAt_first x l1 l2 :
  x ∉ l1 → JS.removeAt (JS.indexOf x (l1 ++ x :: l2)) (l1 ++ x :: l2) = l1 ++ l2.
Proof.
  intros Hn. rewrite indexOf_app by exact Hn. unfold JS.removeAt.
  destruct (Z.leb_spec 0 (Z.of_nat (length l1))) as [_ | Hlt]; [| lia].
  rewrite splice_at_length. reflexivity.
Qed.

Lemma insert_before_first x c l1 l2 :
  x ∉ l1 →
  JS.splice (JS.indexOf x (l1 ++ x :: l2)) 0 [c] (l1 ++ x :: l2) = l1 ++ c :: x :: l2.
Proof. intros Hn. rewrite indexOf_app by exact Hn. rewrite splice_at_length. reflexivity. Qed.

Lemma replace_first x items l1 l2 :
  x ∉ l1 →
  JS.splice (JS.indexOf x (l1 ++ x :: l2)) 1 items (l1 ++ x :: l2) = l1 ++ items ++ l2.
Proof. intros Hn. rewrite indexOf_app by exact Hn. rewrite splice_at_length. reflexivity. Qed.

Lemma replace_by_itself x l :
  x ∈ l → JS.splice (JS.indexOf x l) 1 [x] l = l.
Proof.
  intros Hin. apply list_elem_of_split_l in Hin as (l1 & l2 & -> & Hn).
  rewrite replace_first by exact Hn. reflexivity.
Qed.
End ArrayFacts.

(** ** The store *)

Lemma element_update f n h m :
  element (updateElement f n h) m
  = if decide (m = n) then f <$> element h n else element h m.
Proof.
  unfold element, updateElement. destruct (decide (m = n)) as [-> | Hne].
  - rewrite list_lookup_alter_eq. destruct (_ !! _) as [[e | v | p] |]; reflexivity.
  - rewrite list_lookup_alter_ne by congruence. reflexivity.
Qed.

Lemma childrenOf_setChildren g n h m :
  childrenOf (updateElement (λ e, setChildren (g (children e)) e) n h) m
  = if decide (m = n)
    then (if isElement h n then g (childrenOf h n) else [])
    else childrenOf h m.
Proof.
  unfold childrenOf, isElement. rewrite element_update.
  destruct (decide (m = n)); [| reflexivity].
  destruct (element h n); reflexivity.
Qed.

Lemma attributesOf_setChildren g n h m :
  attributesOf (updateElement (λ e, setChildren (g (children e)) e) n h) m
  = attributesOf h m.
Proof.
  unfold attributesOf. rewrite element_update.
  destruct (decide (m = n)) as [-> |]; [| reflexivity].
  destruct (element h n); reflexivity.
Qed.

Lemma attributesOf_setAttributes g n h m :
  attributesOf (updateElement (λ e, setAttributes (g (attributes e)) e) n h) m
  = if decide (m = n)
    then (if isElement h n then g (attributesOf h n) else [])
    else attributesOf h m.
Proof.
  unfold attributesOf, isElement. rewrite element_update.
  destruct (decide (m = n)); [| reflexivity].
  destruct (element h n); reflexivity.
Qed.

Lemma isElement_update f n h m :
  isElement (updateElement f n h) m = isElement h m.
Proof.
  unfold isElement. rewrite element_update.
  destruct (decide (m = n)) as [-> |]; [| reflexivity].
  destruct (element h n); reflexivity.
Qed.

Lemma updateElement_id f n h :
  (∀ e, element h n = Some e → f e = e) → updateElement f n h = h.
Proof.
  intros Hf. unfold updateElement. apply list_eq. intros j.
  destruct (decide (j = n)) as [-> | Hne].
  - rewrite list_lookup_alter_eq. unfold element in Hf.
    destruct (_ !! _) as [[e | v | p] |]; simpl; try reflexivity.
    rewrite Hf by reflexivity. reflexivity.
  - rewrite list_lookup_alter_ne by congruence. reflexivity.
Qed.

Lemma isElement_of_child h p x : x ∈ childrenOf h p → isElement h p = true.
Proof.
  unfold childrenOf, isElement. destruct (element h p); [reflexivity |].
  intros H. apply not_elem_of_nil in H. contradiction.
Qed.

Lemma slotNameOf_setChildren g n h c :
  slotNameOf (updateElement (λ e, setChildren (g (children e)) e) n h) c = slotNameOf h c.
Proof.
  unfold slotNameOf. rewrite element_update.
  destruct (decide (c = n)) as [-> |]; [| reflexivity].
  destruct (element h n); reflexivity.
Qed.

(** ** Macro expansion beyond the depth bound *)

Lemma expandMacro_too_deep order use macro removeSlots nesting w :
  (MAX_NESTING < nesting)%nat →
  expandMacro order use macro removeSlots nesting w
  = (use,
     mkWorld (heap w)
       (mkSource (ast (source w)) (files (source w))
          (errors (source w)
           ++ [mkCodeError error ("too many nested macros " +:+ quoted (mname macro))
                 (Some use)])
          (macros (source w)))).
Proof.
  intros Hn. unfold expandMacro.
  apply Nat.ltb_lt in Hn. rewrite Hn. reflexivity.
Qed.

Lemma replaceUse_itself use parent w :
  use ∈ childrenOf (heap w) parent → replaceUse use use parent w = (tt, w).
Proof.
  intros Hin. unfold replaceUse, bind, getHeap, modifyChildren, modifyHeap.
  destruct w as [h s]. simpl in *. f_equal. f_equal.
  apply updateElement_id. intros e He.
  unfold childrenOf in Hin |- *. rewrite He in Hin |- *.
  rewrite replace_by_itself by exact Hin. destruct e. reflexivity.
Qed.

Lemma forEach_cons_snd {A : Type} (x : A) (l : list A) (body : A → M unit) w :
  (forEach (x :: l) body w).2 = (forEach l body (body x w).2).2.
Proof. simpl. unfold bind. destruct (body x w). reflexivity. Qed.

(** ** Attributes *)

Lemma getJSXAttributeNode_name attrs key a :
  getJSXAttributeNode attrs key = Some a → ∃ v, a = JSXAttribute key v.
Proof.
  induction attrs as [| [k v | p] attrs IH]; simpl; intros H; [discriminate | | auto].
  destruct (decide (k = key)) as [-> |]; [| auto].
  simplify_eq. eauto.
Qed.

Lemma getJSXAttributeNode_keys attrs key :
  key ∈ getJSXAttributeKeys attrs ↔ is_Some (getJSXAttributeNode attrs key).
Proof.
  induction attrs as [| [k v | p] attrs IH]; simpl.
  - split; [intros H; apply not_elem_of_nil in H; contradiction | intros [x Hx]; discriminate].
  - rewrite elem_of_cons. destruct (decide (k = key)) as [-> | Hne].
    + split; [eauto | auto].
    + rewrite <- IH. split; [intros [-> | H]; [contradiction | exact H] | auto].
  - exact IH.
Qed.

Lemma getJSXAttributeNode_app a b key :
  getJSXAttributeNode (a ++ b) key
  = match getJSXAttributeNode a key with
    | Some x => Some x
    | None => getJSXAttributeNode b key
    end.
Proof.
  induction a as [| [k v | p] a IH]; simpl; [reflexivity | | exact IH].
  destruct (decide (k = key)); [reflexivity | exact IH].
Qed.

Lemma getJSXAttributeNode_included existing rattrs key :
  getJSXAttributeNode (includedAttributes existing rattrs) key
  = if JS.includes key existing then None else getJSXAttributeNode rattrs key.
Proof.
  unfold includedAttributes.
  assert (Hgen : ∀ ks,
    getJSXAttributeNode
      (flat_map (λ k, if JS.includes k existing then []
                      else option_list (getJSXAttributeNode rattrs k)) ks) key
    = if JS.includes key existing then None
      else if bool_decide (key ∈ ks) then getJSXAttributeNode rattrs key else None).
  { induction ks as [| k ks IH]; simpl.
    - destruct (JS.includes key existing); reflexivity.
    - rewrite getJSXAttributeNode_app, IH.
      destruct (JS.includes k existing) eqn:Hk; simpl.
      + destruct (JS.includes key existing) eqn:Hkey; [reflexivity |].
        destruct (decide (key = k)) as [-> | Hne]; [congruence |].
        rewrite (bool_decide_ext (key ∈ k :: ks) (key ∈ ks)); [reflexivity |].
        rewrite elem_of_cons. split; [intros [Heq | Hin']; [congruence | exact Hin'] | auto].
      + destruct (getJSXAttributeNode rattrs k) as [a |] eqn:Ha; simpl.
        * destruct (getJSXAttributeNode_name _ _ _ Ha) as [v ->]. simpl.
          destruct (decide (k = key)) as [-> | Hne].
          -- rewrite Hk. rewrite bool_decide_eq_true_2 by apply list_elem_of_here.
             exact (eq_sym Ha).
          -- rewrite (bool_decide_ext (key ∈ k :: ks) (key ∈ ks)); [reflexivity |].
             rewrite elem_of_cons. split; [intros [Heq | Hin']; [congruence | exact Hin'] | auto].
        * destruct (JS.includes key existing) eqn:Hkey; [reflexivity |].
          destruct (decide (key = k)) as [-> | Hne].
          -- rewrite Ha. repeat case_bool_decide; reflexivity.
          -- rewrite (bool_decide_ext (key ∈ k :: ks) (key ∈ ks)); [reflexivity |].
             rewrite elem_of_cons. split; [intros [Heq | Hin']; [congruence | exact Hin'] | auto]. }
  rewrite Hgen. destruct (JS.includes key existing); [reflexivity |].
  destruct (bool_decide (key ∈ getJSXAttributeKeys rattrs)) eqn:Hin; [reflexivity |].
  apply bool_decide_eq_false in Hin. rewrite getJSXAttributeNode_keys in Hin.
  destruct (getJSXAttributeNode rattrs key); [exfalso; apply Hin; eauto | reflexivity].
Qed.

Section IncludedAttributes.
Variables p r : NodeId.
Variable existing : list string.

Lemma applyIncludedAttributes_loop ks :
  ∀ w,
    isElement (heap w) p = true →
    (r ≠ p ∨ ∀ k, k ∈ ks → JS.includes k existing = true) →
    let w' := (forEach ks (includeAttribute p r existing) w).2 in
    source w' = source w
    ∧ (∀ m, childrenOf (heap w') m = childrenOf (heap w) m)
    ∧ (∀ m, m ≠ p → attributesOf (heap w') m = attributesOf (heap w) m)
    ∧ attributesOf (heap w') p
      = attributesOf (heap w) p
        ++ flat_map (λ key, if JS.includes key existing then []
                            else option_list (getJSXAttributeNode (attributesOf (heap w) r) key))
             ks.
Proof.
  induction ks as [| k ks IH]; intros w Hp Hr; cbv zeta.
  - simpl. rewrite app_nil_r. auto.
  - rewrite forEach_cons_snd. cbn [flat_map].
    destruct (JS.includes k existing) eqn:Hk.
    + assert (Hb : (includeAttribute p r existing k w).2 = w) by (unfold includeAttribute; rewrite Hk; reflexivity).
      rewrite Hb. apply IH; [exact Hp |].
      destruct Hr as [Hr | Hr]; [left; exact Hr | right].
      intros k' Hk'. apply Hr. apply list_elem_of_further. exact Hk'.
    + assert (Hrp : r ≠ p).
      { destruct Hr as [Hr | Hr]; [exact Hr |].
        rewrite Hr in Hk by apply list_elem_of_here. discriminate. }
      destruct (getJSXAttributeNode (attributesOf (heap w) r) k) as [attr |] eqn:Ha.
      * assert (Hb : (includeAttribute p r existing k w).2
                     = mkWorld (updateElement
                                  (λ e, setAttributes (attributes e ++ [attr]) e) p (heap w))
                         (source w)).
        { unfold includeAttribute, bind, getHeap. rewrite Hk, Ha. reflexivity. }
        rewrite Hb. clear Hb.
        match goal with |- context [forEach ks (includeAttribute p r existing) ?w1] => set (w1' := w1) end.
        assert (Hp1 : isElement (heap w1') p = true).
        { subst w1'. simpl. rewrite isElement_update. exact Hp. }
        destruct (IH w1' Hp1 (or_introl Hrp)) as (Hs & Hc & Ho & Ha').
        assert (Hr1 : attributesOf (heap w1') r = attributesOf (heap w) r).
        { subst w1'. simpl. rewrite (attributesOf_setAttributes (λ a, a ++ [attr])).
          rewrite decide_False by exact Hrp. reflexivity. }
        split; [rewrite Hs; reflexivity |].
        split.
        { intros m. rewrite Hc. subst w1'. simpl.
          unfold childrenOf. rewrite element_update.
          destruct (decide (m = p)) as [-> |]; [| reflexivity].
          destruct (element (heap w) p); reflexivity. }
        split.
        { intros m Hm. rewrite Ho by exact Hm. subst w1'. simpl.
          rewrite (attributesOf_setAttributes (λ a, a ++ [attr])). rewrite decide_False by exact Hm.
          reflexivity. }
        rewrite Ha'. rewrite Hr1. subst w1'. simpl.
        rewrite (attributesOf_setAttributes (λ a, a ++ [attr])). rewrite decide_True by reflexivity.
        rewrite Hp. rewrite <- app_assoc. reflexivity.
      * assert (Hb : (includeAttribute p r existing k w).2 = w).
        { unfold includeAttribute, bind, getHeap. rewrite Hk, Ha. reflexivity. }
        rewrite Hb. simpl. apply IH; [exact Hp | left; exact Hrp].
Qed.
End IncludedAttributes.

Lemma applyIncludedAttributes_spec d r w :
  isElement (heap w) (dparent d) = true →
  let w' := (applyIncludedAttributes d r w).2 in
  source w' = source w
  ∧ (∀ m, childrenOf (heap w') m = childrenOf (heap w) m)
  ∧ (∀ m, m ≠ dparent d → attributesOf (heap w') m = attributesOf (heap w) m)
  ∧ attributesOf (heap w') (dparent d)
    = attributesOf (heap w) (dparent d)
      ++ includedAttributes (getJSXAttributeKeys (attributesOf (heap w) (dparent d)))
           (attributesOf (heap w) r).
Proof.
  intros Hp. unfold applyIncludedAttributes, bind at 1, getHeap at 1. cbv zeta.
  apply applyIncludedAttributes_loop; [exact Hp |].
  destruct (decide (r = dparent d)) as [-> | Hne]; [right | left; exact Hne].
  intros k Hk. unfold JS.includes. apply bool_decide_eq_true_2. exact Hk.
Qed.

(** ** Slot routing *)

Lemma flat_map_ext_elem {A B : Type} (f g : A → list B) (l : list A) :
  (∀ x, x ∈ l → f x = g x) → flat_map f l = flat_map g l.
Proof.
  induction l as [| x l IH]; intros H; simpl; [reflexivity |].
  rewrite H by apply list_elem_of_here.
  rewrite IH; [reflexivity |].
  intros y Hy. apply H. apply list_elem_of_further. exact Hy.
Qed.

Lemma filter_eq_absent (x : NodeId) (l : list NodeId) :
  x ∉ l → filter (λ y, y = x) l = [].
Proof.
  induction l as [| y l IH]; intros Hn; [reflexivity |].
  apply not_elem_of_cons in Hn as [Hxy Hn].
  rewrite filter_cons. rewrite decide_False by congruence. apply IH. exact Hn.
Qed.

Lemma occurs_once_split (x : NodeId) (l : list NodeId) :
  filter (λ y, y = x) l = [x] →
  ∃ l1 l2, l = l1 ++ (x :: l2) ∧ x ∉ l1 ∧ x ∉ l2.
Proof.
  intros Hf.
  assert (Hin : x ∈ l).
  { assert (Hx : x ∈ filter (λ y, y = x) l) by (rewrite Hf; apply list_elem_of_here).
    apply list_elem_of_filter in Hx as [_ Hx]. exact Hx. }
  apply list_elem_of_split_l in Hin as (l1 & l2 & -> & Hn).
  exists l1, l2. split; [reflexivity |]. split; [exact Hn |].
  rewrite filter_app, filter_cons in Hf. rewrite decide_True in Hf by reflexivity.
  rewrite (filter_eq_absent x l1 Hn) in Hf. simpl in Hf.
  assert (Hnil : filter (λ y, y = x) l2 = []) by congruence.
  exact (filter_nil_not_elem_of _ l2 x Hnil eq_refl).
Qed.

Lemma occurs_once_NoDup (x : NodeId) (l : list NodeId) :
  x ∈ l → NoDup l → filter (λ y, y = x) l = [x].
Proof.
  intros Hin Hnd. apply list_elem_of_split_l in Hin as (l1 & l2 & -> & Hn).
  apply NoDup_app in Hnd as (_ & _ & Hnd). apply NoDup_cons in Hnd as [Hn2 _].
  rewrite filter_app, filter_cons. rewrite decide_True by reflexivity.
  rewrite (filter_eq_absent x l1 Hn), (filter_eq_absent x l2 Hn2). reflexivity.
Qed.

Section Routing.
Variable slots : SlotMap.

Lemma routedTo_cons h c cs s p :
  routedTo slots h (c :: cs) s p
  = if decide (targetSlot slots h c = Some (mkSlot s p))
    then c :: routedTo slots h cs s p
    else routedTo slots h cs s p.
Proof. unfold routedTo. rewrite filter_cons. reflexivity. Qed.

Lemma routedTo_ext h1 h2 cs s p :
  (∀ n, slotNameOf h1 n = slotNameOf h2 n) →
  routedTo slots h1 cs s p = routedTo slots h2 cs s p.
Proof.
  intros H. induction cs as [| c cs IH]; [reflexivity |].
  rewrite !routedTo_cons. unfold targetSlot. rewrite H, IH. reflexivity.
Qed.

Lemma routedTo_not_slot h cs x p :
  (∀ k slot, Obj.get slots k = Some slot → x ≠ snode slot) →
  routedTo slots h cs x p = [].
Proof.
  intros Hx. induction cs as [| c cs IH]; [reflexivity |].
  rewrite routedTo_cons. rewrite decide_False; [exact IH |].
  unfold targetSlot. intros Ht. apply Hx in Ht. simpl in Ht. congruence.
Qed.

Lemma routeChild_miss c w :
  targetSlot slots (heap w) c = None → routeChild slots c w = (tt, w).
Proof.
  intros Ht. unfold routeChild, bind, getHeap. fold (targetSlot slots (heap w) c).
  rewrite Ht. reflexivity.
Qed.

Lemma routeChild_hit c w s p :
  targetSlot slots (heap w) c = Some (mkSlot s p) →
  routeChild slots c w
  = (tt,
     mkWorld
       (updateElement
          (λ e, setChildren
                  (JS.splice (JS.indexOf s (childrenOf (heap w) p)) 0 [c] (children e)) e)
          p (heap w))
       (source w)).
Proof.
  intros Ht. unfold routeChild, bind, getHeap. fold (targetSlot slots (heap w) c).
  rewrite Ht. reflexivity.
Qed.

(** The child loop of [populateMacro], as one statement on child lists *)
Lemma routeChildren_once cs :
  ∀ w,
    (∀ k slot, Obj.get slots k = Some slot →
       filter (λ y, y = snode slot) (childrenOf (heap w) (sparent slot)) = [snode slot]) →
    (∀ c k slot, c ∈ cs → Obj.get slots k = Some slot → c ≠ snode slot) →
    let w' := (forEach cs (routeChild slots) w).2 in
    source w' = source w
    ∧ (∀ n, attributesOf (heap w') n = attributesOf (heap w) n)
    ∧ (∀ n, slotNameOf (heap w') n = slotNameOf (heap w) n)
    ∧ ∀ p, childrenOf (heap w') p
           = routedChildren slots (heap w) cs p (childrenOf (heap w) p).
Proof.
  induction cs as [| c cs IH]; intros w Honce Hfresh; cbv zeta.
  - simpl. repeat split; try reflexivity.
    intros p. unfold routedChildren, routedTo. simpl.
    induction (childrenOf (heap w) p) as [| x l IHl]; simpl; congruence.
  - rewrite forEach_cons_snd.
    assert (Hfresh' : ∀ c' k slot, c' ∈ cs → Obj.get slots k = Some slot → c' ≠ snode slot).
    { intros c' k slot Hc'. apply Hfresh. apply list_elem_of_further. exact Hc'. }
    destruct (targetSlot slots (heap w) c) as [[s p0] |] eqn:Ht.
    + rewrite (routeChild_hit c w s p0 Ht). cbn [snd].
      pose proof (Honce _ _ Ht) as Hs. cbn [snode sparent] in Hs.
      destruct (occurs_once_split _ _ Hs) as (l1 & l2 & Hl & Hn1 & Hn2).
      set (g := JS.splice (JS.indexOf s (childrenOf (heap w) p0)) 0 [c]).
      set (h1 := updateElement (λ e, setChildren (g (children e)) e) p0 (heap w)).
      assert (Hel : isElement (heap w) p0 = true).
      { apply (isElement_of_child _ _ s). rewrite Hl. apply elem_of_app. right. apply list_elem_of_here. }
      assert (Hch : ∀ q, childrenOf h1 q
                         = if decide (q = p0) then l1 ++ c :: s :: l2
                           else childrenOf (heap w) q).
      { intros q. subst h1. rewrite (childrenOf_setChildren g).
        destruct (decide (q = p0)); [| reflexivity].
        rewrite Hel. subst g. rewrite Hl. apply insert_before_first. exact Hn1. }
      assert (Hnm : ∀ n, slotNameOf h1 n = slotNameOf (heap w) n).
      { intros n. subst h1. apply (slotNameOf_setChildren g). }
      assert (Hc_fresh : ∀ k slot, Obj.get slots k = Some slot → c ≠ snode slot).
      { intros k slot. apply Hfresh. apply list_elem_of_here. }
      assert (Honce1 : ∀ k slot, Obj.get slots k = Some slot →
                filter (λ y, y = snode slot) (childrenOf h1 (sparent slot)) = [snode slot]).
      { intros k slot Hk. rewrite Hch. destruct (decide (sparent slot = p0)) as [Hp | Hp].
        - pose proof (Honce _ _ Hk) as Hk1. rewrite Hp, Hl in Hk1.
          rewrite filter_app in Hk1 |- *. rewrite filter_cons.
          rewrite decide_False; [exact Hk1 |].
          apply (Hc_fresh k slot Hk).
        - apply (Honce _ _ Hk). }
      destruct (IH (mkWorld h1 (source w)) Honce1 Hfresh') as (Hs' & Ha' & Hn' & Hc').
      cbn [heap source] in *.
      split; [exact Hs' |].
      split.
      { intros n. rewrite Ha'. subst h1. apply (attributesOf_setChildren g). }
      split.
      { intros n. rewrite Hn'. apply Hnm. }
      intros q. rewrite Hc'. rewrite Hch. unfold routedChildren.
      destruct (decide (q = p0)) as [-> | Hq].
      * rewrite Hl. rewrite !flat_map_app. cbn [flat_map].
        rewrite (routedTo_not_slot h1 cs c p0 Hc_fresh).
        rewrite (routedTo_cons (heap w) c cs s p0).
        rewrite decide_True by exact Ht.
        rewrite (routedTo_ext h1 (heap w) cs s p0 Hnm).
        rewrite (flat_map_ext_elem
                   (λ x, routedTo slots h1 cs x p0 ++ [x])
                   (λ x, routedTo slots (heap w) (c :: cs) x p0 ++ [x]) l1).
        2:{ intros x Hx. rewrite routedTo_cons. rewrite decide_False.
            - rewrite (routedTo_ext h1 (heap w)) by exact Hnm. reflexivity.
            - rewrite Ht. intros Heq. injection Heq as Heq. subst x. contradiction. }
        rewrite (flat_map_ext_elem
                   (λ x, routedTo slots h1 cs x p0 ++ [x])
                   (λ x, routedTo slots (heap w) (c :: cs) x p0 ++ [x]) l2).
        2:{ intros x Hx. rewrite routedTo_cons. rewrite decide_False.
            - rewrite (routedTo_ext h1 (heap w)) by exact Hnm. reflexivity.
            - rewrite Ht. intros Heq. injection Heq as Heq. subst x. contradiction. }
        simpl. rewrite <- !app_assoc. reflexivity.
      * apply flat_map_ext_elem. intros x Hx.
        rewrite routedTo_cons. rewrite decide_False.
        -- rewrite (routedTo_ext h1 (heap w)) by exact Hnm. reflexivity.
        -- rewrite Ht. intros Heq. injection Heq as _ Heq. congruence.
    + rewrite (routeChild_miss c w Ht). cbn [snd].
      destruct (IH w Honce Hfresh') as (Hs' & Ha' & Hn' & Hc').
      repeat split; try assumption.
      intros q. rewrite Hc'. unfold routedChildren.
      apply flat_map_ext_elem. intros x Hx.
      rewrite routedTo_cons. rewrite decide_False; [reflexivity |].
      rewrite Ht. discriminate.
Qed.
End Routing.

(** ** The walker *)

Lemma elem_of_flat_map {A B : Type} (f : A → list B) (l : list A) (y : B) :
  y ∈ flat_map f l ↔ ∃ x, x ∈ l ∧ y ∈ f x.
Proof.
  rewrite list_elem_of_In, in_flat_map. split.
  - intros (x & Hx & Hy). exists x. rewrite !list_elem_of_In. auto.
  - intros (x & Hx & Hy). exists x. rewrite <- !list_elem_of_In. auto.
Qed.

Lemma walkElement_child order depth h :
  ∀ parent n x p,
    (x, Some p) ∈ walkElement order depth h parent n →
    (parent = Some p ∧ x = n) ∨ x ∈ childrenOf h p.
Proof.
  induction depth as [| depth IH]; intros parent n x p Hin; simpl in Hin.
  - apply not_elem_of_nil in Hin. contradiction.
  - destruct (element h n) as [e |] eqn:He.
    2:{ apply not_elem_of_nil in Hin. contradiction. }
    assert (Hcases : (x, Some p) = (n, parent)
                     ∨ (x, Some p) ∈ flat_map (walkElement order depth h (Some n)) (children e)).
    { destruct order.
      - apply elem_of_cons in Hin. exact Hin.
      - apply elem_of_app in Hin as [Hin | Hin]; [right; exact Hin |].
        apply list_elem_of_singleton in Hin. left. exact Hin. }
    destruct Hcases as [Heq | Hbelow].
    + left. simplify_eq. auto.
    + right. apply elem_of_flat_map in Hbelow as (c & Hc & Hbelow).
      apply IH in Hbelow as [[Hp ->] | Hbelow]; [| exact Hbelow].
      simplify_eq. unfold childrenOf. rewrite He. exact Hc.
Qed.

Lemma walk_child order h root x p :
  (x, Some p) ∈ walk order h root → x ∈ childrenOf h p.
Proof.
  destruct root as [prog | n]; simpl; intros Hin.
  - apply elem_of_flat_map in Hin as (st & _ & Hin).
    destruct st as [m |]; [| apply not_elem_of_nil in Hin; contradiction].
    apply walkElement_child in Hin as [[? _] | Hin]; [discriminate | exact Hin].
  - apply walkElement_child in Hin as [[? _] | Hin]; [discriminate | exact Hin].
Qed.

(** ** Macro expansion beyond the depth bound leaves the tree alone *)

Lemma expandUse_overflow order h nesting ee v w :
  (MAX_NESTING < nesting)%nat →
  heap (expandUse order h nesting ee v w).2 = heap w
  ∧ ((expandUse order h nesting ee v w).1 = ee
     ∨ ∃ node parent, v = (node, Some parent)
                      ∧ (expandUse order h nesting ee v w).1 = ee ++ [(node, node, parent)]).
Proof.
  intros Hn. unfold expandUse.
  destruct v as [node [parent |]]; [| simpl; auto].
  destruct (element h node) as [e |]; [| simpl; auto].
  destruct (openingName e) as [name | ?]; [| simpl; auto].
  unfold bind at 1 3 5, getSource.
  destruct (macros (source w) !! name) as [macro |]; [| simpl; auto].
  unfold bind. rewrite expandMacro_too_deep by exact Hn. simpl.
  split; [reflexivity |]. right. eauto.
Qed.

Lemma foldM_expandUse_overflow order h nesting visits :
  (MAX_NESTING < nesting)%nat →
  ∀ ee w,
    heap (foldM (expandUse order h nesting) visits ee w).2 = heap w
    ∧ ∀ use res parent,
        (use, res, parent) ∈ (foldM (expandUse order h nesting) visits ee w).1 →
        (use, res, parent) ∈ ee ∨ (res = use ∧ (use, Some parent) ∈ visits).
Proof.
  intros Hn. induction visits as [| v visits IH]; intros ee w; simpl.
  - split; [reflexivity | auto].
  - unfold bind.
    destruct (expandUse_overflow order h nesting ee v w Hn) as [Hh Hee].
    destruct (expandUse order h nesting ee v w) as [ee1 w1]. simpl in Hh, Hee.
    destruct (IH ee1 w1) as [Hh' Hee']. split; [congruence |].
    intros use res parent Hin. apply Hee' in Hin as [Hin | [-> Hin]].
    + destruct Hee as [-> | (node & par & -> & ->)]; [auto |].
      apply elem_of_app in Hin as [Hin | Hin]; [auto |].
      apply list_elem_of_singleton in Hin. simplify_eq.
      right. split; [reflexivity | apply list_elem_of_here].
    + right. split; [reflexivity | apply list_elem_of_further; exact Hin].
Qed.

Lemma replaceUsages_overflow again ee h0 :
  (∀ res w w', again res w = Some w' → heap w' = heap w) →
  (∀ use res parent, (use, res, parent) ∈ ee → res = use ∧ use ∈ childrenOf h0 parent) →
  ∀ w w', heap w = h0 → replaceUsages again ee w = Some w' → heap w' = h0.
Proof.
  intros Hagain. induction ee as [| [[use res] parent] ee IH]; intros Hee w w' Hw H.
  - simpl in H. simplify_eq. reflexivity.
  - cbn [replaceUsages] in H.
    destruct (Hee use res parent) as [-> Hin]; [apply list_elem_of_here |].
    rewrite replaceUse_itself in H by (rewrite Hw; exact Hin).
    destruct (again use w) as [w2 |] eqn:E; [| discriminate].
    apply Hagain in E. apply (IH (λ u r p Hu, Hee u r p (list_elem_of_further _ _ _ Hu)) w2 w');
      [congruence | exact H].
Qed.

Lemma expandMacros_overflow order fuel :
  ∀ root nesting w w',
    (MAX_NESTING < nesting)%nat →
    expandMacros order fuel root nesting w = Some w' → heap w' = heap w.
Proof.
  induction fuel as [| fuel IH]; intros root nesting w w' Hn; simpl; [discriminate |].
  set (visits := match root with Some r => walk order (heap w) r | None => [] end).
  destruct (foldM_expandUse_overflow order (heap w) nesting visits Hn [] w) as [Hh Hee].
  destruct (foldM _ visits [] w) as [ee w1]. simpl in Hh, Hee.
  apply (replaceUsages_overflow _ ee (heap w)); [| | exact Hh].
  - intros res v v' Hv. apply IH in Hv; [exact Hv | lia].
  - intros use res parent Hin. apply Hee in Hin as [Hin | [-> Hin]].
    + apply not_elem_of_nil in Hin. contradiction.
    + split; [reflexivity |]. subst visits. destruct root as [r |].
      * apply (walk_child order _ r). exact Hin.
      * apply not_elem_of_nil in Hin. contradiction.
Qed.


(** * The claims *)

(** Split a conjunction into its parts, and nothing else. *)
Ltac split_all := repeat match goal with |- _ ∧ _ => split end.

(** A statement about both orders of the walker *)
Ltac both_orders tac :=
  apply Forall_cons_2;
  [ cbv beta zeta; tac
  | apply Forall_cons_2; [cbv beta zeta; tac | apply Forall_nil_2] ].

(** ** C1: visited files and the document root *)

(** C1 (defect in the code).  The claim: every entry of [files] denotes a
    canonical path lying within the document root.  [parse] compares
    strings ([pname.startsWith(this.rootPath)]), so a directory next to the
    root whose name merely starts like the root passes: with the root
    [/var/www], the request [../www2/secret.html] resolves to
    [/var/www2/secret.html], is read, and is recorded in [files] as
    [2/secret.html], without any diagnostic. *)
Theorem C1_sibling_directory_is_read :
  ∀ order,
    let w := loadInclusions "/var/www" "/" siteSibling order "../www2/secret.html" in
    resolved "/var/www" "../www2/secret.html" "." = "/var/www2/secret.html"
    ∧ JS.startsWith "/var/www2/secret.html" "/var/www" = true
    ∧ ¬ withinRoot "/var/www" "/var/www2/secret.html"
    ∧ files (source w) = ["2/secret.html"]
    ∧ denotes "/var/www" "2/secret.html" = "/var/www2/secret.html"
    ∧ errors (source w) = []
    ∧ finalTree w = Some (tag "html" [] [TText "secret"]).
Proof.
  intros []; cbv zeta; split_all; try (vm_compute; reflexivity);
    unfold withinRoot; intros H;
    apply (bool_decide_eq_true_2 _) in H; vm_compute in H; discriminate.
Qed.

(** What holds of the code: a request whose resolved name does not start
    with the root string is refused with [forbidden pathname], yields no
    tree and adds nothing to [files]; so [load("../etc/passwd")] ends with
    no tree and that one error. *)
Lemma forbidden_request_is_refused rootPath cwd fs order fname currDir nesting once from w :
  (nesting < MAX_NESTING)%nat →
  JS.startsWith (resolved rootPath fname currDir) rootPath = false →
  let r := parse rootPath cwd fs order fname currDir nesting once from w in
  r.1 = None
  ∧ heap r.2 = heap w
  ∧ files (source r.2) = files (source w)
  ∧ errors (source r.2)
    = errors (source w)
      ++ [mkCodeError error
            ("forbidden pathname "
             +:+ quoted (Path.relative cwd rootPath (resolved rootPath fname currDir)))
            from].
Proof.
  intros Hn Hp. cbv zeta. rewrite parse_forbidden by assumption. simpl. auto.
Qed.

Example forbidden_passwd :
  ∀ order,
    let w := load "/var/www" "/" siteSibling order 1 "../etc/passwd" in
    (w ≫= finalTree) = None
    ∧ (files ∘ source) <$> w = Some []
    ∧ (errors ∘ source) <$> w
      = Some [mkCodeError error ("forbidden pathname " +:+ quoted "../etc/passwd") None].
Proof. intros []; cbv zeta; split_all; vm_compute; reflexivity. Qed.

(** ** C2: depth of inclusion *)

(** C2.  Entered with [nesting >= MAX_NESTING = 100], [parse] records
    [too many nested inclusions] and returns no tree, touching neither the
    store nor the visited files; and for a chain of 101 files, each
    including the next, the session holds exactly one such diagnostic, the
    first hundred files having been visited. *)
Theorem C2_inclusion_depth_is_bounded :
  MAX_NESTING = 100
  ∧ (∀ rootPath cwd fs order fname currDir nesting once from w,
       (MAX_NESTING ≤ nesting)%nat →
       parse rootPath cwd fs order fname currDir nesting once from w
       = (None,
          mkWorld (heap w)
            (mkSource (ast (source w)) (files (source w))
               (errors (source w)
                ++ [mkCodeError error "too many nested inclusions" from])
               (macros (source w)))))
  ∧ (∀ order,
       let w := load "/var/www" "/" (siteChain 100) order 1 "f0.html" in
       length (map (chainFile 100) (seq 0 101)) = 101
       ∧ (λ w, length (filter tooManyInclusionsError (errors (source w)))) <$> w = Some 1
       ∧ (λ w, filter (λ e, type e = error) (errors (source w))) <$> w
         = Some [mkCodeError error "too many nested inclusions" (Some 198)]
       ∧ (files ∘ source) <$> w = Some (map (λ i, "/" +:+ chainName i) (seq 0 100))).
Proof.
  split; [reflexivity |]. split.
  - intros. apply parse_too_deep. assumption.
  - intros []; cbv zeta; split_all; vm_compute; reflexivity.
Qed.

Lemma C2_witness :
  (MAX_NESTING ≤ 100)%nat
  ∧ parse "/var/www" "/" (siteChain 100) DocumentOrder "f100.html" "/" 100 false (Some 198)
      (mkWorld [] emptySource)
    = (None,
       mkWorld []
         (mkSource None []
            [mkCodeError error "too many nested inclusions" (Some 198)] ∅)).
Proof.
  split.
  - unfold MAX_NESTING. lia.
  - apply (proj1 (proj2 C2_inclusion_depth_is_bounded)). unfold MAX_NESTING. lia.
Defined.

(** ** C3: the name of a macro *)

(** C3 (defect in the code).  The claim: a [:define] whose name has no dash
    gets the warning [invalid tag name] and is not registered.  The regular
    expression of [collectMacro] accepts any run of word characters and
    dashes, so [<:define tag="foo">] is registered without a diagnostic and
    [<foo/>] is expanded, although the warning text itself asks "does it
    include a dash?". *)
Theorem C3_name_without_dash_is_registered :
  ∀ order,
    let w := load "/var/www" "/" siteDefineNoDash order 5 "a.html" in
    execTag "foo" = Some ("foo", None)
    ∧ (errors ∘ source) <$> w = Some []
    ∧ (λ w, (λ m, (mname m, mbase m)) <$> macros (source w) !! "foo") <$> w
      = Some (Some ("foo", "div"))
    ∧ (w ≫= finalTree)
      = Some (tag "html" [] [tag "div" [] [tag "b" [] [TText "x"]]]).
Proof. intros []; cbv zeta; split_all; vm_compute; reflexivity. Qed.

(** The expression asks for no dash at all: every non-empty run of word
    characters and dashes is a name. *)
Lemma execTag_any_name name :
  name ≠ "" → allTagChars name = true → execTag name = Some (name, None).
Proof.
  intros Hne Hall. unfold execTag.
  assert (Hspan : spanTagChars name = (name, "")).
  { clear Hne. induction name as [| c s IH]; [reflexivity |].
    simpl in *. apply andb_true_iff in Hall as [Hc Hs].
    rewrite Hc, (IH Hs). reflexivity. }
  rewrite Hspan. rewrite decide_False by exact Hne. reflexivity.
Qed.


(** ** C4: slot routing *)

Lemma Obj_get_elem {V : Type} (o : @Obj.t V) k v :
  Obj.get o k = Some v → (k, v) ∈ o.
Proof.
  induction o as [| [k' v'] o IH]; simpl; [discriminate |].
  destruct (decide (k' = k)) as [-> |]; intros H.
  - simplify_eq. apply list_elem_of_here.
  - apply list_elem_of_further. auto.
Qed.

Lemma slotNameOf_named h c e n :
  element h c = Some e →
  getJSXAttribute (attributes e) SLOT_NAME_ATTR = Some n → n ≠ "" →
  slotNameOf h c = n.
Proof.
  intros He Hn Hne. unfold slotNameOf. rewrite He, Hn. simpl.
  rewrite decide_False by exact Hne. reflexivity.
Qed.

Lemma slotNameOf_unnamed h c e :
  element h c = Some e →
  getJSXAttribute (attributes e) SLOT_NAME_ATTR = None →
  slotNameOf h c = SLOT_DEFAULT_NAME.
Proof. intros He Hn. unfold slotNameOf. rewrite He, Hn. reflexivity. Qed.

Lemma slotNameOf_empty h c e :
  element h c = Some e →
  getJSXAttribute (attributes e) SLOT_NAME_ATTR = Some "" →
  slotNameOf h c = SLOT_DEFAULT_NAME.
Proof. intros He Hn. unfold slotNameOf. rewrite He, Hn. reflexivity. Qed.

Lemma slotNameOf_not_element h c :
  element h c = None → slotNameOf h c = SLOT_DEFAULT_NAME.
Proof. intros He. unfold slotNameOf. rewrite He. reflexivity. Qed.

Lemma routeChildren_spec slots src w :
  Forall (λ kv, snode kv.2 ∈ childrenOf (heap w) (sparent kv.2)
                ∧ NoDup (childrenOf (heap w) (sparent kv.2))) slots →
  Forall (λ c, Forall (λ kv, c ≠ snode kv.2) slots) (childrenOf (heap w) src) →
  let w' := (routeChildren slots src w).2 in
  source w' = source w
  ∧ (∀ n, attributesOf (heap w') n = attributesOf (heap w) n)
  ∧ ∀ p, childrenOf (heap w') p
         = routedChildren slots (heap w) (childrenOf (heap w) src) p
             (childrenOf (heap w) p).
Proof.
  intros Hslots Hfresh. cbv zeta.
  unfold routeChildren, bind at 1, getHeap at 1.
  destruct (routeChildren_once slots (childrenOf (heap w) src) w) as (Hs & Ha & _ & Hc).
  - intros k slot Hk. apply Obj_get_elem in Hk.
    rewrite Forall_forall in Hslots. destruct (Hslots _ Hk) as [Hin Hnd].
    apply occurs_once_NoDup; assumption.
  - intros c k slot Hc Hk. apply Obj_get_elem in Hk.
    rewrite Forall_forall in Hfresh. specialize (Hfresh _ Hc).
    rewrite Forall_forall in Hfresh. apply (Hfresh _ Hk).
  - auto.
Qed.

(** C4, as the code has it.  In [populateMacro] a child of the use-site asks
    for the slot named by its [name] attribute when it is an element that
    carries a non-empty one (a literal: the test is
    [getJSXAttribute(...) || 'default']), and for [default] otherwise, that
    is for text and expressions and for elements with no [name] or an empty
    one.  The child loop then leaves, in every child list, each routed child
    right before its slot element, the children of one slot in the order of
    the use-site, and puts a child whose slot is not in the table nowhere:
    the list of [p] becomes the old one with, before every [x] in it, the
    children that ask for the slot [x] under [p].  The slot table is the one
    [collectSlots] builds on the fresh copy: each slot element occurs once
    among the children of its parent, and no child of the use-site is a slot
    element of the copy.  The reads [slots[slotName]] are reads of a key of
    the table or of a name no object inherits ([plainTable], [plainRead]);
    for an inherited name such as [constructor] the code finds a member of
    [Object.prototype] instead of a slot, which the statement leaves
    aside. *)
Theorem C4_children_are_routed_before_their_slot :
  (∀ h c e n,
     element h c = Some e →
     getJSXAttribute (attributes e) SLOT_NAME_ATTR = Some n → n ≠ "" →
     slotNameOf h c = n)
  ∧ (∀ h c e,
       element h c = Some e →
       getJSXAttribute (attributes e) SLOT_NAME_ATTR = None →
       slotNameOf h c = SLOT_DEFAULT_NAME)
  ∧ (∀ h c e,
       element h c = Some e →
       getJSXAttribute (attributes e) SLOT_NAME_ATTR = Some "" →
       slotNameOf h c = SLOT_DEFAULT_NAME)
  ∧ (∀ h c, element h c = None → slotNameOf h c = SLOT_DEFAULT_NAME)
  ∧ (∀ slots src w,
       Forall (λ kv, snode kv.2 ∈ childrenOf (heap w) (sparent kv.2)
                     ∧ NoDup (childrenOf (heap w) (sparent kv.2))) slots →
       Forall (λ c, Forall (λ kv, c ≠ snode kv.2) slots) (childrenOf (heap w) src) →
       plainTable slots →
       Forall (λ c, plainRead slots (slotNameOf (heap w) c)) (childrenOf (heap w) src) →
       let w' := (routeChildren slots src w).2 in
       source w' = source w
       ∧ (∀ n, attributesOf (heap w') n = attributesOf (heap w) n)
       ∧ ∀ p, childrenOf (heap w') p
              = flat_map
                  (λ x, filter (λ c, Obj.get slots (slotNameOf (heap w) c)
                                     = Some (mkSlot x p))
                          (childrenOf (heap w) src)
                        ++ [x])
                  (childrenOf (heap w) p))
  ∧ (∀ order,
       (load "/var/www" "/" siteCard order 5 "a.html" ≫= finalTree)
       = Some (tag "html" []
                 [tag "div" []
                    [tag "div" [("class", "card")]
                       [tag "span" [("name", "header")] [TText "H"];
                        tag "span" [("name", "header")] [TText "H2"];
                        TText "B";
                        tag "em" [] [TText "C"]]]])).
Proof.
  split; [exact slotNameOf_named |].
  split; [exact slotNameOf_unnamed |].
  split; [exact slotNameOf_empty |].
  split; [exact slotNameOf_not_element |].
  split; [| intros []; vm_compute; reflexivity].
  intros slots src w H1 H2 _ _. apply routeChildren_spec; assumption.
Qed.

(** At the use-site [<my-card>] of the macro page: the two [header] spans go
    before the slot [header] (15), the text and [<em>] before [default] (16),
    and [<i name="footer">] (8), whose slot does not exist, goes nowhere. *)
Lemma C4_witness :
  let '(ret, slots, w) := cardStamp in
  Forall (λ kv, snode kv.2 ∈ childrenOf (heap w) (sparent kv.2)
                ∧ NoDup (childrenOf (heap w) (sparent kv.2))) slots
  ∧ Forall (λ c, Forall (λ kv, c ≠ snode kv.2) slots) (childrenOf (heap w) cardUse)
  ∧ plainTable slots
  ∧ Forall (λ c, plainRead slots (slotNameOf (heap w) c)) (childrenOf (heap w) cardUse)
  ∧ childrenOf (heap w) cardUse = [5; 6; 8; 10; 12]
  ∧ childrenOf (heap w) 17 = [15; 16]
  ∧ childrenOf (heap (routeChildren slots cardUse w).2) 17 = [5; 12; 15; 6; 10; 16].
Proof.
  unfold cardStamp.
  match goal with
  | |- ?H1 ∧ ?H2 ∧ ?H3 ∧ ?H4 ∧ _ =>
      assert (h1 : H1) by (apply (bool_decide_unpack _); vm_compute; exact I);
      assert (h2 : H2) by (apply (bool_decide_unpack _); vm_compute; exact I);
      assert (h3 : H3) by (apply (bool_decide_unpack _); vm_compute; exact I);
      assert (h4 : H4) by (apply (bool_decide_unpack _); vm_compute; exact I)
  end.
  split; [exact h1 |]. split; [exact h2 |]. split; [exact h3 |]. split; [exact h4 |].
  split; [vm_compute; reflexivity |]. split; [vm_compute; reflexivity |].
  destruct (proj1 (proj2 (proj2 (proj2 (proj2 C4_children_are_routed_before_their_slot))))
              _ _ _ h1 h2 h3 h4) as (_ & _ & Hc).
  rewrite Hc. vm_compute. reflexivity.
Defined.

(** The claim sends a child to the slot its [name] attribute names and drops
    it when that slot does not exist.  [<span name="">] (node 5) carries a
    [name]; no slot of the copy is named by the empty string; yet the loop
    puts it before the slot [default] (node 9), and it is in the final
    tree. *)
Lemma C4_counterexample :
  let '(ret, slots, w) := emptyNameStamp in
  childrenOf (heap w) emptyNameUse = [5]
  ∧ getJSXAttribute (attributesOf (heap w) 5) SLOT_NAME_ATTR = Some ""
  ∧ Obj.get slots "" = None
  ∧ Obj.get slots SLOT_DEFAULT_NAME = Some (mkSlot 9 10)
  ∧ childrenOf (heap w) 10 = [8; 9]
  ∧ childrenOf (heap (routeChildren slots emptyNameUse w).2) 10 = [8; 5; 9]
  ∧ Forall (λ order,
              (load "/var/www" "/" siteEmptyName order 5 "a.html" ≫= finalTree)
              = Some (tag "html" []
                        [tag "div" []
                           [tag "div" [("class", "card")]
                              [tag "span" [("name", "")] [TText "E"]]]]))
      [DocumentOrder; ChildrenFirst].
Proof.
  unfold emptyNameStamp. cbv beta iota zeta.
  do 6 (split; [vm_compute; reflexivity |]).
  both_orders ltac:(vm_compute; reflexivity).
Qed.

(** ** C5: attributes of the included root *)

Lemma applyIncludedAttributes_lookup d r w :
  isElement (heap w) (dparent d) = true →
  let attrs := attributesOf (heap w) (dparent d) in
  let rattrs := attributesOf (heap w) r in
  let attrs' := attributesOf (heap (applyIncludedAttributes d r w).2) (dparent d) in
  attrs' = attrs ++ includedAttributes (getJSXAttributeKeys attrs) rattrs
  ∧ (∀ key, key ∈ getJSXAttributeKeys attrs →
       getJSXAttributeNode attrs' key = getJSXAttributeNode attrs key)
  ∧ (∀ key, key ∈ getJSXAttributeKeys rattrs → key ∉ getJSXAttributeKeys attrs →
       getJSXAttributeNode attrs' key = getJSXAttributeNode rattrs key).
Proof.
  intros Hp. cbv zeta.
  destruct (applyIncludedAttributes_spec d r w Hp) as (_ & _ & _ & Heq).
  split; [exact Heq |]. rewrite Heq. split.
  - intros key Hk. rewrite getJSXAttributeNode_app.
    apply getJSXAttributeNode_keys in Hk as [a Ha]. rewrite Ha. reflexivity.
  - intros key Hr Hk. rewrite getJSXAttributeNode_app.
    destruct (getJSXAttributeNode (attributesOf (heap w) (dparent d)) key) as [a |] eqn:Ha.
    { exfalso. apply Hk. apply getJSXAttributeNode_keys. eauto. }
    rewrite getJSXAttributeNode_included. unfold JS.includes.
    rewrite bool_decide_eq_false_2 by exact Hk. reflexivity.
Qed.





(** ** C6: a file that was visited before *)

(** C6, as the code has it.  The depth guard comes first: below the bound
    ([nesting < MAX_NESTING]), for a request that resolves inside the root
    to a file already in [files], [parse] with [once] (an [:import]) returns
    no tree and leaves the store and the session, diagnostics included, as
    they were; without it (an [:include]) [parse] goes on to read and parse
    the file as for a first visit, only [files] gets no new entry.  So two
    [:import] of [b.html] list it once and splice its content once, where
    two [:include] splice it twice. *)
Theorem C6_import_skips_a_visited_file :
  (∀ rootPath cwd fs order fname currDir nesting from w,
     (nesting < MAX_NESTING)%nat →
     JS.startsWith (resolved rootPath fname currDir) rootPath = true →
     JS.substringFrom (String.length rootPath) (resolved rootPath fname currDir)
       ∈ files (source w) →
     parse rootPath cwd fs order fname currDir nesting true from w = (None, w)
     ∧ parse rootPath cwd fs order fname currDir nesting false from w
       = readAndParse fs order (parse rootPath cwd fs order) (resolved rootPath fname currDir)
           (JS.substringFrom (String.length rootPath) (resolved rootPath fname currDir))
           nesting from w)
  ∧ (∀ order,
       let w := load "/var/www" "/" siteImportTwice order 5 "a.html" in
       (files ∘ source) <$> w = Some ["/a.html"; "/b.html"]
       ∧ (errors ∘ source) <$> w = Some []
       ∧ (w ≫= finalTree) = Some (tag "html" [("class", "x")] [TText "hello"]))
  ∧ (∀ order,
       let w := load "/var/www" "/" siteIncludeTwice order 5 "a.html" in
       (files ∘ source) <$> w = Some ["/a.html"; "/b.html"]
       ∧ (errors ∘ source) <$> w = Some []
       ∧ (w ≫= finalTree)
         = Some (tag "html" [("class", "x")] [TText "hello"; TText "hello"])).
Proof.
  split.
  - intros. split; [apply parse_import_visited | apply parse_include_visited]; assumption.
  - split; intros []; cbv zeta; split_all; vm_compute; reflexivity.
Qed.

Lemma C6_witness :
  let w := mkWorld [] (mkSource None ["/a.html"; "/b.html"] [] ∅) in
  (1 < MAX_NESTING)%nat
  ∧ JS.startsWith (resolved "/var/www" "b.html" "/") "/var/www" = true
  ∧ JS.substringFrom (String.length "/var/www") (resolved "/var/www" "b.html" "/")
      ∈ files (source w)
  ∧ parse "/var/www" "/" siteImportTwice DocumentOrder "b.html" "/" 1 true (Some 1) w
    = (None, w).
Proof.
  cbv zeta.
  assert (h1 : (1 < MAX_NESTING)%nat) by (unfold MAX_NESTING; lia).
  assert (h2 : JS.startsWith (resolved "/var/www" "b.html" "/") "/var/www" = true)
    by (vm_compute; reflexivity).
  assert (h3 : JS.substringFrom (String.length "/var/www") (resolved "/var/www" "b.html" "/")
               ∈ ["/a.html"; "/b.html"])
    by (apply (bool_decide_unpack _); vm_compute; exact I).
  split; [exact h1 |]. split; [exact h2 |]. split; [exact h3 |].
  apply (proj1 C6_import_skips_a_visited_file "/var/www" "/" siteImportTwice
           DocumentOrder "b.html" "/" 1 (Some 1)
           (mkWorld [] (mkSource None ["/a.html"; "/b.html"] [] ∅)) h1 h2 h3).
Defined.

(** At the depth bound the [:import] of a visited file does record a
    diagnostic: [parse] entered with [nesting = 100] for [b.html], which is in
    [files], and the session of a chain of a hundred files whose last one
    imports the first. *)
Lemma C6_counterexample :
  (let w := mkWorld [] (mkSource None ["/a.html"; "/b.html"] [] ∅) in
   JS.substringFrom (String.length "/var/www") (resolved "/var/www" "b.html" "/")
   = "/b.html"
   ∧ "/b.html" ∈ files (source w)
   ∧ Forall (λ order,
               errors (source (parse "/var/www" "/" siteImportTwice order "b.html" "/"
                                 100 true (Some 1) w).2)
               = [mkCodeError error "too many nested inclusions" (Some 1)])
       [DocumentOrder; ChildrenFirst])
  ∧ Forall (λ order,
              let w := load "/var/www" "/" siteDeepImport order 5 "f0.html" in
              (files ∘ source) <$> w = Some (map (λ i, "/" +:+ chainName i) (seq 0 100))
              ∧ (errors ∘ source) <$> w
                = Some [mkCodeError error "too many nested inclusions" (Some 198)])
      [DocumentOrder; ChildrenFirst].
Proof.
  split; cbv zeta.
  - split; [vm_compute; reflexivity |].
    split; [apply (bool_decide_unpack _); vm_compute; exact I |].
    both_orders ltac:(vm_compute; reflexivity).
  - both_orders ltac:(split; vm_compute; reflexivity).
Qed.

(** ** C7: depth of macro expansion *)

(** C7.  Called with [nesting > MAX_NESTING = 100], [expandMacro] records
    [too many nested macros "<name>"] and returns the use-site itself,
    without copying or populating anything; the replacement that
    [expandMacros] then splices in is that same node, so the child list of
    the parent is what it was, and a whole run of [expandMacros] beyond the
    bound leaves every node of the tree as it was.  A macro whose body uses
    itself shows the bound at work: a hundred and one copies are stamped, one
    diagnostic is recorded, and the innermost use-site is still there. *)
Theorem C7_macro_depth_overflow_keeps_use_site :
  MAX_NESTING = 100
  ∧ (∀ order use macro removeSlots nesting w,
       (MAX_NESTING < nesting)%nat →
       expandMacro order use macro removeSlots nesting w
       = (use,
          mkWorld (heap w)
            (mkSource (ast (source w)) (files (source w))
               (errors (source w)
                ++ [mkCodeError error
                      ("too many nested macros " +:+ quoted (mname macro)) (Some use)])
               (macros (source w)))))
  ∧ (∀ use parent w,
       use ∈ childrenOf (heap w) parent → replaceUse use use parent w = (tt, w))
  ∧ (∀ order fuel root nesting w w',
       (MAX_NESTING < nesting)%nat →
       expandMacros order fuel root nesting w = Some w' → heap w' = heap w)
  ∧ (∀ order,
       let w := load "/var/www" "/" siteRecursiveMacro order 110 "a.html" in
       (λ w, map msg (errors (source w))) <$> w
         = Some ["too many nested macros " +:+ quoted "my-a"]
       ∧ (w ≫= finalTree)
         = Some (tag "html" [] [nested 101 "div" (emptyTag "my-a" [])])).
Proof.
  split; [reflexivity |].
  split; [exact expandMacro_too_deep |].
  split; [exact replaceUse_itself |].
  split; [exact expandMacros_overflow |].
  intros []; cbv zeta; split; vm_compute; reflexivity.
Qed.

Lemma C7_witness :
  let w := cardWorld in
  let macro := mkMacro "my-card" 3 "div" None in
  (MAX_NESTING < 101)%nat
  ∧ cardUse ∈ childrenOf (heap w) 14
  ∧ (let '(res, w1) := expandMacro DocumentOrder cardUse macro true 101 w in
     res = cardUse
     ∧ heap w1 = heap w
     ∧ map msg (errors (source w1)) = ["too many nested macros " +:+ quoted "my-card"]
     ∧ replaceUse cardUse res 14 w1 = (tt, w1)).
Proof.
  cbv zeta.
  assert (h1 : (MAX_NESTING < 101)%nat) by (unfold MAX_NESTING; lia).
  assert (h2 : cardUse ∈ childrenOf (heap cardWorld) 14)
    by (apply (bool_decide_unpack _); vm_compute; exact I).
  split; [exact h1 |]. split; [exact h2 |].
  rewrite (proj1 (proj2 C7_macro_depth_overflow_keeps_use_site) _ _ _ _ _ _ h1).
  split; [reflexivity |]. split; [reflexivity |]. split; [vm_compute; reflexivity |].
  apply (proj1 (proj2 (proj2 C7_macro_depth_overflow_keeps_use_site))).
  exact h2.
Defined.

(** ** One round of directive processing *)

Lemma updateElement_ext f g n h :
  (∀ e, element h n = Some e → f e = g e) → updateElement f n h = updateElement g n h.
Proof.
  intros Hfg. unfold updateElement. apply list_eq. intros j.
  destruct (decide (j = n)) as [-> | Hne].
  - rewrite !list_lookup_alter_eq. unfold element in Hfg.
    destruct (_ !! _) as [[e | v | p] |]; simpl; try reflexivity.
    rewrite Hfg by reflexivity. reflexivity.
  - rewrite !list_lookup_alter_ne by congruence. reflexivity.
Qed.

Lemma processDirective_slot order parseRec currDir nesting d w :
  dname d = SLOT_TAG → processDirective order parseRec currDir nesting d w = (tt, w).
Proof.
  intros Hd. unfold processDirective, bind, getHeap. rewrite Hd.
  rewrite decide_False by (intros [H | H]; discriminate).
  rewrite decide_False by discriminate.
  rewrite decide_True by reflexivity. reflexivity.
Qed.

Lemma processDirective_removes order parseRec currDir nesting d w l1 l2 :
  dname d ≠ SLOT_TAG →
  childrenOf (heap w) (dparent d) = l1 ++ dnode d :: l2 →
  dnode d ∉ l1 →
  let w1 := mkWorld (updateElement (setChildren (l1 ++ l2)) (dparent d) (heap w))
              (source w) in
  childrenOf (heap w1) (dparent d) = l1 ++ l2
  ∧ processDirective order parseRec currDir nesting d w
    = (if decide (dname d = INCLUDE_TAG ∨ dname d = IMPORT_TAG)
       then processInclude parseRec d (Z.of_nat (length l1)) currDir nesting
       else if decide (dname d = DEFINE_TAG) then collectMacro order d
       else pushError warning ("unknown directive " +:+ dname d) (Some (dnode d))) w1.
Proof.
  intros Hd Hl Hn. cbv zeta.
  assert (Hel : isElement (heap w) (dparent d) = true).
  { apply (isElement_of_child _ _ (dnode d)). rewrite Hl.
    apply elem_of_app. right. apply list_elem_of_here. }
  assert (Hrm : modifyChildren (dparent d)
                  (JS.removeAt (JS.indexOf (dnode d) (childrenOf (heap w) (dparent d)))) w
                = (tt, mkWorld (updateElement (setChildren (l1 ++ l2)) (dparent d) (heap w))
                         (source w))).
  { unfold modifyChildren, modifyHeap. f_equal. f_equal.
    apply updateElement_ext. intros e He.
    unfold childrenOf in Hl |- *. rewrite He in Hl |- *. rewrite Hl.
    rewrite removeAt_first by exact Hn. reflexivity. }
  split.
  - simpl. unfold childrenOf. rewrite element_update.
    rewrite decide_True by reflexivity.
    unfold isElement in Hel. destruct (element (heap w) (dparent d)); [reflexivity | discriminate].
  - unfold processDirective, bind at 1, getHeap at 1.
    destruct (decide (dname d = INCLUDE_TAG ∨ dname d = IMPORT_TAG)).
    { unfold bind. rewrite Hrm. rewrite Hl, indexOf_app by exact Hn. reflexivity. }
    destruct (decide (dname d = DEFINE_TAG)).
    { unfold bind. rewrite Hrm. reflexivity. }
    rewrite decide_False by exact Hd.
    unfold bind. rewrite Hrm. reflexivity.
Qed.

Lemma replaceSlot_spec slots key slot w l1 l2 :
  Obj.get slots key = Some slot →
  childrenOf (heap w) (sparent slot) = l1 ++ snode slot :: l2 →
  snode slot ∉ l1 →
  let w' := (replaceSlot slots key w).2 in
  source w' = source w
  ∧ childrenOf (heap w') (sparent slot) = l1 ++ childrenOf (heap w) (snode slot) ++ l2.
Proof.
  intros Hk Hl Hn. cbv zeta. unfold replaceSlot. rewrite Hk.
  unfold bind, getHeap. simpl. split; [reflexivity |].
  rewrite (childrenOf_setChildren
             (JS.splice (JS.indexOf (snode slot) (childrenOf (heap w) (sparent slot))) 1
                (childrenOf (heap w) (snode slot)))).
  rewrite decide_True by reflexivity.
  rewrite (isElement_of_child _ _ (snode slot)).
  - rewrite Hl. apply replace_first. exact Hn.
  - rewrite Hl. apply elem_of_app. right. apply list_elem_of_here.
Qed.

(** ** C9: no file is listed twice *)

(** C9.  Whatever the files contain and however [:include] and [:import]
    are mixed, [files] has no duplicates when the inclusions are done, and
    macro expansion does not touch it: the [files] of every session [load]
    returns has no duplicates. *)
Theorem C9_files_has_no_duplicates :
  ∀ rootPath cwd fs order fname,
    NoDup (files (source (loadInclusions rootPath cwd fs order fname)))
    ∧ ∀ fuel w, load rootPath cwd fs order fuel fname = Some w → NoDup (files (source w)).
Proof.
  intros rootPath cwd fs order fname. split.
  - apply loadInclusions_NoDup.
  - intros fuel w H. rewrite (load_files _ _ _ _ _ _ _ H). apply loadInclusions_NoDup.
Qed.

(** [b.html] is included twice and imported once, [c.html] is imported
    three times: each is listed once. *)
Lemma C9_witness :
  load "/var/www" "/" siteMixed DocumentOrder 1 "a.html" = Some sessionMixed
  ∧ files (source sessionMixed) = ["/a.html"; "/b.html"; "/c.html"]
  ∧ NoDup (files (source sessionMixed)).
Proof.
  assert (h : load "/var/www" "/" siteMixed DocumentOrder 1 "a.html" = Some sessionMixed)
    by (vm_compute; reflexivity).
  split; [exact h |]. split; [reflexivity |].
  exact (proj2 (C9_files_has_no_duplicates "/var/www" "/" siteMixed DocumentOrder "a.html")
           1 sessionMixed h).
Defined.

(** * How the methods treat the store *)

(** ** Fresh copies *)

Lemma Tree_children_ind (P : Tree → Prop) :
  (∀ nm attrs sc cl ts, Forall P ts → P (TElement nm attrs sc cl ts)) →
  (∀ v, P (TText v)) →
  (∀ p, P (TOther p)) →
  ∀ t, P t.
Proof.
  intros He Ht Ho. fix IH 1. intros [nm attrs sc cl ts | v | p].
  - apply He. induction ts as [| t ts IHts]; constructor; [apply IH | exact IHts].
  - apply Ht.
  - apply Ho.
Qed.

Lemma childrenOf_prefix (h h' : Heap) i :
  h `prefix_of` h' → (i < length h)%nat → childrenOf h' i = childrenOf h i.
Proof.
  intros Hp Hi. unfold childrenOf, element, NodeId in *.
  pose proof (prefix_lookup_lt h h' i Hi Hp) as Heq.
  rewrite <- Heq. reflexivity.
Qed.

Lemma childrenOf_beyond (h : Heap) i : (length h ≤ i)%nat → childrenOf h i = [].
Proof.
  intros Hi. unfold childrenOf, element, NodeId in *.
  rewrite (proj2 (lookup_ge_None h i) Hi). reflexivity.
Qed.

Lemma childrenOf_snoc (h : Heap) x i :
  childrenOf (h ++ [x]) i
  = if decide (i = length h)
    then match x with NElement e => children e | _ => [] end
    else childrenOf h i.
Proof.
  unfold childrenOf, element, NodeId in *. destruct (decide (_ = _)) as [-> | Hne].
  - rewrite list_lookup_middle by reflexivity. destruct x; reflexivity.
  - destruct (decide (i < length h)%nat) as [Hlt | Hge].
    + rewrite lookup_app_l by exact Hlt. reflexivity.
    + rewrite (proj2 (lookup_ge_None (h ++ [x]) i)) by (rewrite length_app; simpl; lia).
      rewrite (proj2 (lookup_ge_None h i)) by lia. reflexivity.
Qed.

Lemma alloc_element nm attrs sc cl ts h :
  alloc (TElement nm attrs sc cl ts) h
  = let '(ids, h') := allocAll alloc ts h in
    allocNode (NElement (mkElement nm attrs sc cl ids)) h'.
Proof. reflexivity. Qed.

Lemma allocAll_spec ts :
  Forall (λ t, ∀ h r h',
            alloc t h = (r, h') →
            h `prefix_of` h'
            ∧ (length h ≤ r)%nat ∧ length h' = S r
            ∧ ∀ i, (length h ≤ i)%nat →
                   NoDup (childrenOf h' i)
                   ∧ Forall (λ c, (length h ≤ c < i)%nat) (childrenOf h' i)) ts →
  ∀ h ids h',
    allocAll alloc ts h = (ids, h') →
    h `prefix_of` h'
    ∧ NoDup ids
    ∧ Forall (λ c, (length h ≤ c < length h')%nat) ids
    ∧ ∀ i, (length h ≤ i)%nat →
           NoDup (childrenOf h' i)
           ∧ Forall (λ c, (length h ≤ c < i)%nat) (childrenOf h' i).
Proof.
  induction 1 as [| t ts Ht _ IH]; intros h ids h' Heq; simpl in Heq.
  - simplify_eq. split; [reflexivity |]. split; [constructor |]. split; [constructor |].
    intros i Hi. rewrite childrenOf_beyond by exact Hi. split; constructor.
  - destruct (alloc t h) as [r h1] eqn:Hr.
    destruct (allocAll alloc ts h1) as [rest h2] eqn:Hrest. simplify_eq.
    destruct (Ht _ _ _ Hr) as (Hp1 & Hr1 & Hl1 & Hn1).
    destruct (IH _ _ _ Hrest) as (Hp2 & Hnd & Hids & Hn2).
    pose proof (prefix_length _ _ Hp1) as Hlen1.
    pose proof (prefix_length _ _ Hp2) as Hlen2.
    split; [etrans; eassumption |].
    split.
    { constructor; [| exact Hnd]. intros Hin.
      rewrite Forall_forall in Hids. apply Hids in Hin. lia. }
    split.
    { constructor; [lia |]. eapply Forall_impl; [exact Hids |]. simpl. intros c Hc. lia. }
    intros i Hi. destruct (decide (i < length h1)%nat) as [Hlt | Hge].
    + rewrite (childrenOf_prefix h1 h' i Hp2 Hlt). apply Hn1. exact Hi.
    + destruct (Hn2 i ltac:(lia)) as [Hnd2 Hc2]. split; [exact Hnd2 |].
      eapply Forall_impl; [exact Hc2 |]. simpl. intros c Hc. lia.
Qed.

(** What [alloc] builds: the old store is kept, the root is the last object,
    and the children of each new object are distinct, new and older than
    it. *)
Lemma alloc_spec t :
  ∀ h r h',
    alloc t h = (r, h') →
    h `prefix_of` h'
    ∧ (length h ≤ r)%nat ∧ length h' = S r
    ∧ ∀ i, (length h ≤ i)%nat →
           NoDup (childrenOf h' i)
           ∧ Forall (λ c, (length h ≤ c < i)%nat) (childrenOf h' i).
Proof.
  induction t as [nm attrs sc cl ts IH | v | p] using Tree_children_ind;
    intros h r h' Heq; [rewrite alloc_element in Heq | simpl in Heq ..].
  - destruct (allocAll alloc ts h) as [ids h1] eqn:Hall.
    unfold allocNode in Heq. simplify_eq.
    destruct (allocAll_spec ts IH _ _ _ Hall) as (Hp & Hnd & Hids & Hn).
    pose proof (prefix_length _ _ Hp) as Hlen.
    split; [apply prefix_app_r; exact Hp |].
    split; [lia |]. split; [rewrite length_app; simpl; lia |].
    intros i Hi. rewrite childrenOf_snoc.
    destruct (decide (_ = _)) as [-> | Hne]; simpl.
    + split; [exact Hnd | exact Hids].
    + apply Hn. exact Hi.
  - unfold allocNode in Heq. simplify_eq.
    split; [apply prefix_app_r; reflexivity |].
    split; [lia |]. split; [rewrite length_app; simpl; lia |].
    intros i Hi. rewrite childrenOf_snoc.
    destruct (decide (_ = _)); simpl; [split; constructor |].
    rewrite childrenOf_beyond by lia. split; constructor.
  - unfold allocNode in Heq. simplify_eq.
    split; [apply prefix_app_r; reflexivity |].
    split; [lia |]. split; [rewrite length_app; simpl; lia |].
    intros i Hi. rewrite childrenOf_snoc.
    destruct (decide (_ = _)); simpl; [split; constructor |].
    rewrite childrenOf_beyond by lia. split; constructor.
Qed.

(** A copy made by [clone] is fresh from the old length of the store on. *)
Lemma clone_fresh n h r h' :
  clone n h = (r, h') →
  h `prefix_of` h' ∧ (length h ≤ r < length h')%nat ∧ freshFrom (length h) h'.
Proof.
  unfold clone. intros Heq. destruct (alloc_spec _ _ _ _ Heq) as (Hp & Hr & Hl & Hn).
  split; [exact Hp |]. split; [lia |].
  intros i Hi. destruct (Hn i Hi) as [Hnd Hc]. split; [exact Hnd |].
  destruct (decide (i < length h')%nat) as [Hlt | Hge].
  - eapply Forall_impl; [exact Hc |]. simpl. intros c Hc'. lia.
  - rewrite childrenOf_beyond by lia. constructor.
Qed.

Lemma isElement_lt h n : isElement h n = true → (n < length h)%nat.
Proof.
  unfold isElement, element, NodeId. intros H.
  destruct (_ !! _) eqn:Hn; [| discriminate].
  apply lookup_lt_Some in Hn. exact Hn.
Qed.

Lemma closed_children h i :
  closed h → Forall (λ c, (c < length h)%nat) (childrenOf h i).
Proof.
  intros Hc. unfold childrenOf, element, NodeId in *.
  destruct (_ !! _) as [[e | v | p] |] eqn:Hi; try constructor.
  unfold closed in Hc. rewrite Forall_forall in Hc.
  apply (Hc (NElement e)). apply list_elem_of_lookup. eauto.
Qed.

Lemma walkElement_fresh order L h depth :
  freshFrom L h →
  ∀ parent n x p,
    (L ≤ n)%nat →
    (x, Some p) ∈ walkElement order depth h parent n →
    (parent = Some p ∧ x = n) ∨ ((L ≤ p)%nat ∧ x ∈ childrenOf h p).
Proof.
  intros Hf. induction depth as [| depth IH]; intros parent n x p Hn Hin; simpl in Hin.
  - apply not_elem_of_nil in Hin. contradiction.
  - destruct (element h n) as [e |] eqn:He.
    2:{ apply not_elem_of_nil in Hin. contradiction. }
    assert (Hcases : (x, Some p) = (n, parent)
                     ∨ (x, Some p) ∈ flat_map (walkElement order depth h (Some n)) (children e)).
    { destruct order.
      - apply elem_of_cons in Hin. exact Hin.
      - apply elem_of_app in Hin as [Hin | Hin]; [right; exact Hin |].
        apply list_elem_of_singleton in Hin. left. exact Hin. }
    destruct Hcases as [Heq | Hbelow].
    + left. simplify_eq. auto.
    + right. apply elem_of_flat_map in Hbelow as (c & Hc & Hbelow).
      assert (Hch : childrenOf h n = children e) by (unfold childrenOf; rewrite He; reflexivity).
      assert (Hcl : (L ≤ c)%nat).
      { destruct (Hf n Hn) as [_ Hall]. rewrite Hch, Forall_forall in Hall.
        apply Hall in Hc. lia. }
      apply (IH _ _ _ _ Hcl) in Hbelow as [[Hp ->] | Hbelow]; [| exact Hbelow].
      simplify_eq. split; [exact Hn |]. rewrite Hch. exact Hc.
Qed.

Lemma Obj_set_elem {V : Type} (o : @Obj.t V) k v kv :
  kv ∈ Obj.set o k v → kv ∈ o ∨ kv.2 = v.
Proof.
  induction o as [| [k' v'] o IH]; simpl; intros Hin.
  - apply list_elem_of_singleton in Hin. subst. auto.
  - destruct (decide (k' = k)) as [-> |].
    + apply elem_of_cons in Hin as [-> | Hin]; [auto |].
      left. apply list_elem_of_further. exact Hin.
    + apply elem_of_cons in Hin as [-> | Hin]; [left; apply list_elem_of_here |].
      apply IH in Hin as [Hin | Hin]; [left; apply list_elem_of_further; exact Hin | auto].
Qed.

Lemma collectSlot_spec h ignore ret v w :
  heap (collectSlot h ignore ret v w).2 = heap w
  ∧ ∀ kv, kv ∈ (collectSlot h ignore ret v w).1 →
          kv ∈ ret ∨ v = (snode kv.2, Some (sparent kv.2)).
Proof.
  unfold collectSlot. destruct v as [node [parent |]]; [| simpl; auto].
  destruct (element h node) as [e |]; [| simpl; auto].
  destruct (decide _); [| simpl; auto].
  destruct (truthy _) as [name |]; [| simpl; auto].
  destruct (match ignore with Some _ => _ | None => _ end); simpl; [auto |].
  split; [reflexivity |]. intros kv Hin.
  apply Obj_set_elem in Hin as [Hin | ->]; [auto | right; reflexivity].
Qed.

Lemma foldM_collectSlot_spec h ignore visits :
  ∀ ret w,
    heap (foldM (collectSlot h ignore) visits ret w).2 = heap w
    ∧ ∀ kv, kv ∈ (foldM (collectSlot h ignore) visits ret w).1 →
            kv ∈ ret ∨ (snode kv.2, Some (sparent kv.2)) ∈ visits.
Proof.
  induction visits as [| v visits IH]; intros ret w; simpl.
  - auto.
  - unfold bind. destruct (collectSlot_spec h ignore ret v w) as [Hh Hkv].
    destruct (collectSlot h ignore ret v w) as [ret1 w1]. simpl in Hh, Hkv.
    destruct (IH ret1 w1) as [Hh' Hkv']. split; [congruence |].
    intros kv Hin. apply Hkv' in Hin as [Hin | Hin].
    + apply Hkv in Hin as [Hin | ->]; [auto | right; apply list_elem_of_here].
    + right. apply list_elem_of_further. exact Hin.
Qed.

(** The slot table of a fresh copy: every slot element is a child of its
    parent, a new object; and the copy stays fresh when the default slot is
    added to it. *)
Lemma collectSlots_fresh order L dst w :
  freshFrom L (heap w) → (L ≤ dst)%nat → isElement (heap w) dst = true →
  let r := collectSlots order dst None w in
  freshFrom L (heap r.2)
  ∧ (∀ m, (m < L)%nat → childrenOf (heap r.2) m = childrenOf (heap w) m)
  ∧ Forall (λ kv, (L ≤ sparent kv.2)%nat
                  ∧ (L ≤ snode kv.2)%nat
                  ∧ snode kv.2 ∈ childrenOf (heap r.2) (sparent kv.2)) r.1.
Proof.
  intros Hf Hd Hroot. cbv zeta.
  destruct (foldM_collectSlot_spec (heap w) None (walk order (heap w) (RootElement dst)) [] w)
    as [Hh Hkv].
  assert (Heq : collectSlots order dst None w
                = let '(ret, w1) := foldM (collectSlot (heap w) None)
                                      (walk order (heap w) (RootElement dst)) [] w in
                  match Obj.get ret SLOT_DEFAULT_NAME with
                  | None => (slot <- addDefaultSlot dst ;;
                             pure (Obj.set ret SLOT_DEFAULT_NAME slot)) w1
                  | Some _ => (ret, w1)
                  end).
  { unfold collectSlots, bind at 1, getHeap. unfold bind at 1.
    destruct (foldM (collectSlot _ _) _ [] w) as [ret w1].
    destruct (Obj.get ret SLOT_DEFAULT_NAME); reflexivity. }
  rewrite Heq. clear Heq.
  destruct (foldM (collectSlot _ _) _ [] w) as [ret w1]. simpl in Hh, Hkv.
  assert (Hret : Forall (λ kv, (L ≤ sparent kv.2)%nat
                               ∧ (L ≤ snode kv.2)%nat
                               ∧ snode kv.2 ∈ childrenOf (heap w) (sparent kv.2)) ret).
  { apply Forall_forall. intros kv Hin. apply Hkv in Hin as [Hin | Hin].
    - apply not_elem_of_nil in Hin. contradiction.
    - simpl in Hin. apply (walkElement_fresh order L _ _ Hf) in Hin as [[? _] | [Hp Hx]];
        [discriminate | | exact Hd].
      split; [exact Hp |]. split; [| exact Hx].
      destruct (Hf _ Hp) as [_ Hall]. rewrite Forall_forall in Hall.
      apply Hall in Hx. lia. }
  destruct (Obj.get ret SLOT_DEFAULT_NAME).
  - simpl. rewrite Hh. split; [exact Hf |]. split; [reflexivity | exact Hret].
  - unfold bind, addDefaultSlot, bind, withHeap, allocNode, modifyChildren, modifyHeap.
    simpl. rewrite Hh.
    set (slot := NElement _).
    set (h2 := updateElement _ dst (heap w ++ [slot])).
    assert (Hlen : length h2 = S (length (heap w))).
    { subst h2. unfold updateElement. rewrite length_alter, length_app. simpl. lia. }
    assert (Hch : ∀ m, childrenOf h2 m
                       = if decide (m = dst)
                         then (if isElement (heap w ++ [slot]) dst
                               then childrenOf (heap w ++ [slot]) dst ++ [length (heap w)]
                               else [])
                         else childrenOf (heap w ++ [slot]) m).
    { intros m. subst h2.
      rewrite (childrenOf_setChildren (λ l, l ++ [length (heap w)])). reflexivity. }
    assert (Hsnoc : ∀ m, childrenOf (heap w ++ [slot]) m = childrenOf (heap w) m).
    { intros m. rewrite childrenOf_snoc. destruct (decide (_ = _)) as [-> |].
      - subst slot. simpl. rewrite childrenOf_beyond by lia. reflexivity.
      - reflexivity. }
    assert (Hel : isElement (heap w ++ [slot]) dst = true).
    { unfold isElement, element, NodeId in *. rewrite lookup_app_l; [exact Hroot |].
      destruct (_ !! _) eqn:E; [| discriminate].
      apply lookup_lt_Some in E. exact E. }
    assert (Hsub : ∀ m x, x ∈ childrenOf (heap w) m → x ∈ childrenOf h2 m).
    { intros m x Hx. rewrite Hch. destruct (decide (_ = _)) as [-> |].
      - rewrite (isElement_of_child _ _ x) by (rewrite Hsnoc; exact Hx).
        rewrite Hsnoc. apply elem_of_app. left. exact Hx.
      - rewrite Hsnoc. exact Hx. }
    split; [| split].
    + intros i Hi. rewrite Hch, Hlen. destruct (Hf i Hi) as [Hnd Hall].
      destruct (decide (_ = _)) as [-> |].
      * pose proof (isElement_lt _ _ Hroot) as Hlt.
        rewrite Hel, Hsnoc. split.
        -- apply NoDup_app. split; [exact Hnd |]. split; [| apply NoDup_singleton].
           intros x Hx Hx'. apply list_elem_of_singleton in Hx'. subst x.
           rewrite Forall_forall in Hall. apply Hall in Hx. lia.
        -- apply Forall_app. split.
           ++ eapply Forall_impl; [exact Hall |]. simpl. intros c Hc. lia.
           ++ apply Forall_singleton. lia.
      * rewrite Hsnoc. split; [exact Hnd |].
        eapply Forall_impl; [exact Hall |]. simpl. intros c Hc. lia.
    + intros m Hm. rewrite Hch. destruct (decide (_ = _)); [lia | apply Hsnoc].
    + apply Forall_forall. intros kv Hin.
      apply Obj_set_elem in Hin as [Hin | Heq].
      * rewrite Forall_forall in Hret. destruct (Hret _ Hin) as (Hp & Hs & Hx).
        split; [exact Hp |]. split; [exact Hs |]. apply Hsub. exact Hx.
      * rewrite Heq. simpl. split; [exact Hd |].
        split; [pose proof (isElement_lt _ _ Hroot); lia |].
        rewrite Hch. destruct (decide (_ = _)); [| congruence].
        rewrite Hel. apply elem_of_app. right. apply list_elem_of_here.
Qed.

Lemma sameShape_refl w : sameShape w w.
Proof. unfold sameShape. auto. Qed.

Lemma sameShape_trans a b c : sameShape a b → sameShape b c → sameShape a c.
Proof.
  unfold sameShape. intros (Hl & Hc & He) (Hl' & Hc' & He').
  split; [congruence |]. split; intros m; [rewrite Hc' | rewrite He']; auto.
Qed.

Lemma shape_getHeap : preserves sameShape getHeap.
Proof. intros w. apply sameShape_refl. Qed.

Lemma shape_modifyAttributes n f : preserves sameShape (modifyAttributes n f).
Proof.
  intros w. unfold modifyAttributes, modifyHeap, sameShape. simpl.
  split; [unfold updateElement; apply length_alter |].
  split; intros m.
  - unfold childrenOf. rewrite element_update.
    destruct (decide (_ = _)) as [-> |]; [| reflexivity].
    destruct (element (heap w) n); reflexivity.
  - apply isElement_update.
Qed.

Lemma shape_mergeAttributes src dst : preserves sameShape (mergeAttributes src dst).
Proof.
  unfold mergeAttributes.
  pres_with sameShape_refl sameShape_trans
    ltac:(first [apply shape_getHeap | apply shape_modifyAttributes]).
Qed.

Lemma freshFrom_sameShape L w w' :
  sameShape w w' → freshFrom L (heap w) → freshFrom L (heap w').
Proof.
  intros (Hl & Hc & _) Hf i Hi. rewrite Hc, Hl. apply Hf. exact Hi.
Qed.

Lemma toTree_element d h n e :
  element h n = Some e →
  toTree (S d) h n
  = TElement (openingName e) (attributes e) (selfClosing e) (closingName e)
      (map (toTree d h) (children e)).
Proof.
  unfold element. simpl. destruct (_ !! _) as [[e' | v | p] |]; try discriminate.
  intros [= ->]. reflexivity.
Qed.

Lemma clone_isElement n h r h' :
  isElement h n = true → clone n h = (r, h') → isElement h' r = true.
Proof.
  intros Hel. pose proof (isElement_lt _ _ Hel) as Hlt.
  unfold clone, treeAt. unfold isElement in Hel.
  destruct (element h n) as [e |] eqn:He; [| discriminate].
  destruct (length h) as [| d] eqn:Hd; [lia |].
  rewrite (toTree_element _ _ _ _ He), alloc_element.
  destruct (allocAll alloc _ h) as [ids h1]. unfold allocNode. intros [= <- <-].
  unfold isElement, element, NodeId. rewrite list_lookup_middle by reflexivity. reflexivity.
Qed.

(** What [populateMacro] relies on when it routes the children of the
    use-site: in the fresh copy of the definition every slot of the table is,
    once, among the children of its parent, and no child of the use-site is
    one of these slot elements. *)
Lemma fresh_slot_table order src n w :
  closed (heap w) → (src < length (heap w))%nat → isElement (heap w) n = true →
  let '(dst, w0) := withHeap (clone n) w in
  let '(slots, w1) := (mergeAttributes src dst ;; collectSlots order dst None) w0 in
  Forall (λ kv, snode kv.2 ∈ childrenOf (heap w1) (sparent kv.2)
                ∧ NoDup (childrenOf (heap w1) (sparent kv.2))) slots
  ∧ Forall (λ c, Forall (λ kv, c ≠ snode kv.2) slots) (childrenOf (heap w1) src).
Proof.
  intros Hcl Hsrc Hel. unfold withHeap.
  destruct (clone n (heap w)) as [dst h0] eqn:Hclone.
  destruct (clone_fresh _ _ _ _ Hclone) as (Hpre & Hdst & Hfresh).
  pose proof (clone_isElement _ _ _ _ Hel Hclone) as Hdel.
  set (w0 := mkWorld h0 (source w)).
  unfold bind.
  pose proof (shape_mergeAttributes src dst w0) as Hshape.
  destruct (mergeAttributes src dst w0) as [[] wm]. simpl in Hshape.
  pose proof (freshFrom_sameShape _ _ _ Hshape Hfresh) as Hfm.
  destruct Hshape as (Hlm & Hcm & Hem).
  destruct (collectSlots_fresh order (length (heap w)) dst wm Hfm) as (Hf1 & Hold & Htab).
  { lia. }
  { rewrite Hem. exact Hdel. }
  destruct (collectSlots order dst None wm) as [slots w1]. simpl in Hf1, Hold, Htab.
  split.
  - eapply Forall_impl; [exact Htab |]. simpl. intros kv (Hp & _ & Hin).
    split; [exact Hin |]. apply (Hf1 _ Hp).
  - rewrite Hold by exact Hsrc. rewrite Hcm. subst w0. simpl.
    rewrite (childrenOf_prefix _ _ _ Hpre Hsrc).
    eapply Forall_impl; [apply (closed_children _ src Hcl) |]. simpl. intros c Hc.
    eapply Forall_impl; [exact Htab |]. simpl. intros kv (_ & Hs & _). lia.
Qed.

(** ** What every method keeps

    A relation between the world before and after that the primitive
    operations keep is kept by every method of the loader. *)

Lemma allocAll_prefix one ts :
  (∀ t h, h `prefix_of` (one t h).2) → ∀ h, h `prefix_of` (allocAll one ts h).2.
Proof.
  intros Hone. induction ts as [| t ts IH]; intros h; simpl; [reflexivity |].
  pose proof (Hone t h) as H1. destruct (one t h) as [i h1].
  pose proof (IH h1) as H2. destruct (allocAll one ts h1) as [rest h2].
  simpl in *. etrans; eassumption.
Qed.

Lemma alloc_prefix t h : h `prefix_of` (alloc t h).2.
Proof.
  pose proof (alloc_spec t h) as H. destruct (alloc t h) as [r h'].
  apply (H r h' eq_refl).
Qed.

Lemma allocStatements_prefix body : ∀ h, h `prefix_of` (allocStatements body h).2.
Proof.
  induction body as [| [t |] rest IH]; intros h; simpl; [reflexivity | |].
  - pose proof (alloc_prefix t h) as H1. destruct (alloc t h) as [i h1].
    pose proof (IH h1) as H2. destruct (allocStatements rest h1) as [p h2].
    simpl in *. etrans; eassumption.
  - pose proof (IH h) as H2. destruct (allocStatements rest h) as [p h2]. exact H2.
Qed.

Lemma allocNode_prefix x h : h `prefix_of` (allocNode x h).2.
Proof. apply prefix_app_r. reflexivity. Qed.

Lemma clone_prefix n h : h `prefix_of` (clone n h).2.
Proof. apply alloc_prefix. Qed.

Section Through.
Variable R : World → World → Prop.
Hypothesis R_refl : ∀ w, R w w.
Hypothesis R_trans : ∀ a b c, R a b → R b c → R a c.
Hypothesis R_update : ∀ f n, preserves R (modifyHeap (updateElement f n)).
Hypothesis R_new : ∀ (A : Type) (f : Heap → A * Heap),
  (∀ h, h `prefix_of` (f h).2) → preserves R (withHeap f).
Hypothesis R_error : ∀ t m f, preserves R (pushError t m f).
Hypothesis R_file : ∀ p, preserves R (pushFile p).
Hypothesis R_macro : ∀ k m, preserves R (setMacro k m).

Variables rootPath cwd : string.
Variable fs : string → FileResult.
Variable order : WalkOrder.

Lemma thru_getHeap : preserves R getHeap.
Proof. intros w. apply R_refl. Qed.
Lemma thru_getSource : preserves R getSource.
Proof. intros w. apply R_refl. Qed.
Lemma thru_modifyChildren n f : preserves R (modifyChildren n f).
Proof. apply R_update. Qed.
Lemma thru_modifyAttributes n f : preserves R (modifyAttributes n f).
Proof. apply R_update. Qed.
Lemma thru_allocNode x : preserves R (withHeap (allocNode x)).
Proof. apply R_new. apply allocNode_prefix. Qed.
Lemma thru_clone n : preserves R (withHeap (clone n)).
Proof. apply R_new. apply clone_prefix. Qed.
Lemma thru_allocStatements body : preserves R (withHeap (allocStatements body)).
Proof. apply R_new. apply allocStatements_prefix. Qed.

Ltac thru_with tac :=
  pres_with R_refl R_trans
    ltac:(first [ assumption | tac
                | apply thru_getHeap | apply thru_getSource
                | apply thru_modifyChildren | apply thru_modifyAttributes
                | apply thru_allocNode | apply thru_clone | apply thru_allocStatements
                | apply R_update | apply R_error | apply R_file | apply R_macro ]).
Ltac thru := thru_with fail.

Lemma thru_addDefaultSlot node : preserves R (addDefaultSlot node).
Proof. unfold addDefaultSlot. thru. Qed.

Lemma thru_collectSlot h ignore ret v : preserves R (collectSlot h ignore ret v).
Proof. unfold collectSlot. thru. Qed.

Lemma thru_collectSlots node ignore : preserves R (collectSlots order node ignore).
Proof.
  unfold collectSlots.
  thru_with ltac:(first [apply thru_collectSlot | apply thru_addDefaultSlot]).
Qed.

Lemma thru_routeChild slots node : preserves R (routeChild slots node).
Proof. unfold routeChild. thru. Qed.
Lemma thru_replaceSlot slots key : preserves R (replaceSlot slots key).
Proof. unfold replaceSlot. thru. Qed.
Lemma thru_dropOldSlot slots key : preserves R (dropOldSlot slots key).
Proof. unfold dropOldSlot. thru. Qed.

Lemma thru_populateMacro src dst rs : preserves R (populateMacro order src dst rs).
Proof.
  unfold populateMacro, mergeAttributes, routeChildren, replaceSlots.
  thru_with ltac:(first [ apply thru_collectSlots | apply thru_routeChild
                        | apply thru_replaceSlot ]).
Qed.

Lemma thru_expandMacro use macro rs nesting :
  preserves R (expandMacro order use macro rs nesting).
Proof.
  unfold expandMacro.
  thru_with ltac:(first [ apply thru_populateMacro | apply thru_collectSlots
                        | apply thru_dropOldSlot ]).
Qed.

Lemma thru_collectMacro d : preserves R (collectMacro order d).
Proof. unfold collectMacro. thru_with ltac:(apply thru_expandMacro). Qed.

Lemma thru_applyIncludedAttributes d r : preserves R (applyIncludedAttributes d r).
Proof. unfold applyIncludedAttributes, includeAttribute. thru. Qed.

Section Rec.
Variable parseRec : string → string → nat → bool → option NodeId → M (option Program).
Hypothesis parseRec_thru : ∀ f c n o fr, preserves R (parseRec f c n o fr).

Lemma thru_processDirective currDir nesting d :
  preserves R (processDirective order parseRec currDir nesting d).
Proof.
  unfold processDirective, processInclude.
  thru_with ltac:(first [ apply parseRec_thru | apply thru_collectMacro
                        | apply thru_applyIncludedAttributes ]).
Qed.

Lemma thru_readAndParse pname relPath nesting from :
  preserves R (readAndParse fs order parseRec pname relPath nesting from).
Proof.
  unfold readAndParse, processDirectives, addError.
  thru_with ltac:(apply thru_processDirective).
Qed.

Lemma thru_parseBody fname currDir nesting once from :
  preserves R (parseBody rootPath cwd fs order parseRec fname currDir nesting once from).
Proof.
  unfold parseBody, addError.
  thru_with ltac:(apply thru_readAndParse).
Qed.
End Rec.

Lemma thru_parseAt depth :
  ∀ fname currDir nesting once from,
    preserves R (parseAt rootPath cwd fs order depth fname currDir nesting once from).
Proof.
  induction depth as [| depth IH]; intros; cbn [parseAt];
    destruct (Nat.leb MAX_NESTING nesting);
    try (unfold tooManyInclusions, addError; thru).
  apply thru_parseBody. exact IH.
Qed.

(** [parse] keeps the relation, whatever files it reads. *)
Lemma thru_parse fname currDir nesting once from :
  preserves R (parse rootPath cwd fs order fname currDir nesting once from).
Proof. apply thru_parseAt. Qed.

Lemma thru_expandUse h nesting ee v : preserves R (expandUse order h nesting ee v).
Proof. unfold expandUse. thru_with ltac:(apply thru_expandMacro). Qed.

Lemma thru_replaceUsages again ee :
  (∀ res w w', again res w = Some w' → R w w') →
  ∀ w w', replaceUsages again ee w = Some w' → R w w'.
Proof.
  intros Hagain. induction ee as [| [[use res] parent] ee IH]; intros w w' H.
  - simpl in H. simplify_eq. apply R_refl.
  - cbn [replaceUsages] in H.
    assert (H2 : preserves R (replaceUse use res parent)) by (unfold replaceUse; thru).
    specialize (H2 w).
    destruct (replaceUse use res parent w) as [u w2]. simpl in H2.
    destruct (again res w2) as [w3 |] eqn:E3; [| discriminate].
    apply Hagain in E3. apply IH in H.
    eapply R_trans; [exact H2 |]. eapply R_trans; [exact E3 | exact H].
Qed.

(** [expandMacros] keeps the relation whenever it returns. *)
Lemma thru_expandMacros fuel :
  ∀ root nesting w w', expandMacros order fuel root nesting w = Some w' → R w w'.
Proof.
  induction fuel as [| fuel IH]; intros root nesting w w'; simpl; [discriminate |].
  destruct (foldM _ _ _ w) as [ee w1] eqn:E.
  assert (H1 : R w w1).
  { pose proof (preserves_foldM _ R_refl R_trans
                  (expandUse order (heap w) nesting)
                  (match root with Some r => walk order (heap w) r | None => [] end)
                  (thru_expandUse (heap w) nesting) [] w) as H.
    rewrite E in H. exact H. }
  intros H. apply thru_replaceUsages in H.
  - eapply R_trans; eauto.
  - intros res v v' Hv. eapply IH. exact Hv.
Qed.
End Through.

(** ** Writes go to new objects *)

Lemma keepsOld_refl L w : keepsOld L w w.
Proof. intros H. auto. Qed.

Lemma keepsOld_trans L a b c : keepsOld L a b → keepsOld L b c → keepsOld L a c.
Proof.
  intros Hab Hbc Ha. destruct (Hab Ha) as [Hb Eb]. destruct (Hbc Hb) as [Hc Ec].
  split; [exact Hc | congruence].
Qed.

Lemma keepsOld_update L f n :
  (L ≤ n)%nat → preserves (keepsOld L) (modifyHeap (updateElement f n)).
Proof.
  intros Hn w Hw. simpl. unfold updateElement.
  rewrite length_alter, take_alter_ge by exact Hn. auto.
Qed.

Lemma keepsOld_new L (A : Type) (f : Heap → A * Heap) :
  (∀ h, h `prefix_of` (f h).2) → preserves (keepsOld L) (withHeap f).
Proof.
  intros Hf w Hw. unfold withHeap. specialize (Hf (heap w)).
  destruct (f (heap w)) as [a h']. simpl in *. destruct Hf as [k ->].
  rewrite length_app, take_app_le by exact Hw. split; [lia | reflexivity].
Qed.

Lemma keepsOld_source L f : preserves (keepsOld L) (modifySource f).
Proof. intros w. exact (keepsOld_refl L w). Qed.

Lemma keepsOld_prefix w w' : keepsOld (length (heap w)) w w' → heap w `prefix_of` heap w'.
Proof.
  intros H. destruct (H (le_n _)) as [_ E]. rewrite firstn_all in E.
  rewrite <- E. apply prefix_take.
Qed.

Lemma prefix_keepsOld L w w' : heap w `prefix_of` heap w' → keepsOld L w w'.
Proof.
  intros [k E] Hw. rewrite E, length_app, take_app_le by exact Hw.
  split; [lia | reflexivity].
Qed.

Ltac old_with L tac :=
  pres_with (keepsOld_refl L) (keepsOld_trans L)
    ltac:(first [ assumption | tac
                | apply keepsOld_source
                | apply keepsOld_update; assumption
                | apply keepsOld_new;
                  first [apply allocNode_prefix | apply clone_prefix
                        | apply allocStatements_prefix]
                | exact (λ w, keepsOld_refl L w) ]).

Lemma old_mergeAttributes L src dst :
  (L ≤ dst)%nat → preserves (keepsOld L) (mergeAttributes src dst).
Proof. intros Hd. unfold mergeAttributes, modifyAttributes, getHeap. old_with L fail. Qed.

Lemma old_collectSlots L order dst ignore :
  (L ≤ dst)%nat → preserves (keepsOld L) (collectSlots order dst ignore).
Proof.
  intros Hd.
  unfold collectSlots, collectSlot, addDefaultSlot, modifyChildren, pushError, getHeap.
  old_with L fail.
Qed.

Section OldSlots.
Variable L : nat.
Variable slots : SlotMap.
Hypothesis slots_new : Forall (λ kv, (L ≤ sparent kv.2)%nat) slots.

Lemma slot_parent_new k slot : Obj.get slots k = Some slot → (L ≤ sparent slot)%nat.
Proof.
  intros Hk. apply Obj_get_elem in Hk. rewrite Forall_forall in slots_new.
  apply (slots_new _ Hk).
Qed.

Lemma old_routeChild node : preserves (keepsOld L) (routeChild slots node).
Proof.
  intros w. unfold routeChild, bind, getHeap.
  destruct (Obj.get slots _) as [slot |] eqn:Hk; [| apply keepsOld_refl].
  apply keepsOld_update. eapply slot_parent_new. exact Hk.
Qed.

Lemma old_replaceSlot key : preserves (keepsOld L) (replaceSlot slots key).
Proof.
  intros w. unfold replaceSlot.
  destruct (Obj.get slots key) as [slot |] eqn:Hk; [| apply keepsOld_refl].
  unfold bind, getHeap. apply keepsOld_update. eapply slot_parent_new. exact Hk.
Qed.

Lemma old_dropOldSlot key : preserves (keepsOld L) (dropOldSlot slots key).
Proof.
  intros w. unfold dropOldSlot.
  destruct (Obj.get slots key) as [slot |] eqn:Hk; [| apply keepsOld_refl].
  unfold bind, getHeap. apply keepsOld_update. eapply slot_parent_new. exact Hk.
Qed.

Lemma old_routeChildren src : preserves (keepsOld L) (routeChildren slots src).
Proof. unfold routeChildren, getHeap. old_with L ltac:(apply old_routeChild). Qed.

Lemma old_replaceSlots : preserves (keepsOld L) (replaceSlots slots).
Proof. unfold replaceSlots. old_with L ltac:(apply old_replaceSlot). Qed.
End OldSlots.

(** The parents in the slot table of a fresh copy are objects of the copy. *)
Lemma collectSlots_parents order L dst w :
  freshFrom L (heap w) → (L ≤ dst)%nat →
  Forall (λ kv, (L ≤ sparent kv.2)%nat) (collectSlots order dst None w).1.
Proof.
  intros Hf Hd.
  destruct (foldM_collectSlot_spec (heap w) None (walk order (heap w) (RootElement dst)) [] w)
    as [_ Hkv].
  unfold collectSlots, bind at 1, getHeap. unfold bind at 1.
  destruct (foldM (collectSlot _ _) _ [] w) as [ret w1]. simpl in Hkv.
  assert (Hret : Forall (λ kv, (L ≤ sparent kv.2)%nat) ret).
  { apply Forall_forall. intros kv Hin. apply Hkv in Hin as [Hin | Hin].
    - apply not_elem_of_nil in Hin. contradiction.
    - simpl in Hin. apply (walkElement_fresh order L _ _ Hf) in Hin as [[? _] | [Hp _]];
        [discriminate | exact Hp | exact Hd]. }
  destruct (Obj.get ret SLOT_DEFAULT_NAME); [exact Hret |].
  unfold bind. destruct (addDefaultSlot dst w1) as [slot w2] eqn:Hs. simpl.
  apply Forall_forall. intros kv Hin.
  apply Obj_set_elem in Hin as [Hin | Heq].
  - rewrite Forall_forall in Hret. apply (Hret _ Hin).
  - rewrite Heq. unfold addDefaultSlot, bind, withHeap, allocNode, modifyChildren,
      modifyHeap, pure in Hs. simpl in Hs. injection Hs as <- _. exact Hd.
Qed.

Lemma old_populateMacro order L src dst rs w :
  freshFrom L (heap w) → (L ≤ dst)%nat →
  let r := populateMacro order src dst rs w in
  keepsOld L w r.2 ∧ Forall (λ kv, (L ≤ sparent kv.2)%nat) r.1.
Proof.
  intros Hf Hd. cbv zeta. unfold populateMacro, bind.
  pose proof (old_mergeAttributes L src dst Hd w) as H1.
  pose proof (shape_mergeAttributes src dst w) as Hs.
  destruct (mergeAttributes src dst w) as [[] w1]. simpl in H1, Hs.
  apply (freshFrom_sameShape L) in Hs; [| exact Hf].
  pose proof (old_collectSlots L order dst None Hd w1) as H2.
  pose proof (collectSlots_parents order L dst w1 Hs Hd) as Hp.
  destruct (collectSlots order dst None w1) as [slots w2]. simpl in H2, Hp.
  pose proof (old_routeChildren L slots Hp src w2) as H3.
  destruct (routeChildren slots src w2) as [[] w3]. simpl in H3.
  assert (H13 : keepsOld L w w3).
  { eapply keepsOld_trans; [exact H1 |]. eapply keepsOld_trans; [exact H2 | exact H3]. }
  destruct rs; simpl.
  - pose proof (old_replaceSlots L slots Hp w3) as H4.
    destruct (replaceSlots slots w3) as [[] w4]. simpl in *.
    split; [eapply keepsOld_trans; eassumption | constructor].
  - split; [exact H13 | exact Hp].
Qed.

(** [expandMacro] writes to the objects of its copy only. *)
Lemma expandMacro_prefix order use macro rs nesting w :
  heap w `prefix_of` heap (expandMacro order use macro rs nesting w).2.
Proof.
  unfold expandMacro. destruct (Nat.ltb MAX_NESTING nesting); [reflexivity |].
  apply keepsOld_prefix. set (L := length (heap w)). unfold bind at 1.
  pose proof (keepsOld_new L _ _ (clone_prefix (mnode macro)) w) as H0.
  unfold withHeap in *.
  destruct (clone (mnode macro) (heap w)) as [ret h0] eqn:Hclone. simpl in H0.
  destruct (clone_fresh _ _ _ _ Hclone) as (_ & Hret & Hfresh).
  set (w0 := mkWorld h0 (source w)) in *.
  assert (Hd : (L ≤ ret)%nat) by (subst L; lia).
  unfold bind at 1.
  destruct (old_populateMacro order L use ret rs w0 Hfresh Hd) as [H1 Hp].
  destruct (populateMacro order use ret rs w0) as [oldSlots w1]. simpl in H1, Hp.
  eapply keepsOld_trans; [exact H0 |]. eapply keepsOld_trans; [exact H1 |].
  unfold bind at 1.
  assert (H2 : preserves (keepsOld L)
                 (if negb rs
                  then newSlots <- collectSlots order ret (Some oldSlots) ;;
                       forEach (Obj.ownKeys newSlots) (dropOldSlot oldSlots)
                  else pure tt)).
  { destruct rs; simpl; [exact (λ w, keepsOld_refl L w) |].
    apply (preserves_bind _ (keepsOld_trans L)); [apply old_collectSlots; exact Hd |].
    intros ns. apply (preserves_forEach _ (keepsOld_refl L) (keepsOld_trans L)).
    intros key. apply old_dropOldSlot. exact Hp. }
  specialize (H2 w1). destruct (_ w1) as [[] w2]. exact H2.
Qed.

(** ** A copy has the tree of its original *)

Lemma toTree_prefix d :
  ∀ (h h' : Heap) n, h `prefix_of` h' → closed h → (n < length h)%nat →
    toTree d h' n = toTree d h n.
Proof.
  induction d as [| d IH]; intros h h' n Hp Hc Hn; simpl; [reflexivity |].
  unfold NodeId in *. rewrite <- (prefix_lookup_lt h h' n Hn Hp).
  destruct (h !! n) as [[e | v | p] |] eqn:E; try reflexivity.
  f_equal. apply map_ext_in. intros c Hin. apply IH; [exact Hp | exact Hc |].
  unfold closed in Hc. rewrite Forall_forall in Hc.
  specialize (Hc (NElement e)). simpl in Hc. rewrite Forall_forall in Hc.
  apply Hc; [apply list_elem_of_lookup; eauto | apply list_elem_of_In; exact Hin].
Qed.

Lemma allocAll_toTree ts :
  Forall (λ t, ∀ h r h',
            alloc t h = (r, h') →
            ∀ d h'', h' `prefix_of` h'' → (length h' - length h ≤ d)%nat →
                     toTree d h'' r = t) ts →
  ∀ h ids h',
    allocAll alloc ts h = (ids, h') →
    ∀ d h'', h' `prefix_of` h'' → (length h' - length h ≤ d)%nat →
             map (toTree d h'') ids = ts.
Proof.
  induction 1 as [| t ts Ht _ IH]; intros h ids h' Heq d h'' Hp Hd; simpl in Heq.
  - simplify_eq. reflexivity.
  - destruct (alloc t h) as [r h1] eqn:Hr.
    destruct (allocAll alloc ts h1) as [rest h2] eqn:Hrest. simplify_eq.
    pose proof (alloc_prefix t h) as P1. rewrite Hr in P1. simpl in P1.
    pose proof (allocAll_prefix alloc ts alloc_prefix h1) as P2.
    rewrite Hrest in P2. simpl in P2.
    pose proof (prefix_length _ _ P1). pose proof (prefix_length _ _ P2).
    simpl. f_equal.
    + apply (Ht _ _ _ Hr); [etrans; eassumption | lia].
    + apply (IH _ _ _ Hrest); [exact Hp | lia].
Qed.

(** Reading back what [alloc] has built gives the tree it was built from. *)
Lemma alloc_toTree t :
  ∀ h r h',
    alloc t h = (r, h') →
    ∀ d h'', h' `prefix_of` h'' → (length h' - length h ≤ d)%nat →
             toTree d h'' r = t.
Proof.
  induction t as [nm attrs sc cl ts IH | v | p] using Tree_children_ind;
    intros h r h' Heq d h'' Hp Hd; [rewrite alloc_element in Heq | simpl in Heq ..].
  - destruct (allocAll alloc ts h) as [ids h1] eqn:Hall.
    unfold allocNode in Heq. simplify_eq.
    pose proof (allocAll_prefix alloc ts alloc_prefix h) as P1.
    rewrite Hall in P1. simpl in P1. pose proof (prefix_length _ _ P1) as Hlen.
    rewrite length_app in Hd. simpl in Hd.
    destruct d as [| d]; [lia |]. simpl.
    assert (E : h'' !! length h1 = Some (NElement (mkElement nm attrs sc cl ids))).
    { eapply prefix_lookup_Some; [| exact Hp]. apply list_lookup_middle. reflexivity. }
    unfold NodeId in *. rewrite E. simpl. f_equal.
    apply (allocAll_toTree ts IH _ _ _ Hall); [| lia].
    etrans; [| exact Hp]. apply prefix_app_r. reflexivity.
  - unfold allocNode in Heq. simplify_eq.
    rewrite length_app in Hd. simpl in Hd. destruct d as [| d]; [lia |]. simpl.
    assert (E : h'' !! length h = Some (NText v)).
    { eapply prefix_lookup_Some; [| exact Hp]. apply list_lookup_middle. reflexivity. }
    unfold NodeId in *. rewrite E. reflexivity.
  - unfold allocNode in Heq. simplify_eq.
    rewrite length_app in Hd. simpl in Hd. destruct d as [| d]; [lia |]. simpl.
    assert (E : h'' !! length h = Some (NOther p)).
    { eapply prefix_lookup_Some; [| exact Hp]. apply list_lookup_middle. reflexivity. }
    unfold NodeId in *. rewrite E. reflexivity.
Qed.

(** Below the depth limit [expandMacro] returns its copy, a new object. *)
Lemma expandMacro_result order use macro rs nesting w :
  Nat.ltb MAX_NESTING nesting = false →
  let r := expandMacro order use macro rs nesting w in
  (length (heap w) ≤ r.1 < length (heap r.2))%nat.
Proof.
  intros Hn. cbv zeta.
  destruct (expandMacro order use macro rs nesting w) as [r wf] eqn:E.
  revert E. unfold expandMacro. rewrite Hn.
  unfold bind at 1, withHeap.
  destruct (clone (mnode macro) (heap w)) as [ret h0] eqn:Hclone.
  destruct (clone_fresh _ _ _ _ Hclone) as (_ & Hret & _).
  set (w0 := mkWorld h0 (source w)).
  set (R := λ a b : World, (length (heap a) ≤ length (heap b))%nat).
  assert (Rr : ∀ x, R x x) by (intros x; unfold R; lia).
  assert (Rt : ∀ a b c, R a b → R b c → R a c) by (unfold R; intros a b c; lia).
  assert (Ru : ∀ f n, preserves R (modifyHeap (updateElement f n))).
  { intros f n x. unfold R, updateElement. simpl. rewrite length_alter. lia. }
  assert (Rn : ∀ (A : Type) (f : Heap → A * Heap),
             (∀ h, h `prefix_of` (f h).2) → preserves R (withHeap f)).
  { intros A f Hf x. unfold R, withHeap. specialize (Hf (heap x)).
    destruct (f (heap x)) as [a h']. simpl in *. apply prefix_length. exact Hf. }
  assert (Re : ∀ t m f, preserves R (pushError t m f)).
  { intros t m f x. unfold R. simpl. lia. }
  unfold bind at 1.
  pose proof (thru_populateMacro R Rr Rt Ru Rn Re order use ret rs w0) as H1.
  destruct (populateMacro order use ret rs w0) as [oldSlots w1]. simpl in H1.
  assert (H2 : preserves R
                 (if negb rs
                  then newSlots <- collectSlots order ret (Some oldSlots) ;;
                       forEach (Obj.ownKeys newSlots) (dropOldSlot oldSlots)
                  else pure tt)).
  { destruct rs; simpl; [exact (λ x, Rr x) |].
    apply (preserves_bind _ Rt); [apply (thru_collectSlots R Rr Rt Ru Rn Re) |].
    intros ns. apply (preserves_forEach _ Rr Rt).
    intros key. apply (thru_dropOldSlot R Rr Rt Ru). }
  specialize (H2 w1). unfold bind at 1. destruct (_ w1) as [[] w2].
  intros [= <- <-]. unfold R in H1, H2. subst w0. simpl in *. lia.
Qed.

(** ** The session and the store only grow *)

Lemma sessionGrows_refl w : sessionGrows w w.
Proof. unfold sessionGrows. auto. Qed.

Lemma sessionGrows_trans a b c : sessionGrows a b → sessionGrows b c → sessionGrows a c.
Proof.
  unfold sessionGrows. intros (He & Hf & Hm) (He' & Hf' & Hm').
  split; [etrans; eassumption |]. split; [etrans; eassumption | auto].
Qed.

Lemma storeGrows_refl w : storeGrows w w.
Proof.
  intros n [e | v | p] Hn; [| exact Hn ..].
  unfold isElement, element, NodeId in *. rewrite Hn. reflexivity.
Qed.

Lemma storeGrows_trans a b c : storeGrows a b → storeGrows b c → storeGrows a c.
Proof.
  intros Hab Hbc n x Hn. specialize (Hab n x Hn). destruct x as [e | v | p].
  - revert Hab. unfold isElement at 1, element.
    destruct (heap b !! _) as [[e' | v' | p'] |] eqn:Hb; intros Hab; try discriminate.
    apply (Hbc n (NElement e') Hb).
  - apply (Hbc n _ Hab).
  - apply (Hbc n _ Hab).
Qed.

Lemma storeGrows_update f n : preserves storeGrows (modifyHeap (updateElement f n)).
Proof.
  intros w m x Hm. simpl. destruct x as [e | v | p].
  - rewrite isElement_update. unfold isElement, element, NodeId in *.
    rewrite Hm. reflexivity.
  - unfold updateElement. destruct (decide (m = n)) as [-> | Hne].
    + rewrite list_lookup_alter_eq. unfold NodeId in *. rewrite Hm. reflexivity.
    + rewrite list_lookup_alter_ne by congruence. exact Hm.
  - unfold updateElement. destruct (decide (m = n)) as [-> | Hne].
    + rewrite list_lookup_alter_eq. unfold NodeId in *. rewrite Hm. reflexivity.
    + rewrite list_lookup_alter_ne by congruence. exact Hm.
Qed.

Lemma storeGrows_new (A : Type) (f : Heap → A * Heap) :
  (∀ h, h `prefix_of` (f h).2) → preserves storeGrows (withHeap f).
Proof.
  intros Hf w m x Hm. unfold withHeap. specialize (Hf (heap w)).
  destruct (f (heap w)) as [a h']. simpl in *.
  pose proof (prefix_lookup_Some _ _ _ _ Hm Hf) as Hm'.
  destruct x; [| exact Hm' ..].
  unfold isElement, element, NodeId in *. rewrite Hm'. reflexivity.
Qed.

Lemma storeGrows_source f : preserves storeGrows (modifySource f).
Proof. intros w. exact (storeGrows_refl w). Qed.

Lemma sessionGrows_heap f : preserves sessionGrows (modifyHeap f).
Proof. intros w. exact (sessionGrows_refl w). Qed.

Lemma sessionGrows_new (A : Type) (f : Heap → A * Heap) :
  (∀ h, h `prefix_of` (f h).2) → preserves sessionGrows (withHeap f).
Proof.
  intros _ w. unfold withHeap. destruct (f (heap w)). exact (sessionGrows_refl w).
Qed.

Lemma sessionGrows_error t m f : preserves sessionGrows (pushError t m f).
Proof.
  intros w. unfold sessionGrows. simpl.
  split; [apply prefix_app_r; reflexivity | auto].
Qed.

Lemma sessionGrows_file p : preserves sessionGrows (pushFile p).
Proof.
  intros w. unfold sessionGrows. simpl.
  split; [reflexivity |]. split; [apply prefix_app_r; reflexivity | auto].
Qed.

Lemma sessionGrows_macro k m : preserves sessionGrows (setMacro k m).
Proof.
  intros w. unfold sessionGrows. simpl.
  split; [reflexivity |]. split; [reflexivity |].
  intros k' Hk'. destruct (decide (k' = k)) as [-> | Hne].
  - rewrite lookup_insert_eq. eauto.
  - rewrite lookup_insert_ne by congruence. exact Hk'.
Qed.

Lemma parse_sessionGrows rootPath cwd fs order fname currDir nesting once from :
  preserves sessionGrows (parse rootPath cwd fs order fname currDir nesting once from).
Proof.
  apply (thru_parse sessionGrows sessionGrows_refl sessionGrows_trans
           (λ f n, sessionGrows_heap _) sessionGrows_new sessionGrows_error
           sessionGrows_file sessionGrows_macro).
Qed.

Lemma parse_storeGrows rootPath cwd fs order fname currDir nesting once from :
  preserves storeGrows (parse rootPath cwd fs order fname currDir nesting once from).
Proof.
  apply (thru_parse storeGrows storeGrows_refl storeGrows_trans
           storeGrows_update storeGrows_new
           (λ t m f, storeGrows_source _) (λ p, storeGrows_source _)
           (λ k m, storeGrows_source _)).
Qed.

(** ** The slot table of a copy *)

Lemma Obj_get_set_eq {V : Type} (o : @Obj.t V) k v : Obj.get (Obj.set o k v) k = Some v.
Proof.
  induction o as [| [k' v'] o IH]; simpl.
  - rewrite decide_True by reflexivity. reflexivity.
  - destruct (decide (k' = k)) as [-> | Hne]; simpl.
    + rewrite decide_True by reflexivity. reflexivity.
    + rewrite decide_False by exact Hne. exact IH.
Qed.

(** Without a table to ignore, [collectSlots] always has a slot [default]. *)
Lemma collectSlots_default order node w :
  is_Some (Obj.get (collectSlots order node None w).1 SLOT_DEFAULT_NAME).
Proof.
  unfold collectSlots, bind at 1, getHeap. unfold bind at 1.
  destruct (foldM (collectSlot _ _) _ [] w) as [ret w1].
  destruct (Obj.get ret SLOT_DEFAULT_NAME) as [s |] eqn:E.
  - simpl. rewrite E. eauto.
  - unfold bind. destruct (addDefaultSlot node w1) as [slot w2]. simpl.
    rewrite Obj_get_set_eq. eauto.
Qed.

Lemma keepsOld_lookup L w w' (c : nat) :
  keepsOld L w w' → (L ≤ length (heap w))%nat → (c < L)%nat →
  heap w' !! c = heap w !! c.
Proof.
  intros H Hl Hc. destruct (H Hl) as [_ E].
  rewrite <- (lookup_take_lt (heap w') L c Hc), E. apply lookup_take_lt. exact Hc.
Qed.

Lemma routedChildren_elem slots h cs p l c s :
  c ∈ cs → targetSlot slots h c = Some (mkSlot s p) → s ∈ l →
  c ∈ routedChildren slots h cs p l.
Proof.
  intros Hc Ht Hs. unfold routedChildren. apply elem_of_flat_map.
  exists s. split; [exact Hs |]. apply elem_of_app. left.
  unfold routedTo. apply list_elem_of_filter. split; [exact Ht | exact Hc].
Qed.

Lemma filter_ext_elem {A : Type} (P Q : A → Prop)
    `{∀ x, Decision (P x)} `{∀ x, Decision (Q x)} (l : list A) :
  (∀ x, x ∈ l → P x ↔ Q x) → filter P l = filter Q l.
Proof.
  induction l as [| a l IH]; intros Hpq; [reflexivity |].
  rewrite !filter_cons.
  assert (Ha : P a ↔ Q a) by (apply Hpq; apply list_elem_of_here).
  rewrite IH by (intros x Hx; apply Hpq; apply list_elem_of_further; exact Hx).
  destruct (decide (P a)), (decide (Q a)); tauto.
Qed.

(** ** [parse] writes to the objects it makes *)

Lemma allocStatements_spec body :
  ∀ h p h',
    allocStatements body h = (p, h') →
    h `prefix_of` h'
    ∧ Forall (λ st, match st with
                    | ExpressionStatement i => (length h ≤ i < length h')%nat
                    | OtherStatement => True
                    end) p
    ∧ ∀ i, (length h ≤ i)%nat →
           NoDup (childrenOf h' i)
           ∧ Forall (λ c, (length h ≤ c < i)%nat) (childrenOf h' i).
Proof.
  induction body as [| [t |] rest IH]; intros h p h' Heq; simpl in Heq.
  - simplify_eq. split; [reflexivity |]. split; [constructor |].
    intros i Hi. rewrite childrenOf_beyond by exact Hi. split; constructor.
  - destruct (alloc t h) as [r h1] eqn:Hr.
    destruct (allocStatements rest h1) as [p' h2] eqn:Hrest. simplify_eq.
    destruct (alloc_spec _ _ _ _ Hr) as (Hp1 & Hr1 & Hl1 & Hn1).
    destruct (IH _ _ _ Hrest) as (Hp2 & Hst & Hn2).
    pose proof (prefix_length _ _ Hp1) as Hlen1.
    pose proof (prefix_length _ _ Hp2) as Hlen2.
    split; [etrans; eassumption |]. split.
    + constructor; [lia |]. eapply Forall_impl; [exact Hst |].
      intros [i |]; simpl; [lia | auto].
    + intros i Hi. destruct (decide (i < length h1)%nat) as [Hlt | Hge].
      * rewrite (childrenOf_prefix h1 h' i Hp2 Hlt). apply Hn1. exact Hi.
      * destruct (Hn2 i ltac:(lia)) as [Hnd2 Hc2]. split; [exact Hnd2 |].
        eapply Forall_impl; [exact Hc2 |]. simpl. intros c Hc. lia.
  - destruct (allocStatements rest h) as [p' h2] eqn:Hrest. simplify_eq.
    destruct (IH _ _ _ Hrest) as (Hp2 & Hst & Hn2).
    split; [exact Hp2 |]. split; [constructor; [exact I | exact Hst] | exact Hn2].
Qed.

Lemma allocStatements_fresh body h p h' :
  allocStatements body h = (p, h') → freshFrom (length h) h'.
Proof.
  intros Heq. destruct (allocStatements_spec _ _ _ _ Heq) as (_ & _ & Hn).
  intros i Hi. destruct (Hn i Hi) as [Hnd Hc]. split; [exact Hnd |].
  destruct (decide (i < length h')%nat) as [Hlt | Hge].
  - eapply Forall_impl; [exact Hc |]. simpl. intros c Hc'. lia.
  - rewrite childrenOf_beyond by lia. constructor.
Qed.

(** The directives found in a fresh program are objects of that program. *)
Lemma directives_fresh order L h program :
  freshFrom L h →
  Forall (λ st, match st with
                | ExpressionStatement i => (L ≤ i)%nat
                | OtherStatement => True
                end) program →
  Forall (λ d, (L ≤ dnode d)%nat ∧ (L ≤ dparent d)%nat)
    (omap (directiveOf h) (walk order h (RootProgram program))).
Proof.
  intros Hf Hst. apply Forall_forall. intros d Hd.
  apply list_elem_of_omap in Hd as ([x [p |]] & Hin & Hdir); [| discriminate].
  assert (Hd : dnode d = x ∧ dparent d = p).
  { unfold directiveOf in Hdir. destruct (element h x) as [e |]; [| discriminate].
    destruct (openingName e) as [name | pl]; [| discriminate].
    destruct (JS.startsWith name TAGS_PREFIX); [| discriminate].
    simplify_eq. auto. }
  destruct Hd as [-> ->]. simpl in Hin.
  apply elem_of_flat_map in Hin as ([i |] & Hi & Hin);
    [| apply not_elem_of_nil in Hin; contradiction].
  rewrite Forall_forall in Hst. specialize (Hst _ Hi). simpl in Hst.
  apply (walkElement_fresh order L _ _ Hf) in Hin as [[? _] | [Hp Hx]];
    [discriminate | | exact Hst].
  split; [| exact Hp]. destruct (Hf _ Hp) as [_ Hall].
  rewrite Forall_forall in Hall. apply Hall in Hx. lia.
Qed.

Lemma preserves_forEach_Forall {A : Type} (R : World → World → Prop) (P : A → Prop)
    (l : list A) (body : A → M unit) :
  (∀ w, R w w) → (∀ a b c, R a b → R b c → R a c) →
  (∀ x, P x → preserves R (body x)) → Forall P l → preserves R (forEach l body).
Proof.
  intros Rr Rt Hb Hl. induction Hl as [| x l Hx _ IH]; simpl.
  - apply (preserves_pure _ Rr).
  - apply (preserves_bind _ Rt); [apply Hb; exact Hx | intros _; exact IH].
Qed.

Section OldObjects.
Variables rootPath cwd : string.
Variable fs : string → FileResult.
Variable order : WalkOrder.

Section Rec.
Variable parseRec : string → string → nat → bool → option NodeId → M (option Program).
Hypothesis parseRec_prefix : ∀ f c n o fr w, heap w `prefix_of` heap (parseRec f c n o fr w).2.

Lemma old_parseRec L f c n o fr : preserves (keepsOld L) (parseRec f c n o fr).
Proof. intros w. apply prefix_keepsOld. apply parseRec_prefix. Qed.

Lemma old_expandMacro L use macro rs nesting :
  preserves (keepsOld L) (expandMacro order use macro rs nesting).
Proof. intros w. apply prefix_keepsOld. apply expandMacro_prefix. Qed.

Lemma old_processDirective L currDir nesting d :
  (L ≤ dnode d)%nat → (L ≤ dparent d)%nat →
  preserves (keepsOld L) (processDirective order parseRec currDir nesting d).
Proof.
  intros Hn Hp.
  unfold processDirective, processInclude, collectMacro, applyIncludedAttributes,
    includeAttribute, modifyChildren, modifyAttributes, pushError, setMacro, getHeap,
    getSource.
  old_with L ltac:(first [apply old_parseRec | apply old_expandMacro]).
Qed.

Lemma readAndParse_prefix pname relPath nesting from w :
  heap w `prefix_of` heap (readAndParse fs order parseRec pname relPath nesting from w).2.
Proof.
  unfold readAndParse. destruct (fs pname) as [| e | body]; [reflexivity .. |].
  unfold bind at 1, withHeap.
  destruct (allocStatements body (heap w)) as [program h'] eqn:Halloc.
  destruct (allocStatements_spec _ _ _ _ Halloc) as (Hpre & Hst & _).
  pose proof (allocStatements_fresh _ _ _ _ Halloc) as Hfresh.
  unfold bind at 1, getHeap at 1. cbn [heap].
  destruct (rootIsElement h' program); [| exact Hpre].
  set (w1 := mkWorld h' (source w)).
  assert (Hdirs : preserves (keepsOld (length (heap w)))
                    (forEach (omap (directiveOf h') (walk order h' (RootProgram program)))
                       (processDirective order parseRec (Path.dirname relPath) nesting))).
  { apply (preserves_forEach_Forall _
             (λ d, (length (heap w) ≤ dnode d)%nat ∧ (length (heap w) ≤ dparent d)%nat)).
    - apply keepsOld_refl.
    - apply keepsOld_trans.
    - intros d [Hn Hp]. apply old_processDirective; assumption.
    - apply directives_fresh; [exact Hfresh |].
      eapply Forall_impl; [exact Hst |]. intros [i |]; simpl; [lia | auto]. }
  specialize (Hdirs w1).
  apply keepsOld_prefix. eapply keepsOld_trans.
  { apply (prefix_keepsOld _ w w1). exact Hpre. }
  unfold bind at 1, processDirectives, bind at 1, getHeap at 1. cbn [heap w1].
  destruct (forEach _ _ w1) as [[] w2]. exact Hdirs.
Qed.

Lemma parseBody_prefix fname currDir nesting once from w :
  heap w `prefix_of`
    heap (parseBody rootPath cwd fs order parseRec fname currDir nesting once from w).2.
Proof.
  unfold parseBody.
  destruct (negb (JS.startsWith _ rootPath)); [reflexivity |].
  unfold bind at 1, getSource at 1.
  destruct (negb (JS.includes _ (files (source w)))).
  - unfold bind at 1. apply (readAndParse_prefix _ _ _ _ (pushFile _ w).2).
  - destruct once; [reflexivity | apply readAndParse_prefix].
Qed.
End Rec.

Lemma parseAt_prefix depth :
  ∀ fname currDir nesting once from w,
    heap w `prefix_of`
      heap (parseAt rootPath cwd fs order depth fname currDir nesting once from w).2.
Proof.
  induction depth as [| depth IH]; intros; cbn [parseAt];
    destruct (Nat.leb MAX_NESTING nesting); try reflexivity.
  apply parseBody_prefix. exact IH.
Qed.

(** [parse] writes to no object that was there when it was called. *)
Lemma parse_prefix fname currDir nesting once from w :
  heap w `prefix_of` heap (parse rootPath cwd fs order fname currDir nesting once from w).2.
Proof. apply parseAt_prefix. Qed.
End OldObjects.

(** ** What [parse] hangs under the objects it makes *)

Lemma childrenOf_update_same f n h m :
  (∀ e, children (f e) = children e) →
  childrenOf (updateElement f n h) m = childrenOf h m.
Proof.
  intros Hf. unfold childrenOf. rewrite element_update.
  destruct (decide (m = n)) as [-> |]; [| reflexivity].
  destruct (element h n); simpl; [apply Hf | reflexivity].
Qed.

Lemma Forall_splice {A : Type} (P : A → Prop) s k items l :
  Forall P items → Forall P l → Forall P (JS.splice s k items l).
Proof.
  intros Hi Hl. unfold JS.splice. apply Forall_app. split; [apply Forall_take; exact Hl |].
  apply Forall_app. split; [exact Hi | apply Forall_drop; exact Hl].
Qed.

Lemma Forall_removeAt {A : Type} (P : A → Prop) i l :
  Forall P l → Forall P (JS.removeAt i l).
Proof.
  intros Hl. unfold JS.removeAt. destruct (0 <=? i)%Z; [| exact Hl].
  apply Forall_splice; [constructor | exact Hl].
Qed.

Lemma Forall_trimIncluded (P : NodeId → Prop) h nn :
  Forall P nn → Forall P (trimIncluded h nn).
Proof.
  intros Hnn. unfold trimIncluded.
  set (nn1 := match nn with
              | n :: _ => if isBlankText h n then JS.shift nn else nn
              | [] => nn
              end).
  assert (H1 : Forall P nn1).
  { subst nn1. destruct Hnn as [| n rest Hn Hrest]; [constructor |].
    destruct (isBlankText h n); [exact Hrest | constructor; assumption]. }
  destruct (last nn1) as [m |] eqn:Hlast; [| exact H1].
  destruct (isBlankText h m); [| exact H1].
  apply last_Some in Hlast as [l' Hl']. rewrite Hl' in H1 |- *.
  unfold JS.pop. rewrite removelast_last. apply Forall_app in H1 as [H1 _]. exact H1.
Qed.

Lemma keepsNew_refl L w : keepsNew L w w.
Proof. intros H. exact H. Qed.

Lemma keepsNew_trans L a b c : keepsNew L a b → keepsNew L b c → keepsNew L a c.
Proof. intros Hab Hbc Ha. apply Hbc, Hab, Ha. Qed.

Lemma new_source L f : preserves (keepsNew L) (modifySource f).
Proof. intros w. exact (keepsNew_refl L w). Qed.

Lemma new_update L f n :
  (∀ e, children (f e) = children e) →
  preserves (keepsNew L) (modifyHeap (updateElement f n)).
Proof.
  intros Hf w [Hlen Hnew]. simpl. split.
  - unfold updateElement. rewrite length_alter. exact Hlen.
  - intros i Hi. rewrite childrenOf_update_same by exact Hf. apply Hnew. exact Hi.
Qed.

Lemma new_children L n g :
  (∀ l, Forall (λ c, (L ≤ c)%nat) l → Forall (λ c, (L ≤ c)%nat) (g l)) →
  preserves (keepsNew L) (modifyChildren n g).
Proof.
  intros Hg w [Hlen Hnew]. unfold modifyChildren, modifyHeap. simpl. split.
  - unfold updateElement. rewrite length_alter. exact Hlen.
  - intros i Hi. rewrite (childrenOf_setChildren g).
    destruct (decide (_ = _)) as [-> |]; [| apply Hnew; exact Hi].
    destruct (isElement (heap w) n); [| constructor].
    apply Hg, Hnew. exact Hi.
Qed.

Lemma new_alloc L (A : Type) (f : Heap → A * Heap) :
  (∀ h, h `prefix_of` (f h).2
        ∧ ∀ i, (length h ≤ i)%nat →
               Forall (λ c, (length h ≤ c)%nat) (childrenOf (f h).2 i)) →
  preserves (keepsNew L) (withHeap f).
Proof.
  intros Hf w [Hlen Hnew]. unfold withHeap. destruct (Hf (heap w)) as [Hp Hk].
  destruct (f (heap w)) as [a h']. simpl in *.
  pose proof (prefix_length _ _ Hp) as Hl. split; [lia |].
  intros i Hi. destruct (decide (i < length (heap w))%nat) as [Hlt | Hge].
  - rewrite (childrenOf_prefix _ _ _ Hp Hlt). apply Hnew. exact Hi.
  - eapply Forall_impl; [apply Hk; lia |]. simpl. intros c Hc. lia.
Qed.

Lemma new_clone L n : preserves (keepsNew L) (withHeap (clone n)).
Proof.
  apply new_alloc. intros h. destruct (clone n h) as [r h'] eqn:Hc.
  destruct (clone_fresh _ _ _ _ Hc) as (Hp & _ & Hf). simpl. split; [exact Hp |].
  intros i Hi. destruct (Hf i Hi) as [_ Hall].
  eapply Forall_impl; [exact Hall |]. simpl. intros c Hc'. lia.
Qed.

Lemma new_allocStatements L body : preserves (keepsNew L) (withHeap (allocStatements body)).
Proof.
  apply new_alloc. intros h. destruct (allocStatements body h) as [p h'] eqn:Hc.
  destruct (allocStatements_spec _ _ _ _ Hc) as (Hp & _ & Hf). simpl. split; [exact Hp |].
  intros i Hi. destruct (Hf i Hi) as [_ Hall].
  eapply Forall_impl; [exact Hall |]. simpl. intros c Hc'. lia.
Qed.

Ltac new_with L tac :=
  pres_with (keepsNew_refl L) (keepsNew_trans L)
    ltac:(first [ assumption | tac
                | apply new_source
                | apply new_update; reflexivity
                | apply new_clone
                | apply new_allocStatements
                | apply new_children; intros;
                  first [apply Forall_removeAt | apply Forall_splice; [constructor |]];
                  assumption
                | exact (λ w, keepsNew_refl L w) ]).

Lemma new_addDefaultSlot L node : preserves (keepsNew L) (addDefaultSlot node).
Proof.
  intros w [Hlen Hnew].
  unfold addDefaultSlot, bind, withHeap, allocNode, modifyChildren, modifyHeap, pure.
  simpl. split.
  - unfold updateElement. rewrite length_alter, length_app. lia.
  - intros i Hi. rewrite (childrenOf_setChildren (λ l, l ++ [length (heap w)])).
    assert (Hsnoc : ∀ j, (L ≤ j)%nat →
              Forall (λ c, (L ≤ c)%nat)
                (childrenOf (heap w ++ [NElement
                   (mkElement (JSXIdentifier SLOT_TAG)
                      [JSXAttribute SLOT_NAME_ATTR (Literal SLOT_DEFAULT_NAME)]
                      false (Some (JSXIdentifier SLOT_TAG)) [])]) j)).
    { intros j Hj. rewrite childrenOf_snoc.
      destruct (decide (_ = _)); simpl; [constructor | apply Hnew; exact Hj]. }
    destruct (decide (_ = _)) as [-> |]; [| apply Hsnoc; exact Hi].
    destruct (isElement _ node); [| constructor].
    apply Forall_app. split; [apply Hsnoc; exact Hi |].
    constructor; [exact Hlen | constructor].
Qed.

Lemma new_collectSlots L order node ignore :
  preserves (keepsNew L) (collectSlots order node ignore).
Proof.
  unfold collectSlots, collectSlot, pushError, getHeap.
  new_with L ltac:(apply new_addDefaultSlot).
Qed.

Lemma new_mergeAttributes L src dst : preserves (keepsNew L) (mergeAttributes src dst).
Proof. unfold mergeAttributes, modifyAttributes, getHeap. new_with L fail. Qed.

Lemma new_routeChild L slots node :
  (L ≤ node)%nat → preserves (keepsNew L) (routeChild slots node).
Proof.
  intros Hn w. unfold routeChild, bind, getHeap.
  destruct (Obj.get slots _) as [slot |]; [| apply keepsNew_refl].
  apply new_children. intros l Hl. apply Forall_splice; [| exact Hl].
  constructor; [exact Hn | constructor].
Qed.

Lemma new_routeChildren L slots src :
  (L ≤ src)%nat → preserves (keepsNew L) (routeChildren slots src).
Proof.
  intros Hs w Hw. unfold routeChildren, bind, getHeap.
  apply (preserves_forEach_Forall (keepsNew L) (λ c, (L ≤ c)%nat)
           (childrenOf (heap w) src) (routeChild slots)
           (keepsNew_refl L) (keepsNew_trans L)).
  - intros c Hc. apply new_routeChild. exact Hc.
  - apply (proj2 Hw). exact Hs.
  - exact Hw.
Qed.

Lemma new_dropOldSlot L slots key : preserves (keepsNew L) (dropOldSlot slots key).
Proof. unfold dropOldSlot, getHeap. new_with L fail. Qed.

(** [expandMacro] as [collectMacro] calls it, for a definition that
    inherits: the children of the [:define] element go under the copy. *)
Lemma new_expandMacro L order use macro nesting :
  (L ≤ use)%nat → preserves (keepsNew L) (expandMacro order use macro false nesting).
Proof.
  intros Hu. unfold expandMacro, populateMacro, pushError. simpl negb. cbv iota.
  new_with L ltac:(first [ apply new_mergeAttributes | apply new_collectSlots
                         | apply new_routeChildren; exact Hu
                         | apply new_dropOldSlot ]).
Qed.

Lemma new_collectMacro L order d :
  (L ≤ dnode d)%nat → preserves (keepsNew L) (collectMacro order d).
Proof.
  intros Hd. unfold collectMacro, pushError, setMacro, getHeap, getSource.
  new_with L ltac:(apply new_expandMacro; exact Hd).
Qed.

Lemma new_applyIncludedAttributes L d r :
  preserves (keepsNew L) (applyIncludedAttributes d r).
Proof.
  unfold applyIncludedAttributes, includeAttribute, modifyAttributes, getHeap.
  new_with L fail.
Qed.

Lemma shape_applyIncludedAttributes d r : preserves sameShape (applyIncludedAttributes d r).
Proof.
  unfold applyIncludedAttributes, includeAttribute.
  pres_with sameShape_refl sameShape_trans
    ltac:(first [apply shape_getHeap | apply shape_modifyAttributes]).
Qed.

Section NewObjects.
Variables rootPath cwd : string.
Variable fs : string → FileResult.
Variable order : WalkOrder.

Section Rec.
Variable parseRec : string → string → nat → bool → option NodeId → M (option Program).
Hypothesis parseRec_prefix : ∀ f c n o fr w, heap w `prefix_of` heap (parseRec f c n o fr w).2.
Hypothesis parseRec_new :
  ∀ f c n o fr w, newChildren (length (heap w)) (heap (parseRec f c n o fr w).2).
Hypothesis parseRec_root :
  ∀ f c n o fr w root rest,
    (parseRec f c n o fr w).1 = Some (ExpressionStatement root :: rest) →
    (length (heap w) ≤ root)%nat.

Lemma new_parseRec L f c n o fr : preserves (keepsNew L) (parseRec f c n o fr).
Proof.
  intros w [Hlen Hnew]. pose proof (parseRec_prefix f c n o fr w) as Hp.
  pose proof (parseRec_new f c n o fr w) as Hk.
  pose proof (prefix_length _ _ Hp) as Hl. split; [lia |].
  intros i Hi. destruct (decide (i < length (heap w))%nat) as [Hlt | Hge].
  - rewrite (childrenOf_prefix _ _ _ Hp Hlt). apply Hnew. exact Hi.
  - eapply Forall_impl; [apply Hk; lia |]. simpl. intros x Hx. lia.
Qed.

Lemma new_processInclude L d i currDir nesting :
  preserves (keepsNew L) (processInclude parseRec d i currDir nesting).
Proof.
  intros w. unfold processInclude, bind at 1, getHeap at 1.
  destruct (getJSXAttribute _ INCLUDE_SRC_ATTR) as [s |]; [| apply new_source].
  destruct (JS.blank (Some s)); [apply new_source |].
  unfold bind at 1. intros Hw.
  pose proof (new_parseRec L s currDir (nesting + 1)
                (bool_decide (dname d = IMPORT_TAG)) (Some (dnode d)) w Hw) as H2.
  pose proof (parseRec_root s currDir (nesting + 1)
                (bool_decide (dname d = IMPORT_TAG)) (Some (dnode d)) w) as Hroot.
  destruct (parseRec _ _ _ _ _ w) as [program w2]. simpl in H2, Hroot.
  destruct program as [[| [root |] rest] |]; try exact H2.
  specialize (Hroot root rest eq_refl). revert H2.
  change (keepsNew L w2
            (bind (applyIncludedAttributes d root)
               (λ _, h' <- getHeap ;;
                     modifyChildren (dparent d)
                       (JS.splice i 0 (trimIncluded h' (childrenOf h' root)))) w2).2).
  unfold bind at 1. intros H2.
  pose proof (new_applyIncludedAttributes L d root w2 H2) as H3.
  destruct (applyIncludedAttributes d root w2) as [[] w3]. simpl in H3.
  revert H3. change (keepsNew L w3
                       (modifyChildren (dparent d)
                          (JS.splice i 0
                             (trimIncluded (heap w3) (childrenOf (heap w3) root))) w3).2).
  intros H3. apply new_children; [| exact H3].
  intros l Hl. apply Forall_splice; [| exact Hl].
  apply Forall_trimIncluded. apply (proj2 H3). destruct Hw. lia.
Qed.

Lemma new_processDirective L currDir nesting d :
  (L ≤ dnode d)%nat →
  preserves (keepsNew L) (processDirective order parseRec currDir nesting d).
Proof.
  intros Hd. unfold processDirective, pushError, getHeap.
  new_with L ltac:(first [ apply new_processInclude
                         | apply new_collectMacro; exact Hd ]).
Qed.

Lemma readAndParse_new pname relPath nesting from w :
  let r := readAndParse fs order parseRec pname relPath nesting from w in
  newChildren (length (heap w)) (heap r.2)
  ∧ ∀ root rest, r.1 = Some (ExpressionStatement root :: rest) →
                 (length (heap w) ≤ root)%nat.
Proof.
  cbv zeta. set (L := length (heap w)).
  assert (Hw : newChildren L (heap w)).
  { intros i Hi. rewrite childrenOf_beyond by exact Hi. constructor. }
  destruct (readAndParse _ _ _ _ _ _ _ w) as [r w'] eqn:E. cbn [fst snd]. revert E.
  unfold readAndParse, addError, pushError.
  destruct (fs pname) as [| e | body];
    [intros E; unfold bind, modifySource, pure in E; injection E as <- <-;
     split; [exact Hw | discriminate] .. |].
  unfold bind at 1. pose proof (new_allocStatements L body w (conj (le_n _) Hw)) as H1.
  unfold withHeap in *.
  destruct (allocStatements body (heap w)) as [program h'] eqn:Halloc. simpl in H1.
  destruct (allocStatements_spec _ _ _ _ Halloc) as (Hpre & Hst & _).
  pose proof (allocStatements_fresh _ _ _ _ Halloc) as Hfresh.
  unfold bind at 1, getHeap at 1. cbn [heap].
  destruct (rootIsElement h' program);
    [| intros E; unfold bind, modifySource, pure in E; injection E as <- <-;
       split; [exact (proj2 H1) | discriminate]].
  set (w1 := mkWorld h' (source w)) in *.
  assert (Hdirs : preserves (keepsNew L)
                    (forEach (omap (directiveOf h') (walk order h' (RootProgram program)))
                       (processDirective order parseRec (Path.dirname relPath) nesting))).
  { apply (preserves_forEach_Forall _
             (λ d, (L ≤ dnode d)%nat ∧ (L ≤ dparent d)%nat)).
    - apply keepsNew_refl.
    - apply keepsNew_trans.
    - intros d [Hn Hp]. apply new_processDirective; assumption.
    - apply directives_fresh; [exact Hfresh |].
      eapply Forall_impl; [exact Hst |]. intros [i |]; simpl; [lia | auto]. }
  specialize (Hdirs w1 H1).
  unfold processDirectives, bind, getHeap. cbn [heap w1].
  destruct (forEach _ _ w1) as [[] w2]. simpl in Hdirs.
  intros E. unfold pure in E. injection E as <- <-.
  split; [exact (proj2 Hdirs) |].
  intros root rest Heq. simplify_eq. apply Forall_cons in Hst as [Hst _]. lia.
Qed.

Lemma parseBody_new fname currDir nesting once from w :
  let r := parseBody rootPath cwd fs order parseRec fname currDir nesting once from w in
  newChildren (length (heap w)) (heap r.2)
  ∧ ∀ root rest, r.1 = Some (ExpressionStatement root :: rest) →
                 (length (heap w) ≤ root)%nat.
Proof.
  cbv zeta.
  assert (Hw : newChildren (length (heap w)) (heap w)).
  { intros i Hi. rewrite childrenOf_beyond by exact Hi. constructor. }
  destruct (parseBody _ _ _ _ _ _ _ _ _ _ w) as [r w'] eqn:E. cbn [fst snd]. revert E.
  unfold parseBody, addError, pushError.
  destruct (negb (JS.startsWith _ rootPath));
    [intros E; unfold bind, modifySource, pure in E; injection E as <- <-;
     split; [exact Hw | discriminate] |].
  unfold bind at 1, getSource at 1.
  destruct (negb (JS.includes _ (files (source w)))).
  - unfold bind. cbn [pushFile modifySource].
    intros E.
    match type of E with
    | readAndParse _ _ _ ?p ?rp _ _ ?w1 = _ =>
        pose proof (readAndParse_new p rp nesting from w1) as H
    end.
    cbv zeta in H. rewrite E in H. exact H.
  - destruct once; [intros E; injection E as <- <-; split; [exact Hw | discriminate] |].
    intros E.
    match type of E with
    | readAndParse _ _ _ ?p ?rp _ _ ?w1 = _ =>
        pose proof (readAndParse_new p rp nesting from w1) as H
    end.
    cbv zeta in H. rewrite E in H. exact H.
Qed.
End Rec.

Lemma parseAt_new depth :
  ∀ fname currDir nesting once from w,
    let r := parseAt rootPath cwd fs order depth fname currDir nesting once from w in
    newChildren (length (heap w)) (heap r.2)
    ∧ ∀ root rest, r.1 = Some (ExpressionStatement root :: rest) →
                   (length (heap w) ≤ root)%nat.
Proof.
  assert (Hw : ∀ w, newChildren (length (heap w)) (heap w)).
  { intros w i Hi. rewrite childrenOf_beyond by exact Hi. constructor. }
  induction depth as [| depth IH]; intros fname currDir nesting once from w;
    cbv zeta; cbn [parseAt]; destruct (Nat.leb MAX_NESTING nesting);
    try (split; [exact (Hw w) | intros; discriminate]).
  apply parseBody_new.
  - apply parseAt_prefix.
  - intros. apply IH.
  - intros f c n o fr w0 root rest. apply IH.
Qed.

(** The objects [parse] makes have children made by it, and so has the root
    it returns. *)
Lemma parse_new fname currDir nesting once from w :
  let r := parse rootPath cwd fs order fname currDir nesting once from w in
  newChildren (length (heap w)) (heap r.2)
  ∧ ∀ root rest, r.1 = Some (ExpressionStatement root :: rest) →
                 (length (heap w) ≤ root)%nat.
Proof. apply parseAt_new. Qed.
End NewObjects.

(** ** The directives of a file once they are processed *)

Lemma filter_old_new (B : nat) (nn : list nat) :
  Forall (λ c, (B ≤ c)%nat) nn → filter (λ c, (c < B)%nat) nn = [].
Proof.
  induction 1 as [| c nn Hc _ IH]; [reflexivity |].
  rewrite filter_cons_False by lia. exact IH.
Qed.

(** A child list from which the first [x] is taken out and into which new
    objects are put: [x] is gone when the old objects occur once each. *)
Lemma removed_once (B : nat) (x : NodeId) (K0 : list NodeId) s nn :
  (x < B)%nat →
  NoDup (filter (λ c, (c < B)%nat) K0) →
  Forall (λ c, (B ≤ c)%nat) nn →
  let Ka := JS.removeAt (JS.indexOf x K0) K0 in
  let K' := take s Ka ++ nn ++ drop s Ka in
  NoDup (filter (λ c, (c < B)%nat) K')
  ∧ x ∉ K'
  ∧ (∀ c, c ≠ x → c ∈ K0 → c ∈ K')
  ∧ (∀ c, (c < B)%nat → c ∉ K0 → c ∉ K').
Proof.
  intros Hx Hnd Hnn Ka K'. unfold NodeId in *.
  assert (Hmem : ∀ c, c ∈ K' ↔ c ∈ Ka ∨ c ∈ nn).
  { intros c. subst K'. rewrite !elem_of_app.
    rewrite <- (take_drop s Ka) at 3. rewrite elem_of_app. tauto. }
  assert (Hold : filter (λ c, (c < B)%nat) K' = filter (λ c, (c < B)%nat) Ka).
  { subst K'. rewrite !filter_app, (filter_old_new B nn Hnn). simpl.
    rewrite <- filter_app, take_drop. reflexivity. }
  assert (Hnew : ∀ c, (c < B)%nat → c ∉ nn).
  { intros c Hc Hin. rewrite Forall_forall in Hnn. apply Hnn in Hin. lia. }
  assert (HKa : NoDup (filter (λ c, (c < B)%nat) Ka) ∧ x ∉ Ka
                ∧ (∀ c, c ≠ x → c ∈ K0 → c ∈ Ka) ∧ (∀ c, c ∈ Ka → c ∈ K0)).
  { subst Ka. destruct (decide (x ∈ K0)) as [Hin | Hout].
    - apply list_elem_of_split_l in Hin as (l1 & l2 & -> & Hl1).
      rewrite removeAt_first by exact Hl1.
      rewrite filter_app, filter_cons_True in Hnd by exact Hx.
      apply NoDup_app in Hnd as (Hn1 & Hn12 & Hn2).
      apply NoDup_cons in Hn2 as [Hx2 Hn2].
      assert (Hxl2 : x ∉ l2).
      { intros Hin. apply Hx2. apply list_elem_of_filter. auto. }
      split.
      { rewrite filter_app. apply NoDup_app. split; [exact Hn1 |]. split; [| exact Hn2].
        intros c Hc1 Hc2. apply (Hn12 c Hc1). apply list_elem_of_further. exact Hc2. }
      split.
      { rewrite elem_of_app. tauto. }
      split.
      { intros c Hc. rewrite !elem_of_app, elem_of_cons. tauto. }
      intros c. rewrite !elem_of_app, elem_of_cons. tauto.
    - unfold JS.indexOf. rewrite indexOf_from_absent by exact Hout.
      unfold JS.removeAt. simpl. auto. }
  destruct HKa as (H1 & H2 & H3 & H4).
  split; [rewrite Hold; exact H1 |].
  split; [rewrite Hmem; intros [H | H]; [exact (H2 H) | exact (Hnew x Hx H)] |].
  split.
  - intros c Hc Hin. apply Hmem. left. apply H3; assumption.
  - intros c Hc Hout. rewrite Hmem. intros [H | H]; [exact (Hout (H4 c H)) | exact (Hnew c Hc H)].
Qed.

Lemma kidsKept_refl B w : kidsKept B w w.
Proof. intros H. auto. Qed.

Lemma kidsKept_trans B a b c : kidsKept B a b → kidsKept B b c → kidsKept B a c.
Proof.
  intros Hab Hbc Ha. destruct (Hab Ha) as [Hb Eb]. destruct (Hbc Hb) as [Hc Ec].
  split; [exact Hc |]. intros p Hp. rewrite Ec, Eb by exact Hp. reflexivity.
Qed.

Lemma kept_source B f : preserves (kidsKept B) (modifySource f).
Proof. intros w. exact (kidsKept_refl B w). Qed.

Lemma kept_update B f n :
  (∀ e, children (f e) = children e) →
  preserves (kidsKept B) (modifyHeap (updateElement f n)).
Proof.
  intros Hf w Hw. simpl. split.
  - unfold updateElement. rewrite length_alter. exact Hw.
  - intros p _. apply childrenOf_update_same. exact Hf.
Qed.

Lemma prefix_kidsKept B w w' : heap w `prefix_of` heap w' → kidsKept B w w'.
Proof.
  intros Hp Hw. pose proof (prefix_length _ _ Hp). split; [lia |].
  intros p Hlt. apply childrenOf_prefix; [exact Hp | lia].
Qed.

Lemma kept_expandMacro B order use macro rs nesting :
  preserves (kidsKept B) (expandMacro order use macro rs nesting).
Proof. intros w. apply prefix_kidsKept, expandMacro_prefix. Qed.

Lemma kept_collectMacro B order d : preserves (kidsKept B) (collectMacro order d).
Proof.
  unfold collectMacro, pushError, setMacro, getHeap, getSource.
  pres_with (kidsKept_refl B) (kidsKept_trans B)
    ltac:(first [ apply kept_source | apply kept_update; reflexivity
                | apply kept_expandMacro | exact (λ w, kidsKept_refl B w) ]).
Qed.

Lemma kidsKept_splicedInto B p w w' :
  (B ≤ length (heap w))%nat → kidsKept B w w' → (p < B)%nat → splicedInto B p w w'.
Proof.
  intros Hw Hk Hp. destruct (Hk Hw) as [Hl Hc]. split; [exact Hl |].
  split; [intros q Hq _; apply Hc; exact Hq |].
  exists 0%nat, []. split; [constructor |]. rewrite (Hc p Hp). rewrite take_0, drop_0.
  reflexivity.
Qed.

Section Directives.
Variables rootPath cwd : string.
Variable fs : string → FileResult.
Variable order : WalkOrder.

(** What [processInclude] does to the child lists of the objects that were
    there before the file it includes was read. *)
Lemma processInclude_spliced B d i currDir nesting w :
  (B ≤ length (heap w))%nat → (dparent d < B)%nat →
  splicedInto B (dparent d) w
    (processInclude (parse rootPath cwd fs order) d i currDir nesting w).2.
Proof.
  intros Hw Hp. unfold processInclude, bind at 1, getHeap at 1.
  assert (Hsame : ∀ f, splicedInto B (dparent d) w (modifySource f w).2).
  { intros f. apply kidsKept_splicedInto; [exact Hw | apply kept_source | exact Hp]. }
  destruct (getJSXAttribute _ INCLUDE_SRC_ATTR) as [s |]; [| apply Hsame].
  destruct (JS.blank (Some s)); [apply Hsame |].
  unfold bind at 1.
  pose proof (parse_prefix rootPath cwd fs order s currDir (nesting + 1)
                (bool_decide (dname d = IMPORT_TAG)) (Some (dnode d)) w) as Hpre.
  pose proof (parse_new rootPath cwd fs order s currDir (nesting + 1)
                (bool_decide (dname d = IMPORT_TAG)) (Some (dnode d)) w) as [Hnew Hroot].
  destruct (parse _ _ _ _ _ _ _ _ _ w) as [program w2]. cbn [fst snd] in Hpre, Hnew, Hroot.
  pose proof (prefix_kidsKept B w w2 Hpre) as H2.
  destruct program as [[| [root |] rest] |];
    try (apply kidsKept_splicedInto; [exact Hw | exact H2 | exact Hp]).
  specialize (Hroot root rest eq_refl).
  change (splicedInto B (dparent d) w
            (bind (applyIncludedAttributes d root)
               (λ _, h' <- getHeap ;;
                     modifyChildren (dparent d)
                       (JS.splice i 0 (trimIncluded h' (childrenOf h' root)))) w2).2).
  unfold bind at 1.
  pose proof (shape_applyIncludedAttributes d root w2) as (Hlen3 & Hkids3 & Hel3).
  destruct (applyIncludedAttributes d root w2) as [[] w3]. cbn [snd] in Hlen3, Hkids3, Hel3.
  change (splicedInto B (dparent d) w
            (modifyChildren (dparent d)
               (JS.splice i 0 (trimIncluded (heap w3) (childrenOf (heap w3) root))) w3).2).
  destruct (H2 Hw) as [Hl2 Hc2].
  unfold modifyChildren, modifyHeap. cbn [snd]. unfold splicedInto. cbn [heap].
  set (nn := trimIncluded (heap w3) (childrenOf (heap w3) root)).
  assert (Hnn : Forall (λ c, (B ≤ c)%nat) nn).
  { subst nn. apply Forall_trimIncluded. rewrite Hkids3.
    eapply Forall_impl; [apply Hnew; exact Hroot |]. simpl. intros c Hc. lia. }
  split; [unfold updateElement; rewrite length_alter; lia |].
  split.
  - intros q Hq Hne. rewrite (childrenOf_setChildren (JS.splice i 0 nn)).
    destruct (decide (_ = _)) as [E |]; [contradiction |].
    rewrite Hkids3. apply Hc2. exact Hq.
  - rewrite (childrenOf_setChildren (JS.splice i 0 nn)).
    destruct (decide (_ = _)) as [_ | Hne]; [| contradiction].
    rewrite Hkids3, (Hc2 _ Hp).
    destruct (isElement (heap w3) (dparent d)) eqn:Hel.
    + exists (JS.spliceStart i (length (childrenOf (heap w) (dparent d)))), nn.
      split; [exact Hnn |]. unfold JS.splice. rewrite Nat.add_0_r. reflexivity.
    + exists 0%nat, []. split; [constructor |].
      assert (E : childrenOf (heap w) (dparent d) = []).
      { rewrite <- (Hc2 _ Hp), <- Hkids3. unfold childrenOf. unfold isElement in Hel.
        destruct (element (heap w3) (dparent d)); [discriminate | reflexivity]. }
      rewrite E. reflexivity.
Qed.

(** One round of the loop of [processDirectives], for a directive that is
    no [:slot]. *)
Lemma processDirective_spliced B currDir nesting d w :
  dname d ≠ SLOT_TAG →
  (B ≤ length (heap w))%nat → (dparent d < B)%nat →
  let K0 := childrenOf (heap w) (dparent d) in
  let Ka := JS.removeAt (JS.indexOf (dnode d) K0) K0 in
  let w' := (processDirective order (parse rootPath cwd fs order) currDir nesting d w).2 in
  (B ≤ length (heap w'))%nat
  ∧ (∀ q, (q < B)%nat → q ≠ dparent d → childrenOf (heap w') q = childrenOf (heap w) q)
  ∧ ∃ s nn, Forall (λ c, (B ≤ c)%nat) nn
            ∧ childrenOf (heap w') (dparent d) = take s Ka ++ nn ++ drop s Ka.
Proof.
  intros Hd Hw Hp K0 Ka.
  set (wa := (modifyChildren (dparent d) (JS.removeAt (JS.indexOf (dnode d) K0)) w).2).
  assert (Hla : length (heap wa) = length (heap w)).
  { subst wa. unfold modifyChildren, modifyHeap, updateElement. cbn [snd heap].
    apply length_alter. }
  assert (Hka : childrenOf (heap wa) (dparent d) = Ka).
  { subst wa Ka. unfold modifyChildren, modifyHeap. cbn [snd heap].
    rewrite (childrenOf_setChildren (JS.removeAt (JS.indexOf (dnode d) K0))).
    destruct (decide (_ = _)) as [_ | Hne]; [| contradiction].
    destruct (isElement (heap w) (dparent d)) eqn:Hel; [reflexivity |].
    assert (E : K0 = []).
    { subst K0. unfold childrenOf. unfold isElement in Hel.
      destruct (element (heap w) (dparent d)); [discriminate | reflexivity]. }
    rewrite E. reflexivity. }
  assert (Hoa : ∀ q, q ≠ dparent d → childrenOf (heap wa) q = childrenOf (heap w) q).
  { intros q Hq. subst wa. unfold modifyChildren, modifyHeap. cbn [snd heap].
    rewrite (childrenOf_setChildren (JS.removeAt (JS.indexOf (dnode d) K0))).
    destruct (decide (_ = _)); [contradiction | reflexivity]. }
  assert (Hrun : ∃ w', (processDirective order (parse rootPath cwd fs order)
                          currDir nesting d w).2 = w'
                       ∧ splicedInto B (dparent d) wa w').
  { unfold processDirective, bind at 1, getHeap at 1. fold K0.
    assert (Hwa : (B ≤ length (heap wa))%nat) by lia.
    destruct (decide (dname d = INCLUDE_TAG ∨ dname d = IMPORT_TAG)).
    { eexists. split; [reflexivity |]. unfold bind. cbn [snd]. fold wa.
      apply processInclude_spliced; assumption. }
    destruct (decide (dname d = DEFINE_TAG)).
    { eexists. split; [reflexivity |]. unfold bind. cbn [snd]. fold wa.
      apply kidsKept_splicedInto; [exact Hwa | apply kept_collectMacro | exact Hp]. }
    rewrite decide_False by exact Hd.
    eexists. split; [reflexivity |]. unfold bind. cbn [snd]. fold wa.
    apply kidsKept_splicedInto; [exact Hwa | apply kept_source | exact Hp]. }
  destruct Hrun as (w' & -> & Hl & Hq & s & nn & Hnn & Hk).
  split; [exact Hl |]. split.
  - intros q Hlt Hne. rewrite (Hq q Hlt Hne). apply Hoa. exact Hne.
  - exists s, nn. split; [exact Hnn |]. rewrite Hk, Hka. reflexivity.
Qed.

Lemma directives_spec h program d :
  d ∈ omap (directiveOf h) (walk order h (RootProgram program)) →
  dnode d ∈ childrenOf h (dparent d)
  ∧ ∃ e, element h (dnode d) = Some e ∧ openingName e = JSXIdentifier (dname d).
Proof.
  intros Hd.
  apply list_elem_of_omap in Hd as ([x [p |]] & Hin & Hdir); [| discriminate].
  unfold directiveOf in Hdir. destruct (element h x) as [e |] eqn:He; [| discriminate].
  destruct (openingName e) as [name | pl] eqn:Hname; [| discriminate].
  destruct (JS.startsWith name TAGS_PREFIX) eqn:Hpre; [| discriminate].
  simplify_eq. simpl. apply walk_child in Hin. split; [exact Hin |]. exists e. auto.
Qed.

Section Loop.
Variable B : nat.
Variable all : list Directive.
Variables (currDir : string) (nesting : nat).
Hypothesis all_old : ∀ d, d ∈ all → (dnode d < B)%nat ∧ (dparent d < B)%nat.
Hypothesis all_named :
  ∀ d d', d ∈ all → d' ∈ all → dnode d = dnode d' → dname d = dname d'.

Lemma directivesInv_step done d w :
  d ∈ all → (∀ d', d' ∈ done → d' ∈ all) →
  directivesInv B all done w →
  directivesInv B all (done ++ [d])
    (processDirective order (parse rootPath cwd fs order) currDir nesting d w).2.
Proof.
  intros Hd Hdone (Hw & Hnd & Hslots & Hout).
  destruct (all_old d Hd) as [Hx Hp].
  destruct (decide (dname d = SLOT_TAG)) as [Hs | Hs].
  - rewrite processDirective_slot by exact Hs. cbn [snd].
    split; [exact Hw |]. split; [exact Hnd |]. split; [exact Hslots |].
    intros d' Hin Hne. apply elem_of_app in Hin as [Hin | Hin]; [apply Hout; assumption |].
    apply list_elem_of_singleton in Hin. subst d'. contradiction.
  - destruct (processDirective_spliced B currDir nesting d w Hs Hw Hp)
      as (Hl & Hq & s & nn & Hnn & Hk).
    destruct (removed_once B (dnode d) (childrenOf (heap w) (dparent d)) s nn
                Hx (Hnd d Hd) Hnn) as (R1 & R2 & R3 & R4).
    rewrite <- Hk in R1, R2, R3, R4.
    set (w' := (processDirective order (parse rootPath cwd fs order)
                  currDir nesting d w).2) in *.
    split; [exact Hl |]. split; [| split].
    + intros d' Hd'. destruct (decide (dparent d' = dparent d)) as [E | Hne].
      * rewrite E. exact R1.
      * rewrite (Hq _ (proj2 (all_old d' Hd')) Hne). apply Hnd. exact Hd'.
    + intros d' Hd' Hs'. destruct (decide (dparent d' = dparent d)) as [E | Hne].
      * rewrite E. apply R3; [| rewrite <- E; apply Hslots; assumption].
        intros En. apply Hs. rewrite <- (all_named d' d Hd' Hd En). exact Hs'.
      * rewrite (Hq _ (proj2 (all_old d' Hd')) Hne). apply Hslots; assumption.
    + intros d' Hin Hs'. apply elem_of_app in Hin as [Hin | Hin].
      * destruct (decide (dparent d' = dparent d)) as [E | Hne].
        -- rewrite E. apply R4; [exact (proj1 (all_old d' (Hdone d' Hin))) |].
           rewrite <- E. apply Hout; assumption.
        -- rewrite (Hq _ (proj2 (all_old d' (Hdone d' Hin))) Hne). apply Hout; assumption.
      * apply list_elem_of_singleton in Hin. subst d'. exact R2.
Qed.

Lemma directivesInv_loop todo :
  ∀ done w,
    (∀ d, d ∈ done ++ todo → d ∈ all) →
    directivesInv B all done w →
    directivesInv B all (done ++ todo)
      (forEach todo (processDirective order (parse rootPath cwd fs order)
                       currDir nesting) w).2.
Proof.
  induction todo as [| d todo IH]; intros done w Hsub Hinv.
  - rewrite app_nil_r. exact Hinv.
  - rewrite forEach_cons_snd.
    replace (done ++ d :: todo) with ((done ++ [d]) ++ todo)
      by (rewrite <- app_assoc; reflexivity).
    apply IH.
    + intros d' Hin. apply Hsub. rewrite <- app_assoc in Hin. exact Hin.
    + apply directivesInv_step; [| | exact Hinv].
      * apply Hsub. apply elem_of_app. right. apply list_elem_of_here.
      * intros d' Hin. apply Hsub. apply elem_of_app. left. exact Hin.
Qed.
End Loop.

(** When the directives of a file have been processed, every [:slot]
    element that was collected is a child of its parent, and no other
    collected directive is one. *)
Lemma processDirectives_done body currDir nesting w :
  let '(program, h') := allocStatements body (heap w) in
  let directives := omap (directiveOf h') (walk order h' (RootProgram program)) in
  let w' := (processDirectives order (parse rootPath cwd fs order) program currDir nesting
               (mkWorld h' (source w))).2 in
  ∀ d, d ∈ directives →
       if decide (dname d = SLOT_TAG)
       then dnode d ∈ childrenOf (heap w') (dparent d)
       else dnode d ∉ childrenOf (heap w') (dparent d).
Proof.
  destruct (allocStatements body (heap w)) as [program h'] eqn:Halloc. cbv zeta.
  destruct (allocStatements_spec _ _ _ _ Halloc) as (Hpre & Hst & Hkids).
  pose proof (allocStatements_fresh _ _ _ _ Halloc) as Hfresh.
  set (all := omap (directiveOf h') (walk order h' (RootProgram program))).
  assert (Hnew : Forall (λ d, (length (heap w) ≤ dnode d)%nat
                              ∧ (length (heap w) ≤ dparent d)%nat) all).
  { apply directives_fresh; [exact Hfresh |].
    eapply Forall_impl; [exact Hst |]. intros [i |]; simpl; [lia | auto]. }
  rewrite Forall_forall in Hnew.
  assert (Hold : ∀ d, d ∈ all → (dnode d < length h')%nat ∧ (dparent d < length h')%nat).
  { intros d Hd. destruct (directives_spec _ _ _ Hd) as (Hin & e & He & _). split.
    - apply isElement_lt. unfold isElement. rewrite He. reflexivity.
    - apply isElement_lt. eapply isElement_of_child. exact Hin. }
  assert (Hnamed : ∀ d d', d ∈ all → d' ∈ all → dnode d = dnode d' → dname d = dname d').
  { intros d d' Hd Hd' E.
    destruct (directives_spec _ _ _ Hd) as (_ & e & He & Hn).
    destruct (directives_spec _ _ _ Hd') as (_ & e' & He' & Hn').
    rewrite E in He. rewrite He in He'. simplify_eq. congruence. }
  assert (Hinit : directivesInv (length h') all [] (mkWorld h' (source w))).
  { split; [reflexivity |]. split; [| split].
    - intros d Hd. apply NoDup_filter. apply Hkids. apply Hnew. exact Hd.
    - intros d Hd _. apply (directives_spec _ _ _ Hd).
    - intros d Hd. apply not_elem_of_nil in Hd. contradiction. }
  pose proof (directivesInv_loop (length h') all currDir nesting Hold Hnamed all []
                (mkWorld h' (source w)) (λ d H, H) Hinit) as (_ & _ & Hslots & Hout).
  assert (E : (processDirectives order (parse rootPath cwd fs order) program currDir nesting
                 (mkWorld h' (source w))).2
              = (forEach all (processDirective order (parse rootPath cwd fs order)
                                currDir nesting) (mkWorld h' (source w))).2)
    by reflexivity.
  rewrite E. intros d Hd. destruct (decide (dname d = SLOT_TAG)) as [Hs | Hs].
  - apply Hslots; assumption.
  - apply Hout; assumption.
Qed.
End Directives.

(** * The claims on directive elements and on definitions *)

(** ** C8: directive elements in the final tree *)




(** ** C10: a macro defined twice *)

(** What [collectMacro] registers for a [tag] it accepts: the element of
    the directive, rewritten into the body, when the base is no registered
    macro, and otherwise what [expandMacro] makes of that element and the
    base macro. *)
Lemma collectMacro_registers order d w tag name res2 :
  truthy (getJSXAttribute (attributesOf (heap w) (dnode d)) DEFINE_TAG_ATTR) = Some tag →
  execTag tag = Some (name, res2) →
  let base := default "div" res2 in
  let from := if (0 <? JS.indexOfChar "-" base)%Z then macros (source w) !! base else None in
  let w1 := mkWorld (updateElement (defineBody base) (dnode d) (heap w)) (source w) in
  let node := match from with
              | Some m => (expandMacro order (dnode d) m false 0 w1).1
              | None => dnode d
              end in
  macros (source (collectMacro order d w).2)
  = <[name := mkMacro name node base from]> (macros (source w)).
Proof.
  intros Htag Hexec. cbv zeta.
  unfold collectMacro, bind at 1, getHeap at 1. rewrite Htag, Hexec.
  unfold bind at 1, getSource at 1. unfold bind at 1. cbn [modifyHeap fst snd].
  set (w1 := mkWorld _ (source w)).
  destruct (if (0 <? _)%Z then _ else _) as [m |] eqn:Hfrom.
  - unfold bind. pose proof (err_expandMacro order (dnode d) m false 0 w1) as (_ & _ & Hm).
    destruct (expandMacro order (dnode d) m false 0 w1) as [node w2]. simpl in Hm |- *.
    rewrite Hm. reflexivity.
  - unfold bind. simpl. reflexivity.
Qed.



(** * Further properties of the loader *)

(** ** What [parse] and [expandMacros] leave in place *)

(** X1.  Whatever [parse] is asked and whatever the files hold, it only adds
    to the session and to the tree objects: the diagnostics and the visited
    files it finds are still there, in their order, before the ones it
    records; a macro name that was registered is still registered; no object
    of the store is gone, a text or an expression is what it was, and an
    element is still an element. *)
Theorem parse_only_adds :
  ∀ rootPath cwd fs order fname currDir nesting once from w,
    let w' := (parse rootPath cwd fs order fname currDir nesting once from w).2 in
    sessionGrows w w' ∧ storeGrows w w'.
Proof.
  intros. subst w'. split; [apply parse_sessionGrows | apply parse_storeGrows].
Qed.

(** X2.  When [expandMacros] returns, the session differs from the one it
    was given by appended diagnostics only: the tree handle, the visited
    files and the registry are the same, the old diagnostics come first; and
    in the store nothing is gone, no text or expression is changed, and no
    element has become something else. *)
Theorem expandMacros_only_adds_diagnostics :
  ∀ order fuel root nesting w w',
    expandMacros order fuel root nesting w = Some w' →
    onlyErrors w w'
    ∧ errors (source w) `prefix_of` errors (source w')
    ∧ storeGrows w w'.
Proof.
  intros order fuel root nesting w w' H. split; [| split].
  - eapply expandMacros_onlyErrors. exact H.
  - eapply (thru_expandMacros sessionGrows sessionGrows_refl sessionGrows_trans
              (λ f n, sessionGrows_heap _) sessionGrows_new sessionGrows_error) in H.
    apply H.
  - eapply (thru_expandMacros storeGrows storeGrows_refl storeGrows_trans
              storeGrows_update storeGrows_new (λ t m f, storeGrows_source _)).
    exact H.
Qed.

(** The macro page: its expansion returns, with the session of before and
    no diagnostic more. *)
Lemma expandMacros_only_adds_diagnostics_witness :
  expandMacros DocumentOrder 5 (RootProgram <$> ast (source cardWorld)) 0 cardWorld
  = Some cardSession
  ∧ onlyErrors cardWorld cardSession
  ∧ errors (source cardWorld) `prefix_of` errors (source cardSession)
  ∧ storeGrows cardWorld cardSession.
Proof.
  assert (h : expandMacros DocumentOrder 5 (RootProgram <$> ast (source cardWorld)) 0 cardWorld
              = Some cardSession) by (vm_compute; reflexivity).
  split; [exact h |].
  exact (expandMacros_only_adds_diagnostics DocumentOrder 5 _ 0 cardWorld cardSession h).
Defined.

(** ** Copies of macro bodies *)

(** X3.  The copy [expandMacro] makes of a macro body
    ([JSON.parse(JSON.stringify(macro.node))]) is a deep copy: the objects
    that were in the store are all still there, unchanged; the copy is a new
    object and has the same tree as its original; and every object made for
    it has distinct children that are themselves new, so that the copy shares
    nothing with the older trees. *)
Theorem clone_is_a_deep_copy :
  ∀ n h,
    let r := clone n h in
    h `prefix_of` r.2
    ∧ (length h ≤ r.1 < length r.2)%nat
    ∧ treeAt r.2 r.1 = treeAt h n
    ∧ freshFrom (length h) r.2.
Proof.
  intros n h. cbv zeta. destruct (clone n h) as [r h'] eqn:Hclone.
  destruct (clone_fresh _ _ _ _ Hclone) as (Hp & Hr & Hf). simpl.
  split; [exact Hp |]. split; [exact Hr |]. split; [| exact Hf].
  unfold clone in Hclone. unfold treeAt at 1.
  apply (alloc_toTree _ _ _ _ Hclone); [reflexivity | lia].
Qed.

(** X4.  [expandMacro] never writes to an object that exists when it is
    called: neither the use-site, nor the definition, nor anything else of
    the store is changed, whatever the macro and the flag [removeSlots].
    Past the depth limit it hands back the use-site itself; otherwise what
    it returns is a new object.  In the session it touches the diagnostics
    only. *)
Theorem expandMacro_writes_to_its_copy_only :
  ∀ order use macro removeSlots nesting w,
    let r := expandMacro order use macro removeSlots nesting w in
    heap w `prefix_of` heap r.2
    ∧ onlyErrors w r.2
    ∧ (if Nat.ltb MAX_NESTING nesting
       then r.1 = use
       else (length (heap w) ≤ r.1 < length (heap r.2))%nat).
Proof.
  intros order use macro rs nesting w. cbv zeta.
  split; [apply expandMacro_prefix |]. split; [apply err_expandMacro |].
  destruct (Nat.ltb MAX_NESTING nesting) eqn:Hn.
  - unfold expandMacro. rewrite Hn. reflexivity.
  - apply expandMacro_result. exact Hn.
Qed.

(** X5.  The first two loops of [populateMacro] as [expandMacro] runs them,
    on a fresh copy of a definition in a store without dangling children,
    for a use-site that is an object of that store, and for either value of
    [removeSlots].  The table [collectSlots] builds on the copy always has a
    slot [default].  After the child loop every child list is the one
    [collectSlots] left, with, before each slot element, the children of the
    use-site that ask for that slot, in their order; so a child whose slot is
    in the table stands in the copy next to that slot, and a text, an
    expression or an element without a [name] is not lost by this loop.
    With [removeSlots] unset, [populateMacro] returns this table and this
    state; with [removeSlots] set it goes on, from this state, to its third
    loop and returns the empty table.  The reads [slots[slotName]] are reads
    of a key of the table or of a name no object inherits; for a name such as
    [constructor] the code finds a member of [Object.prototype] instead of a
    slot, which the statement leaves aside. *)
Theorem populateMacro_fills_a_fresh_copy :
  ∀ order src n w,
    closed (heap w) → (src < length (heap w))%nat → isElement (heap w) n = true →
    let '(dst, w0) := withHeap (clone n) w in
    let '(slots, w1) := (mergeAttributes src dst ;; collectSlots order dst None) w0 in
    let w2 := (routeChildren slots src w1).2 in
    plainTable slots →
    Forall (λ c, plainRead slots (slotNameOf (heap w) c)) (childrenOf (heap w) src) →
    populateMacro order src dst false w0 = (slots, w2)
    ∧ populateMacro order src dst true w0 = ([], (replaceSlots slots w2).2)
    ∧ is_Some (Obj.get slots SLOT_DEFAULT_NAME)
    ∧ (∀ p, childrenOf (heap w2) p
            = flat_map
                (λ x, filter (λ c, Obj.get slots (slotNameOf (heap w) c) = Some (mkSlot x p))
                        (childrenOf (heap w) src)
                      ++ [x])
                (childrenOf (heap w1) p))
    ∧ (∀ c slot,
         c ∈ childrenOf (heap w) src →
         Obj.get slots (slotNameOf (heap w) c) = Some slot →
         c ∈ childrenOf (heap w2) (sparent slot)).
Proof.
  intros order src n w Hcl Hsrc Hel.
  pose proof (fresh_slot_table order src n w Hcl Hsrc Hel) as Htab.
  unfold withHeap in *.
  destruct (clone n (heap w)) as [dst h0] eqn:Hclone.
  destruct (clone_fresh _ _ _ _ Hclone) as (Hpre & Hdst & Hfresh).
  set (w0 := mkWorld h0 (source w)) in *.
  assert (Hd : (length (heap w) ≤ dst)%nat) by lia.
  assert (Hold : keepsOld (length (heap w)) w
                   ((mergeAttributes src dst ;; collectSlots order dst None) w0).2).
  { eapply keepsOld_trans; [apply (prefix_keepsOld _ w w0); exact Hpre |].
    apply (preserves_bind _ (keepsOld_trans _));
      [apply old_mergeAttributes | intros _; apply old_collectSlots]; exact Hd. }
  assert (Hdef : is_Some (Obj.get ((mergeAttributes src dst ;; collectSlots order dst None) w0).1
                            SLOT_DEFAULT_NAME)).
  { unfold bind. destruct (mergeAttributes src dst w0) as [[] wm].
    apply collectSlots_default. }
  assert (Hpop : ∀ rs, populateMacro order src dst rs w0
                 = let '(slots, w1) := (mergeAttributes src dst ;; collectSlots order dst None) w0 in
                   if rs then ([], (replaceSlots slots (routeChildren slots src w1).2).2)
                   else (slots, (routeChildren slots src w1).2)).
  { intros rs. unfold populateMacro, bind. destruct (mergeAttributes src dst w0) as [[] wm].
    destruct (collectSlots order dst None wm) as [slots w1].
    destruct (routeChildren slots src w1) as [[] w2]. destruct rs; simpl; [| reflexivity].
    destruct (replaceSlots slots w2) as [[] w3]. reflexivity. }
  pose proof (Hpop false) as Hfalse. pose proof (Hpop true) as Htrue. clear Hpop.
  destruct ((mergeAttributes src dst ;; collectSlots order dst None) w0) as [slots w1].
  simpl in Hold, Hdef. destruct Htab as [Hslots Hnew].
  cbv zeta. intros _ _.
  destruct (routeChildren_spec slots src w1 Hslots Hnew) as (_ & _ & Hc).
  assert (Hkids : childrenOf (heap w1) src = childrenOf (heap w) src).
  { unfold childrenOf, element, NodeId.
    rewrite (keepsOld_lookup _ _ _ src Hold) by lia. reflexivity. }
  assert (Hname : ∀ c, c ∈ childrenOf (heap w) src →
                       slotNameOf (heap w1) c = slotNameOf (heap w) c).
  { intros c Hcin. unfold slotNameOf, element, NodeId.
    rewrite (keepsOld_lookup _ _ _ c Hold); [reflexivity | lia |].
    pose proof (closed_children _ src Hcl) as Hall. rewrite Forall_forall in Hall.
    apply Hall. exact Hcin. }
  assert (Hform : ∀ p, childrenOf (heap (routeChildren slots src w1).2) p
            = flat_map
                (λ x, filter (λ c, Obj.get slots (slotNameOf (heap w) c) = Some (mkSlot x p))
                        (childrenOf (heap w) src)
                      ++ [x])
                (childrenOf (heap w1) p)).
  { intros p. rewrite Hc, Hkids. unfold routedChildren, routedTo, targetSlot.
    apply flat_map_ext. intros x. f_equal.
    apply filter_ext_elem. intros c Hcin. rewrite (Hname c Hcin). reflexivity. }
  split; [exact Hfalse |]. split; [exact Htrue |].
  split; [exact Hdef |]. split; [exact Hform |].
  intros c [s p] Hcin Hget. simpl. rewrite Hform. apply elem_of_flat_map.
  exists s. split.
  - apply Obj_get_elem in Hget. rewrite Forall_forall in Hslots.
    apply (Hslots _ Hget).
  - apply elem_of_app. left. apply list_elem_of_filter. split; [exact Hget | exact Hcin].
Qed.

(** The macro page: [<my-card>] is the node 13, the body of its definition
    the node 3; [<i name="footer">] (node 8) asks for a slot that is not
    there, and no object inherits a member of that name. *)
Lemma populateMacro_fills_a_fresh_copy_witness :
  closed (heap cardWorld)
  ∧ (cardUse < length (heap cardWorld))%nat
  ∧ isElement (heap cardWorld) 3 = true
  ∧ (let '(dst, w0) := withHeap (clone 3) cardWorld in
     let '(slots, w1) := (mergeAttributes cardUse dst ;; collectSlots DocumentOrder dst None) w0 in
     let w2 := (routeChildren slots cardUse w1).2 in
     plainTable slots
     ∧ Forall (λ c, plainRead slots (slotNameOf (heap cardWorld) c))
         (childrenOf (heap cardWorld) cardUse)
     ∧ populateMacro DocumentOrder cardUse dst false w0 = (slots, w2)
     ∧ populateMacro DocumentOrder cardUse dst true w0 = ([], (replaceSlots slots w2).2)
     ∧ is_Some (Obj.get slots SLOT_DEFAULT_NAME)
     ∧ (∀ p, childrenOf (heap w2) p
             = flat_map
                 (λ x, filter (λ c, Obj.get slots (slotNameOf (heap cardWorld) c)
                                    = Some (mkSlot x p))
                         (childrenOf (heap cardWorld) cardUse)
                       ++ [x])
                 (childrenOf (heap w1) p))
     ∧ (∀ c slot,
          c ∈ childrenOf (heap cardWorld) cardUse →
          Obj.get slots (slotNameOf (heap cardWorld) c) = Some slot →
          c ∈ childrenOf (heap w2) (sparent slot))).
Proof.
  assert (h1 : closed (heap cardWorld)) by (apply (bool_decide_unpack _); vm_compute; exact I).
  assert (h2 : (cardUse < length (heap cardWorld))%nat) by (vm_compute; lia).
  assert (h3 : isElement (heap cardWorld) 3 = true) by (vm_compute; reflexivity).
  split; [exact h1 |]. split; [exact h2 |]. split; [exact h3 |].
  pose proof (populateMacro_fills_a_fresh_copy DocumentOrder cardUse 3 cardWorld h1 h2 h3)
    as H.
  assert (h4 : plainTable
                 ((mergeAttributes cardUse (withHeap (clone 3) cardWorld).1
                   ;; collectSlots DocumentOrder (withHeap (clone 3) cardWorld).1 None)
                    (withHeap (clone 3) cardWorld).2).1)
    by (apply (bool_decide_unpack _); vm_compute; exact I).
  assert (h5 : Forall
                 (λ c, plainRead
                         ((mergeAttributes cardUse (withHeap (clone 3) cardWorld).1
                           ;; collectSlots DocumentOrder (withHeap (clone 3) cardWorld).1 None)
                            (withHeap (clone 3) cardWorld).2).1
                         (slotNameOf (heap cardWorld) c))
                 (childrenOf (heap cardWorld) cardUse))
    by (apply (bool_decide_unpack _); vm_compute; exact I).
  destruct (withHeap (clone 3) cardWorld) as [dst w0]. cbn [fst snd] in h4, h5.
  destruct ((mergeAttributes cardUse dst ;; collectSlots DocumentOrder dst None) w0)
    as [slots w1]. cbn [fst snd] in h4, h5.
  cbv zeta in H |- *.
  split; [exact h4 |]. split; [exact h5 |]. exact (H h4 h5).
Defined.

(** ** The attributes of a use-site *)

Lemma getJSXAttributeNode_set attrs key v key' :
  getJSXAttributeNode (setJSXAttributeValue attrs key v) key'
  = if decide (key' = key)
    then (match getJSXAttributeNode attrs key with
          | Some _ => Some (JSXAttribute key v)
          | None => None
          end)
    else getJSXAttributeNode attrs key'.
Proof.
  induction attrs as [| [k v0 | p] attrs IH]; simpl.
  - destruct (decide (key' = key)); reflexivity.
  - destruct (decide (k = key)) as [-> | Hne]; simpl.
    + destruct (decide (key = key')) as [-> | Hne'].
      * rewrite decide_True by reflexivity. reflexivity.
      * rewrite decide_False by congruence. reflexivity.
    + destruct (decide (k = key')) as [-> | Hne'].
      * rewrite decide_False by congruence. reflexivity.
      * rewrite IH. destruct (decide (key' = key)); reflexivity.
  - exact IH.
Qed.

Lemma getJSXAttributeNode_merge srcAttrs attrs key key' :
  getJSXAttributeNode (mergeAttribute srcAttrs attrs key) key'
  = if decide (key' = key)
    then (match getJSXAttributeNode srcAttrs key with
          | Some a => Some a
          | None => getJSXAttributeNode attrs key
          end)
    else getJSXAttributeNode attrs key'.
Proof.
  unfold mergeAttribute.
  destruct (getJSXAttributeNode srcAttrs key) as [a |] eqn:Hs.
  - destruct (getJSXAttributeNode_name _ _ _ Hs) as [v ->].
    destruct (getJSXAttributeNode attrs key) as [b |] eqn:Hd.
    + rewrite getJSXAttributeNode_set, Hd. reflexivity.
    + rewrite getJSXAttributeNode_app. simpl.
      destruct (decide (key' = key)) as [-> | Hne].
      * rewrite Hd, decide_True by reflexivity. reflexivity.
      * rewrite decide_False by congruence.
        destruct (getJSXAttributeNode attrs key'); reflexivity.
  - destruct (decide (key' = key)) as [-> |]; reflexivity.
Qed.

Lemma getJSXAttributeNode_mergeAll srcAttrs keys :
  ∀ attrs key',
    getJSXAttributeNode
      (fold_left (λ a k, mergeAttribute srcAttrs a k) keys attrs) key'
    = if bool_decide (key' ∈ keys)
      then (match getJSXAttributeNode srcAttrs key' with
            | Some a => Some a
            | None => getJSXAttributeNode attrs key'
            end)
      else getJSXAttributeNode attrs key'.
Proof.
  induction keys as [| k keys IH]; intros attrs key'; simpl; [reflexivity |].
  rewrite IH, getJSXAttributeNode_merge.
  destruct (decide (key' = k)) as [-> | Hne].
  - rewrite (bool_decide_eq_true_2 (k ∈ k :: keys)) by apply list_elem_of_here.
    destruct (getJSXAttributeNode srcAttrs k); destruct (bool_decide (k ∈ keys)); reflexivity.
  - rewrite (bool_decide_ext (key' ∈ k :: keys) (key' ∈ keys)); [reflexivity |].
    rewrite elem_of_cons. split; [intros [Heq | Hin]; [congruence | exact Hin] | auto].
Qed.

Lemma mergeAttributes_loop src dst keys :
  src ≠ dst →
  ∀ w, isElement (heap w) dst = true →
    let w' := (forEach keys
                 (λ key, h' <- getHeap ;;
                         modifyAttributes dst
                           (λ a, mergeAttribute (attributesOf h' src) a key)) w).2 in
    attributesOf (heap w') dst
    = fold_left (λ a k, mergeAttribute (attributesOf (heap w) src) a k) keys
        (attributesOf (heap w) dst)
    ∧ (∀ m, m ≠ dst → attributesOf (heap w') m = attributesOf (heap w) m)
    ∧ source w' = source w.
Proof.
  intros Hsd. induction keys as [| key keys IH]; intros w Hel; cbv zeta.
  - simpl. auto.
  - set (w1 := mkWorld
                 (updateElement
                    (λ e, setAttributes
                            (mergeAttribute (attributesOf (heap w) src) (attributes e) key) e)
                    dst (heap w))
                 (source w)).
    rewrite (forEach_cons_snd key keys _ w).
    change ((h' <- getHeap ;;
             modifyAttributes dst (λ a, mergeAttribute (attributesOf h' src) a key)) w).2
      with w1.
    assert (Hd1 : attributesOf (heap w1) dst
                  = mergeAttribute (attributesOf (heap w) src) (attributesOf (heap w) dst) key).
    { subst w1. simpl.
      rewrite (attributesOf_setAttributes
                 (λ a, mergeAttribute (attributesOf (heap w) src) a key)).
      rewrite decide_True by reflexivity. rewrite Hel. reflexivity. }
    assert (Ho1 : ∀ m, m ≠ dst → attributesOf (heap w1) m = attributesOf (heap w) m).
    { intros m Hm. subst w1. simpl.
      rewrite (attributesOf_setAttributes
                 (λ a, mergeAttribute (attributesOf (heap w) src) a key)).
      rewrite decide_False by exact Hm. reflexivity. }
    assert (Hel1 : isElement (heap w1) dst = true).
    { subst w1. simpl. rewrite isElement_update. exact Hel. }
    destruct (IH w1 Hel1) as (Hd & Ho & Hs). split; [| split].
    + rewrite Hd. cbn [fold_left]. rewrite Hd1, (Ho1 src Hsd). reflexivity.
    + intros m Hm. rewrite (Ho m Hm). apply Ho1. exact Hm.
    + rewrite Hs. reflexivity.
Qed.

(** X6.  The first loop of [populateMacro], from a use-site [src] to the
    copy [dst], another object and an element.  For every attribute name of
    the use-site, the copy then has, under that name, the name and value the
    use-site has: the value of the use-site replaces the one of the
    definition, and a name the definition lacks is added.  Under every other
    name the copy has what it had.  No other element has its attributes
    changed, no child list is changed, and the session is as it was. *)
Theorem mergeAttributes_use_site_wins :
  ∀ src dst w,
    src ≠ dst → isElement (heap w) dst = true →
    let srcAttrs := attributesOf (heap w) src in
    let dstAttrs := attributesOf (heap w) dst in
    let w' := (mergeAttributes src dst w).2 in
    let attrs' := attributesOf (heap w') dst in
    (∀ key, key ∈ getJSXAttributeKeys srcAttrs →
            getJSXAttributeNode attrs' key = getJSXAttributeNode srcAttrs key)
    ∧ (∀ key, key ∉ getJSXAttributeKeys srcAttrs →
              getJSXAttributeNode attrs' key = getJSXAttributeNode dstAttrs key)
    ∧ (∀ m, m ≠ dst → attributesOf (heap w') m = attributesOf (heap w) m)
    ∧ sameShape w w'
    ∧ source w' = source w.
Proof.
  intros src dst w Hsd Hel. cbv zeta.
  assert (Hrun : (mergeAttributes src dst w).2
                 = (forEach (getJSXAttributeKeys (attributesOf (heap w) src))
                      (λ key, h' <- getHeap ;;
                              modifyAttributes dst
                                (λ a, mergeAttribute (attributesOf h' src) a key)) w).2).
  { reflexivity. }
  destruct (mergeAttributes_loop src dst
              (getJSXAttributeKeys (attributesOf (heap w) src)) Hsd w Hel) as (Hd & Ho & Hs).
  rewrite <- Hrun in Hd, Ho, Hs. rewrite Hd.
  split; [| split; [| split; [exact Ho | split]]].
  - intros key Hin. rewrite getJSXAttributeNode_mergeAll.
    rewrite bool_decide_eq_true_2 by exact Hin.
    apply getJSXAttributeNode_keys in Hin as [a Ha]. rewrite Ha. reflexivity.
  - intros key Hin. rewrite getJSXAttributeNode_mergeAll.
    rewrite bool_decide_eq_false_2 by exact Hin. reflexivity.
  - apply shape_mergeAttributes.
  - exact Hs.
Qed.

(** [<my-x class="a" id="u"/>] over [<div class="b" title="t">]: [class]
    takes the value of the use-site, [title] stays, [id] is added. *)
Lemma mergeAttributes_use_site_wins_witness :
  (0 : NodeId) ≠ 1
  ∧ isElement (heap attrWorld) 1 = true
  ∧ attributesOf (heap (mergeAttributes 0 1 attrWorld).2) 1
    = [JSXAttribute "class" (Literal "a"); JSXAttribute "title" (Literal "t");
       JSXAttribute "id" (Literal "u")]
  ∧ getJSXAttributeNode (attributesOf (heap (mergeAttributes 0 1 attrWorld).2) 1) "class"
    = getJSXAttributeNode (attributesOf (heap attrWorld) 0) "class".
Proof.
  assert (h1 : (0 : NodeId) ≠ 1) by discriminate.
  assert (h2 : isElement (heap attrWorld) 1 = true) by (vm_compute; reflexivity).
  split; [exact h1 |]. split; [exact h2 |]. split; [vm_compute; reflexivity |].
  apply (proj1 (mergeAttributes_use_site_wins 0 1 attrWorld h1 h2)).
  vm_compute. apply list_elem_of_here.
Defined.

(** ** The content of an included file *)

(** X7.  Of the children of an included root, [processInclude] leaves out
    at most the first and at most the last one, and only a text made of
    white space: what it splices in is the child list without a prefix and a
    suffix of at most one such text each.  So no element, no expression and
    no text with anything but white space is lost, and the order is kept. *)
Theorem trimIncluded_drops_blank_ends_only :
  ∀ h nn,
    ∃ a b,
      nn = a ++ trimIncluded h nn ++ b
      ∧ (length a ≤ 1)%nat ∧ (length b ≤ 1)%nat
      ∧ Forall (λ n, isBlankText h n = true) (a ++ b).
Proof.
  intros h nn. unfold trimIncluded.
  set (nn1 := match nn with
              | n :: _ => if isBlankText h n then JS.shift nn else nn
              | [] => nn
              end).
  assert (H1 : ∃ a, nn = a ++ nn1 ∧ (length a ≤ 1)%nat
                    ∧ Forall (λ n, isBlankText h n = true) a).
  { subst nn1. destruct nn as [| n rest].
    - exists []. split; [reflexivity |]. split; [simpl; lia | constructor].
    - destruct (isBlankText h n) eqn:Hb.
      + exists [n]. split; [reflexivity |]. split; [simpl; lia |].
        constructor; [exact Hb | constructor].
      + exists []. split; [reflexivity |]. split; [simpl; lia | constructor]. }
  destruct H1 as (a & Ha & Hla & Hba).
  assert (H2 : ∃ b, nn1 = match last nn1 with
                          | Some n => if isBlankText h n then JS.pop nn1 else nn1
                          | None => nn1
                          end ++ b
                    ∧ (length b ≤ 1)%nat ∧ Forall (λ n, isBlankText h n = true) b).
  { destruct (last nn1) as [m |] eqn:Hlast.
    - destruct (isBlankText h m) eqn:Hb.
      + exists [m]. apply last_Some in Hlast as [l' Hl']. rewrite Hl'.
        unfold JS.pop. rewrite removelast_last.
        split; [reflexivity |]. split; [simpl; lia |].
        constructor; [exact Hb | constructor].
      + exists []. rewrite app_nil_r.
        split; [reflexivity |]. split; [simpl; lia | constructor].
    - exists []. rewrite app_nil_r.
      split; [reflexivity |]. split; [simpl; lia | constructor]. }
  destruct H2 as (b & Hb & Hlb & Hbb).
  exists a, b. split; [rewrite <- Hb; exact Ha |].
  split; [exact Hla |]. split; [exact Hlb |].
  apply Forall_app. split; assumption.
Qed.

(** ** What [parse] does with a request it cannot serve *)

(** X8.  A request whose resolved name does not begin with the root string
    is refused before anything is read: [parse] returns no tree, records
    [forbidden pathname] with the name relative to the root and the
    referring node, and leaves the store, the visited files and the registry
    as they are, whatever the file system holds. *)
Theorem parse_refuses_a_name_off_the_root_string :
  ∀ rootPath cwd fs order fname currDir nesting once from w,
    (nesting < MAX_NESTING)%nat →
    JS.startsWith (resolved rootPath fname currDir) rootPath = false →
    parse rootPath cwd fs order fname currDir nesting once from w
    = (None,
       mkWorld (heap w)
         (mkSource (ast (source w)) (files (source w))
            (errors (source w)
             ++ [mkCodeError error
                   ("forbidden pathname "
                    +:+ quoted (Path.relative cwd rootPath (resolved rootPath fname currDir)))
                   from])
            (macros (source w)))).
Proof. intros. apply parse_forbidden; assumption. Qed.

Lemma parse_lists_the_file rootPath cwd fs order fname currDir nesting once from w :
  (nesting < MAX_NESTING)%nat →
  JS.startsWith (resolved rootPath fname currDir) rootPath = true →
  JS.substringFrom (String.length rootPath) (resolved rootPath fname currDir)
  ∈ files (source (parse rootPath cwd fs order fname currDir nesting once from w).2).
Proof.
  intros Hn Hp. set (relPath := JS.substringFrom _ _).
  destruct (decide (relPath ∈ files (source w))) as [Hin | Hout].
  - destruct (parse_sessionGrows rootPath cwd fs order fname currDir nesting once from w)
      as (_ & [k Hk] & _).
    rewrite Hk. apply elem_of_app. left. exact Hin.
  - rewrite (parse_first_visit rootPath cwd fs order fname currDir nesting once from w Hn Hp Hout).
    fold relPath.
    assert (Hgrow : preserves sessionGrows
                      (readAndParse fs order (parse rootPath cwd fs order)
                         (resolved rootPath fname currDir) relPath nesting from)).
    { apply (thru_readAndParse sessionGrows sessionGrows_refl sessionGrows_trans
               (λ f n, sessionGrows_heap _) sessionGrows_new sessionGrows_error
               sessionGrows_macro).
      intros. apply parse_sessionGrows. }
    destruct (Hgrow (pushFile relPath w).2) as (_ & [k Hk] & _).
    rewrite Hk. simpl. apply elem_of_app. left. apply elem_of_app. right.
    apply list_elem_of_here.
Qed.

(** X9.  A file that passes the prefix test for the first time is listed in
    [files] before it is read, and stays listed when it cannot be served:
    when it cannot be read, [parse] returns no tree and records
    [failed to read] with the referring node; when the parser rejects its
    text, the parser's message followed by [in] and the file; when its text
    does not begin with an element, [HTML tag expected], with what
    [source.ast] holds, which is nothing while the page is being loaded.
    Since the file is listed, a later
    [:import] of the same name is skipped without a diagnostic, whether the
    file was served or not. *)
Theorem parse_lists_a_file_before_reading_it :
  ∀ rootPath cwd fs order fname currDir nesting once from w,
    (nesting < MAX_NESTING)%nat →
    JS.startsWith (resolved rootPath fname currDir) rootPath = true →
    JS.substringFrom (String.length rootPath) (resolved rootPath fname currDir)
    ∉ files (source w) →
    let pname := resolved rootPath fname currDir in
    let relPath := JS.substringFrom (String.length rootPath) pname in
    let r := parse rootPath cwd fs order fname currDir nesting once from w in
    let failed h m f :=
      (None : option Program,
       mkWorld h
         (mkSource (ast (source w)) (files (source w) ++ [relPath])
            (errors (source w) ++ [mkCodeError error m f])
            (macros (source w)))) in
    match fs pname with
    | ReadFailure => r = failed (heap w) ("failed to read " +:+ quoted relPath) from
    | ParseFailure e => r = failed (heap w) (e +:+ " in " +:+ quoted relPath) from
    | Parsed body =>
        let '(program, h') := allocStatements body (heap w) in
        rootIsElement h' program = false → ast (source w) = None →
        r = failed h' ("HTML tag expected " +:+ quoted relPath) None
    end
    ∧ ∀ from', parse rootPath cwd fs order fname currDir nesting true from' r.2 = (None, r.2).
Proof.
  intros rootPath cwd fs order fname currDir nesting once from w Hn Hp Hout.
  cbv zeta. split.
  - rewrite (parse_first_visit rootPath cwd fs order fname currDir nesting once from w Hn Hp Hout).
    unfold readAndParse.
    destruct (fs (resolved rootPath fname currDir)) as [| e | body]; [reflexivity ..|].
    unfold bind at 1, withHeap. simpl.
    destruct (allocStatements body (heap w)) as [program h'].
    intros Hroot _. unfold bind, getHeap. simpl. rewrite Hroot. reflexivity.
  - intros from'. apply parse_import_visited; [exact Hn | exact Hp |].
    apply parse_lists_the_file; assumption.
Qed.

(** X10.  An [:include] or [:import] whose [src] is missing, empty or made
    of white space reads nothing: the element is taken out of the child list
    of its parent, [missing src attribute] is recorded for it, and that is
    all, whichever way [parse] would answer. *)
Theorem include_without_src_reads_nothing :
  ∀ order parseRec currDir nesting d w l1 l2,
    dname d = INCLUDE_TAG ∨ dname d = IMPORT_TAG →
    JS.blank (getJSXAttribute (attributesOf (heap w) (dnode d)) INCLUDE_SRC_ATTR) = true →
    childrenOf (heap w) (dparent d) = l1 ++ dnode d :: l2 →
    dnode d ∉ l1 →
    processDirective order parseRec currDir nesting d w
    = (tt,
       mkWorld (updateElement (setChildren (l1 ++ l2)) (dparent d) (heap w))
         (mkSource (ast (source w)) (files (source w))
            (errors (source w)
             ++ [mkCodeError error "missing src attribute" (Some (dnode d))])
            (macros (source w)))).
Proof.
  intros order parseRec currDir nesting d w l1 l2 Hd Hblank Hl Hn.
  assert (Hslot : dname d ≠ SLOT_TAG).
  { intros E. rewrite E in Hd. destruct Hd; discriminate. }
  destruct (processDirective_removes order parseRec currDir nesting d w l1 l2 Hslot Hl Hn)
    as [_ Hrun].
  rewrite Hrun. rewrite decide_True by exact Hd.
  unfold processInclude, bind at 1, getHeap at 1. cbn [heap].
  assert (Hattr : attributesOf (updateElement (setChildren (l1 ++ l2)) (dparent d) (heap w))
                    (dnode d)
                  = attributesOf (heap w) (dnode d)).
  { apply (attributesOf_setChildren (λ _, l1 ++ l2)). }
  rewrite Hattr.
  destruct (getJSXAttribute (attributesOf (heap w) (dnode d)) INCLUDE_SRC_ATTR) as [s |];
    [rewrite Hblank |]; reflexivity.
Qed.

(** X11.  A name that begins with [/] is resolved from the document root:
    the directory of the referring file plays no part in what [parse]
    does. *)
Theorem parse_resolves_absolute_names_from_the_root :
  ∀ rootPath cwd fs order fname dir1 dir2 nesting once from w,
    JS.startsWith fname "/" = true →
    parse rootPath cwd fs order fname dir1 nesting once from w
    = parse rootPath cwd fs order fname dir2 nesting once from w.
Proof.
  intros rootPath cwd fs order fname dir1 dir2 nesting once from w Habs.
  destruct (decide (nesting < MAX_NESTING)%nat) as [Hn | Hn].
  - rewrite !parse_unfold by exact Hn. unfold parseBody. rewrite Habs. reflexivity.
  - rewrite !parse_too_deep by lia. reflexivity.
Qed.

(** [../etc/passwd] from the root [/var/www] *)
Lemma parse_refuses_a_name_off_the_root_string_witness :
  (0 < MAX_NESTING)%nat
  ∧ JS.startsWith (resolved "/var/www" "../etc/passwd" ".") "/var/www" = false
  ∧ parse "/var/www" "/" siteCard DocumentOrder "../etc/passwd" "." 0 false None
      (mkWorld [] emptySource)
    = (None,
       mkWorld []
         (mkSource None []
            [mkCodeError error ("forbidden pathname " +:+ quoted "../etc/passwd") None] ∅)).
Proof.
  assert (h1 : (0 < MAX_NESTING)%nat) by (unfold MAX_NESTING; lia).
  assert (h2 : JS.startsWith (resolved "/var/www" "../etc/passwd" ".") "/var/www" = false)
    by (vm_compute; reflexivity).
  split; [exact h1 |]. split; [exact h2 |].
  rewrite (parse_refuses_a_name_off_the_root_string "/var/www" "/" siteCard DocumentOrder
             "../etc/passwd" "." 0 false None (mkWorld [] emptySource) h1 h2).
  vm_compute. reflexivity.
Defined.

(** A file that is not there: it is listed, and an import of it is then
    skipped. *)
Lemma parse_lists_a_file_before_reading_it_witness :
  (0 < MAX_NESTING)%nat
  ∧ JS.startsWith (resolved "/var/www" "gone.html" ".") "/var/www" = true
  ∧ JS.substringFrom (String.length "/var/www") (resolved "/var/www" "gone.html" ".")
    ∉ files (source (mkWorld [] emptySource))
  ∧ (let r := parse "/var/www" "/" siteCard DocumentOrder "gone.html" "." 0 false None
                (mkWorld [] emptySource) in
     r = (None,
          mkWorld []
            (mkSource None ["/gone.html"]
               [mkCodeError error ("failed to read " +:+ quoted "/gone.html") None] ∅))
     ∧ parse "/var/www" "/" siteCard DocumentOrder "gone.html" "." 0 true (Some 7) r.2
       = (None, r.2)).
Proof.
  assert (h1 : (0 < MAX_NESTING)%nat) by (unfold MAX_NESTING; lia).
  assert (h2 : JS.startsWith (resolved "/var/www" "gone.html" ".") "/var/www" = true)
    by (vm_compute; reflexivity).
  assert (h3 : JS.substringFrom (String.length "/var/www")
                 (resolved "/var/www" "gone.html" ".")
               ∉ files (source (mkWorld [] emptySource))) by apply not_elem_of_nil.
  split; [exact h1 |]. split; [exact h2 |]. split; [exact h3 |].
  destruct (parse_lists_a_file_before_reading_it "/var/www" "/" siteCard DocumentOrder
              "gone.html" "." 0 false None (mkWorld [] emptySource) h1 h2 h3) as [Hr Hi].
  cbv zeta. split; [vm_compute; reflexivity | apply Hi].
Defined.

(** [<:import src=" "/>], the first child of its parent *)
Lemma include_without_src_reads_nothing_witness :
  (dname noSrcDirective = INCLUDE_TAG ∨ dname noSrcDirective = IMPORT_TAG)
  ∧ JS.blank (getJSXAttribute (attributesOf (heap noSrcWorld) (dnode noSrcDirective))
                INCLUDE_SRC_ATTR) = true
  ∧ childrenOf (heap noSrcWorld) (dparent noSrcDirective) = [] ++ dnode noSrcDirective :: [1]
  ∧ dnode noSrcDirective ∉ ([] : list NodeId)
  ∧ (let r := processDirective DocumentOrder
                (parse "/var/www" "/" siteCard DocumentOrder) "/" 0 noSrcDirective noSrcWorld in
     childrenOf (heap r.2) 2 = [1]
     ∧ files (source r.2) = []
     ∧ errors (source r.2) = [mkCodeError error "missing src attribute" (Some 0)]).
Proof.
  assert (h1 : dname noSrcDirective = INCLUDE_TAG ∨ dname noSrcDirective = IMPORT_TAG)
    by (right; reflexivity).
  assert (h2 : JS.blank (getJSXAttribute
                           (attributesOf (heap noSrcWorld) (dnode noSrcDirective))
                           INCLUDE_SRC_ATTR) = true) by (vm_compute; reflexivity).
  assert (h3 : childrenOf (heap noSrcWorld) (dparent noSrcDirective)
               = [] ++ dnode noSrcDirective :: [1]) by (vm_compute; reflexivity).
  assert (h4 : dnode noSrcDirective ∉ ([] : list NodeId)) by apply not_elem_of_nil.
  split; [exact h1 |]. split; [exact h2 |]. split; [exact h3 |]. split; [exact h4 |].
  cbv zeta.
  rewrite (include_without_src_reads_nothing DocumentOrder
             (parse "/var/www" "/" siteCard DocumentOrder) "/" 0 noSrcDirective noSrcWorld
             [] [1] h1 h2 h3 h4).
  split; [vm_compute; reflexivity |]. split; vm_compute; reflexivity.
Defined.

(** [/b.html] asked for from [/] and from [/sub/dir] *)
Lemma parse_resolves_absolute_names_from_the_root_witness :
  JS.startsWith "/b.html" "/" = true
  ∧ parse "/var/www" "/" siteAttributes DocumentOrder "/b.html" "/" 1 false None
      (mkWorld [] emptySource)
    = parse "/var/www" "/" siteAttributes DocumentOrder "/b.html" "/sub/dir" 1 false None
        (mkWorld [] emptySource).
Proof.
  assert (h : JS.startsWith "/b.html" "/" = true) by reflexivity.
  split; [exact h |].
  exact (parse_resolves_absolute_names_from_the_root "/var/www" "/" siteAttributes
           DocumentOrder "/b.html" "/" "/sub/dir" 1 false None (mkWorld [] emptySource) h).
Defined.

(** ** The [tag] of a definition *)

Lemma spanTagChars_sound tag :
  ∀ a b, spanTagChars tag = (a, b) →
    tag = a +:+ b ∧ allTagChars a = true
    ∧ match b with EmptyString => True | String c _ => isTagChar c = false end.
Proof.
  induction tag as [| c s IH]; intros a b H; simpl in H.
  - simplify_eq. auto.
  - destruct (isTagChar c) eqn:Hc.
    + destruct (spanTagChars s) as [a' b'] eqn:Hs. simplify_eq.
      destruct (IH a' b eq_refl) as (-> & Ha & Hb).
      split; [reflexivity |]. split; [simpl; rewrite Hc, Ha; reflexivity | exact Hb].
    + simplify_eq. split; [reflexivity |]. split; [reflexivity | exact Hc].
Qed.

Lemma spanTagChars_complete a b :
  allTagChars a = true →
  match b with EmptyString => True | String c _ => isTagChar c = false end →
  spanTagChars (a +:+ b) = (a, b).
Proof.
  intros Ha Hb. induction a as [| c s IH].
  - change ("" +:+ b) with b.
    destruct b as [| c b]; [reflexivity |]. simpl. rewrite Hb. reflexivity.
  - simpl in Ha. apply andb_true_iff in Ha as [Hc Hs].
    change (String c s +:+ b) with (String c (s +:+ b)).
    simpl. rewrite Hc, (IH Hs). reflexivity.
Qed.

Lemma string_app_empty_r (s : string) : s +:+ "" = s.
Proof.
  induction s as [| c s IH]; [reflexivity |].
  change (String c s +:+ "") with (String c (s +:+ "")). rewrite IH. reflexivity.
Qed.

(** X12.  The regular expression of [collectMacro],
    [/^([\-\w]+)(\:[\-\w]+)?$/]: a [tag] is accepted exactly when it is a
    non-empty run of letters, digits, underscores and dashes, alone or
    followed by a colon and another such run; the first run is the name of
    the macro and the second, when there is one, its base.  Anything else (a
    space, a dot, a second colon, an empty part) is rejected. *)
Theorem execTag_accepts_name_and_optional_base :
  ∀ tag name base,
    execTag tag = Some (name, base)
    ↔ name ≠ "" ∧ allTagChars name = true
      ∧ match base with
        | None => tag = name
        | Some b => b ≠ "" ∧ allTagChars b = true ∧ tag = name +:+ ":" +:+ b
        end.
Proof.
  intros tag name base. unfold execTag. split.
  - destruct (spanTagChars tag) as [a b] eqn:Hs.
    destruct (spanTagChars_sound tag a b Hs) as (-> & Ha & Hb).
    destruct (decide (a = "")) as [| Hne]; [discriminate |].
    destruct b as [| c b].
    + intros [= <- <-]. rewrite string_app_empty_r. auto.
    + destruct (Ascii.eqb c ":") eqn:Hc; [| discriminate].
      apply Ascii.eqb_eq in Hc. subst c.
      destruct (String.eqb b "") eqn:He; [discriminate |].
      destruct (allTagChars b) eqn:Hall; [| discriminate].
      intros [= <- <-]. apply String.eqb_neq in He. auto.
  - intros (Hne & Hall & Hbase). destruct base as [b |].
    + destruct Hbase as (Hb & Hallb & ->).
      change (":" +:+ b) with (String ":" b).
      rewrite (spanTagChars_complete name (String ":" b) Hall) by reflexivity.
      rewrite decide_False by exact Hne. simpl.
      apply String.eqb_neq in Hb. rewrite Hb, Hallb. reflexivity.
    + subst tag. rewrite <- (string_app_empty_r name) at 1.
      rewrite (spanTagChars_complete name "" Hall) by exact I.
      rewrite decide_False by exact Hne. reflexivity.
Qed.

(** X13.  A [:define] whose [tag] is missing, not a literal, empty, or not
    accepted by the expression defines nothing: [collectMacro] records one
    warning for the element and leaves the store, the visited files and the
    registry as they are. *)
Theorem collectMacro_rejects_a_bad_tag :
  ∀ order d w,
    let tag := truthy (getJSXAttribute (attributesOf (heap w) (dnode d)) DEFINE_TAG_ATTR) in
    match tag with Some t => execTag t = None | None => True end →
    collectMacro order d w
    = (tt,
       mkWorld (heap w)
         (mkSource (ast (source w)) (files (source w))
            (errors (source w)
             ++ [mkCodeError warning
                   (match tag with
                    | None => "bad or missing tag attribute"
                    | Some t => "invalid tag name " +:+ JS.dquote +:+ t
                                +:+ " (does it include a dash?)" +:+ JS.dquote
                    end)
                   (Some (dnode d))])
            (macros (source w)))).
Proof.
  intros order d w tag Hbad. subst tag. unfold collectMacro, bind at 1, getHeap at 1.
  destruct (truthy _) as [t |]; [rewrite Hbad |]; reflexivity.
Qed.

(** [<:define tag="a b">]: one warning, and nothing is registered. *)
Lemma collectMacro_rejects_a_bad_tag_witness :
  truthy (getJSXAttribute (attributesOf (heap badTagWorld) (dnode badTagDirective))
            DEFINE_TAG_ATTR) = Some "a b"
  ∧ execTag "a b" = None
  ∧ (let r := collectMacro DocumentOrder badTagDirective badTagWorld in
     heap r.2 = heap badTagWorld
     ∧ macros (source r.2) = ∅
     ∧ errors (source r.2)
       = [mkCodeError warning
            ("invalid tag name " +:+ JS.dquote +:+ "a b (does it include a dash?)"
             +:+ JS.dquote)
            (Some 1)]).
Proof.
  assert (h1 : truthy (getJSXAttribute
                         (attributesOf (heap badTagWorld) (dnode badTagDirective))
                         DEFINE_TAG_ATTR) = Some "a b") by (vm_compute; reflexivity).
  assert (h2 : execTag "a b" = None) by (vm_compute; reflexivity).
  split; [exact h1 |]. split; [exact h2 |]. cbv zeta.
  rewrite (collectMacro_rejects_a_bad_tag DocumentOrder badTagDirective badTagWorld).
  - rewrite h1. split; [reflexivity |]. split; vm_compute; reflexivity.
  - rewrite h1. exact h2.
Defined.

(** ** Inclusion *)

(** X14.  [parse] builds the tree of the file it reads out of new objects
    and writes to these only: every object that is in the store when it is
    called is there afterwards, unchanged, whatever is included, imported or
    defined on the way. *)
Theorem parse_writes_to_new_objects_only :
  ∀ rootPath cwd fs order fname currDir nesting once from w,
    heap w `prefix_of` heap (parse rootPath cwd fs order fname currDir nesting once from w).2.
Proof. intros. apply parse_prefix. Qed.

Lemma isBlankText_update f n h m :
  isBlankText (updateElement f n h) m = isBlankText h m.
Proof.
  unfold isBlankText, updateElement. destruct (decide (m = n)) as [-> | Hne].
  - rewrite list_lookup_alter_eq. destruct (_ !! _) as [[e | v | p] |]; reflexivity.
  - rewrite list_lookup_alter_ne by congruence. reflexivity.
Qed.

Lemma trimIncluded_ext h h' nn :
  (∀ n, isBlankText h' n = isBlankText h n) → trimIncluded h' nn = trimIncluded h nn.
Proof.
  intros H. unfold trimIncluded.
  assert (E : match nn with
              | n :: _ => if isBlankText h' n then JS.shift nn else nn
              | [] => nn
              end
              = match nn with
                | n :: _ => if isBlankText h n then JS.shift nn else nn
                | [] => nn
                end).
  { destruct nn as [| n rest]; [reflexivity |]. rewrite H. reflexivity. }
  rewrite E. destruct (last _) as [m |]; [rewrite H |]; reflexivity.
Qed.

Lemma includeAttribute_kinds p r existing key w n :
  isBlankText (heap (includeAttribute p r existing key w).2) n = isBlankText (heap w) n
  ∧ isElement (heap (includeAttribute p r existing key w).2) n = isElement (heap w) n.
Proof.
  unfold includeAttribute. destruct (JS.includes key existing); [auto |].
  unfold bind, getHeap. destruct (getJSXAttributeNode _ key); [| auto].
  simpl. split; [apply isBlankText_update | apply isElement_update].
Qed.

Lemma applyIncludedAttributes_kinds d r w n :
  isBlankText (heap (applyIncludedAttributes d r w).2) n = isBlankText (heap w) n
  ∧ isElement (heap (applyIncludedAttributes d r w).2) n = isElement (heap w) n.
Proof.
  assert (E : (applyIncludedAttributes d r w).2
              = (forEach (getJSXAttributeKeys (attributesOf (heap w) r))
                   (includeAttribute (dparent d) r
                      (getJSXAttributeKeys (attributesOf (heap w) (dparent d)))) w).2)
    by reflexivity.
  rewrite E. clear E.
  generalize (getJSXAttributeKeys (attributesOf (heap w) r)).
  generalize (getJSXAttributeKeys (attributesOf (heap w) (dparent d))).
  intros existing keys. revert w. induction keys as [| k keys IH]; intros w.
  - auto.
  - rewrite !forEach_cons_snd.
    destruct (IH (includeAttribute (dparent d) r existing k w).2) as [-> ->].
    apply includeAttribute_kinds.
Qed.

(** What [trimIncluded] leaves out, exactly: the first child when it is a
    blank text, and the last of the others when it is a blank text. *)
Lemma trimIncluded_exact h nn :
  let a := match nn with
           | n :: _ => if isBlankText h n then [n] else []
           | [] => []
           end in
  let b := match last (drop (length a) nn) with
           | Some m => if isBlankText h m then [m] else []
           | None => []
           end in
  nn = a ++ trimIncluded h nn ++ b.
Proof.
  cbv zeta. unfold trimIncluded.
  set (a := match nn with
            | n :: _ => if isBlankText h n then [n] else []
            | [] => []
            end).
  set (nn1 := match nn with
              | n :: _ => if isBlankText h n then JS.shift nn else nn
              | [] => nn
              end).
  assert (H1 : nn = a ++ nn1 ∧ drop (length a) nn = nn1).
  { subst a nn1. destruct nn as [| n rest]; [auto |].
    destruct (isBlankText h n); simpl; auto. }
  destruct H1 as [H1 H2]. rewrite H2. rewrite H1 at 1. f_equal.
  destruct (last nn1) as [m |] eqn:Hlast.
  - destruct (isBlankText h m).
    + apply last_Some in Hlast as [l' Hl']. rewrite Hl'.
      unfold JS.pop. rewrite removelast_last. reflexivity.
    + rewrite app_nil_r. reflexivity.
  - rewrite app_nil_r. reflexivity.
Qed.

(** X15.  An [:include] or [:import] with a [src], standing in the child
    list of its parent, for which [parse] returns a tree.  The children of
    the root of that tree take the place of the directive element, without
    the first of them when it is a blank text and without the last of the
    others when it is a blank text, and with every other one: the parent has
    its children of before the directive, then these, then its children of
    after it.  The root element itself is not put into the tree, and no other
    child list is touched by the splice. *)
Theorem include_puts_the_content_in_place_of_the_directive :
  ∀ rootPath cwd fs order currDir nesting d w l1 l2 s root rest w2,
    dname d = INCLUDE_TAG ∨ dname d = IMPORT_TAG →
    getJSXAttribute (attributesOf (heap w) (dnode d)) INCLUDE_SRC_ATTR = Some s →
    JS.allWhiteSpace s = false →
    childrenOf (heap w) (dparent d) = l1 ++ dnode d :: l2 →
    dnode d ∉ l1 →
    parse rootPath cwd fs order s currDir (nesting + 1)
      (bool_decide (dname d = IMPORT_TAG)) (Some (dnode d))
      (mkWorld (updateElement (setChildren (l1 ++ l2)) (dparent d) (heap w)) (source w))
    = (Some (ExpressionStatement root :: rest), w2) →
    let w' := (processDirective order (parse rootPath cwd fs order) currDir nesting d w).2 in
    let kids := childrenOf (heap w2) root in
    let a := match kids with
             | n :: _ => if isBlankText (heap w2) n then [n] else []
             | [] => []
             end in
    let b := match last (drop (length a) kids) with
             | Some m => if isBlankText (heap w2) m then [m] else []
             | None => []
             end in
    childrenOf (heap w') (dparent d) = l1 ++ trimIncluded (heap w2) kids ++ l2
    ∧ kids = a ++ trimIncluded (heap w2) kids ++ b
    ∧ (∀ m, m ≠ dparent d → childrenOf (heap w') m = childrenOf (heap w2) m)
    ∧ source w' = source w2.
Proof.
  intros rootPath cwd fs order currDir nesting d w l1 l2 s root rest w2
    Hd Hsrc Hs Hl Hn Hparse.
  assert (Hslot : dname d ≠ SLOT_TAG).
  { intros E. rewrite E in Hd. destruct Hd; discriminate. }
  destruct (processDirective_removes order (parse rootPath cwd fs order)
              currDir nesting d w l1 l2 Hslot Hl Hn) as [Hkids Hrun].
  set (w1 := mkWorld (updateElement (setChildren (l1 ++ l2)) (dparent d) (heap w)) (source w))
    in *.
  assert (Hattr : attributesOf (heap w1) (dnode d) = attributesOf (heap w) (dnode d)).
  { apply (attributesOf_setChildren (λ _, l1 ++ l2)). }
  assert (Hpel : isElement (heap w1) (dparent d) = true).
  { subst w1. cbn [heap]. rewrite isElement_update.
    apply (isElement_of_child _ _ (dnode d)). rewrite Hl.
    apply elem_of_app. right. apply list_elem_of_here. }
  pose proof (parse_prefix rootPath cwd fs order s currDir (nesting + 1)
                (bool_decide (dname d = IMPORT_TAG)) (Some (dnode d)) w1) as Hpre.
  rewrite Hparse in Hpre. cbn [snd] in Hpre.
  assert (Hplt : (dparent d < length (heap w1))%nat) by (apply isElement_lt; exact Hpel).
  assert (Hkids2 : childrenOf (heap w2) (dparent d) = l1 ++ l2).
  { rewrite (childrenOf_prefix _ _ _ Hpre Hplt). exact Hkids. }
  assert (Hpel2 : isElement (heap w2) (dparent d) = true).
  { unfold isElement, element, NodeId in *.
    rewrite <- (prefix_lookup_lt _ _ _ Hplt Hpre). exact Hpel. }
  destruct (applyIncludedAttributes_spec d root w2 Hpel2) as (Hsrc3 & Hkids3 & _).
  pose proof (λ n, proj1 (applyIncludedAttributes_kinds d root w2 n)) as Hblank.
  pose proof (proj2 (applyIncludedAttributes_kinds d root w2 (dparent d))) as Hpel3.
  rewrite Hpel2 in Hpel3.
  set (w3 := (applyIncludedAttributes d root w2).2) in *.
  set (nn := trimIncluded (heap w2) (childrenOf (heap w2) root)).
  assert (Hfinal : (processDirective order (parse rootPath cwd fs order) currDir nesting d w).2
                   = mkWorld
                       (updateElement
                          (λ e, setChildren
                                  (JS.splice (Z.of_nat (length l1)) 0 nn (children e)) e)
                          (dparent d) (heap w3))
                       (source w3)).
  { rewrite Hrun. rewrite decide_True by exact Hd.
    unfold processInclude, bind at 1, getHeap at 1. rewrite Hattr, Hsrc.
    unfold JS.blank. rewrite Hs. unfold bind at 1. rewrite Hparse.
    unfold bind at 1. subst w3.
    destruct (applyIncludedAttributes d root w2) as [[] w3]. cbn [snd] in *.
    unfold bind, getHeap, modifyChildren, modifyHeap. cbn [snd heap source].
    rewrite (trimIncluded_ext (heap w2) (heap w3)) by exact Hblank.
    rewrite (Hkids3 root). reflexivity. }
  cbv zeta. rewrite Hfinal. cbn [heap source].
  split; [| split; [apply trimIncluded_exact | split; [| exact Hsrc3]]].
  - rewrite (childrenOf_setChildren (JS.splice (Z.of_nat (length l1)) 0 nn)).
    rewrite decide_True by reflexivity.
    rewrite Hpel3, Hkids3, Hkids2. rewrite splice_at_length. reflexivity.
  - intros m Hm. rewrite (childrenOf_setChildren (JS.splice (Z.of_nat (length l1)) 0 nn)).
    rewrite decide_False by exact Hm. apply Hkids3.
Qed.

(** [a<:include src="b.html" class="y"/>z] with
    [<root id="r"> <p>x</p>(newline, space)</root>] in [b.html]: the children
    of the root are the blank text 4, [<p>] (node 6) and the blank text 7;
    [<p>] alone stands where the directive was. *)
Lemma include_puts_the_content_in_place_of_the_directive_witness :
  (dname includeDirective = INCLUDE_TAG ∨ dname includeDirective = IMPORT_TAG)
  ∧ getJSXAttribute (attributesOf (heap includeWorld) (dnode includeDirective))
      INCLUDE_SRC_ATTR = Some "b.html"
  ∧ JS.allWhiteSpace "b.html" = false
  ∧ childrenOf (heap includeWorld) (dparent includeDirective)
    = [0] ++ dnode includeDirective :: [2]
  ∧ dnode includeDirective ∉ [0]
  ∧ parse "/var/www" "/" siteBlankEnds DocumentOrder "b.html" "/" (0 + 1)
      (bool_decide (dname includeDirective = IMPORT_TAG)) (Some (dnode includeDirective))
      (mkWorld (updateElement (setChildren ([0] ++ [2])) (dparent includeDirective)
                  (heap includeWorld))
         (source includeWorld))
    = (Some [ExpressionStatement 8], blankEndsWorld)
  ∧ childrenOf (heap blankEndsWorld) 8 = [4; 6; 7]
  ∧ isBlankText (heap blankEndsWorld) 4 = true
  ∧ isBlankText (heap blankEndsWorld) 7 = true
  ∧ childrenOf
      (heap (processDirective DocumentOrder
               (parse "/var/www" "/" siteBlankEnds DocumentOrder) "/" 0
               includeDirective includeWorld).2) 3
    = [0; 6; 2].
Proof.
  assert (h1 : dname includeDirective = INCLUDE_TAG ∨ dname includeDirective = IMPORT_TAG)
    by (left; reflexivity).
  assert (h2 : getJSXAttribute (attributesOf (heap includeWorld) (dnode includeDirective))
                 INCLUDE_SRC_ATTR = Some "b.html") by (vm_compute; reflexivity).
  assert (h3 : JS.allWhiteSpace "b.html" = false) by reflexivity.
  assert (h4 : childrenOf (heap includeWorld) (dparent includeDirective)
               = [0] ++ dnode includeDirective :: [2]) by (vm_compute; reflexivity).
  assert (h5 : dnode includeDirective ∉ [0]).
  { intros H. apply list_elem_of_singleton in H. discriminate. }
  assert (h6 : parse "/var/www" "/" siteBlankEnds DocumentOrder "b.html" "/" (0 + 1)
                 (bool_decide (dname includeDirective = IMPORT_TAG))
                 (Some (dnode includeDirective))
                 (mkWorld (updateElement (setChildren ([0] ++ [2]))
                             (dparent includeDirective) (heap includeWorld))
                    (source includeWorld))
               = (Some [ExpressionStatement 8], blankEndsWorld)) by (vm_compute; reflexivity).
  split; [exact h1 |]. split; [exact h2 |]. split; [exact h3 |]. split; [exact h4 |].
  split; [exact h5 |]. split; [exact h6 |].
  split; [vm_compute; reflexivity |]. split; [vm_compute; reflexivity |].
  split; [vm_compute; reflexivity |].
  destruct (include_puts_the_content_in_place_of_the_directive "/var/www" "/" siteBlankEnds
              DocumentOrder "/" 0 includeDirective includeWorld [0] [2] "b.html" 8 []
              blankEndsWorld h1 h2 h3 h4 h5 h6) as (Hc & _ & _ & _).
  change (dparent includeDirective) with 3 in Hc. rewrite Hc. vm_compute. reflexivity.
Defined.

(** ** More on inclusion *)

(** X16.  An [:include] or [:import] with a [src] for which [parse] returns
    no tree (a forbidden name, a file that cannot be read or parsed, the
    depth limit, an [:import] of a visited file) puts nothing in the place of
    the directive: the element is taken out of the child list of its parent,
    and what is left is the world [parse] left, with the diagnostics it
    recorded. *)
Theorem include_that_yields_no_tree_leaves_nothing :
  ∀ rootPath cwd fs order currDir nesting d w l1 l2 s w2,
    dname d = INCLUDE_TAG ∨ dname d = IMPORT_TAG →
    getJSXAttribute (attributesOf (heap w) (dnode d)) INCLUDE_SRC_ATTR = Some s →
    JS.allWhiteSpace s = false →
    childrenOf (heap w) (dparent d) = l1 ++ dnode d :: l2 →
    dnode d ∉ l1 →
    parse rootPath cwd fs order s currDir (nesting + 1)
      (bool_decide (dname d = IMPORT_TAG)) (Some (dnode d))
      (mkWorld (updateElement (setChildren (l1 ++ l2)) (dparent d) (heap w)) (source w))
    = (None, w2) →
    processDirective order (parse rootPath cwd fs order) currDir nesting d w = (tt, w2)
    ∧ childrenOf (heap w2) (dparent d) = l1 ++ l2.
Proof.
  intros rootPath cwd fs order currDir nesting d w l1 l2 s w2 Hd Hsrc Hs Hl Hn Hparse.
  assert (Hslot : dname d ≠ SLOT_TAG).
  { intros E. rewrite E in Hd. destruct Hd; discriminate. }
  destruct (processDirective_removes order (parse rootPath cwd fs order)
              currDir nesting d w l1 l2 Hslot Hl Hn) as [Hkids Hrun].
  set (w1 := mkWorld (updateElement (setChildren (l1 ++ l2)) (dparent d) (heap w)) (source w))
    in *.
  assert (Hattr : attributesOf (heap w1) (dnode d) = attributesOf (heap w) (dnode d)).
  { apply (attributesOf_setChildren (λ _, l1 ++ l2)). }
  split.
  - rewrite Hrun. rewrite decide_True by exact Hd.
    unfold processInclude, bind at 1, getHeap at 1. rewrite Hattr, Hsrc.
    unfold JS.blank. rewrite Hs. unfold bind at 1. rewrite Hparse. reflexivity.
  - assert (Hpel : isElement (heap w1) (dparent d) = true).
    { subst w1. cbn [heap]. rewrite isElement_update.
      apply (isElement_of_child _ _ (dnode d)). rewrite Hl.
      apply elem_of_app. right. apply list_elem_of_here. }
    pose proof (parse_prefix rootPath cwd fs order s currDir (nesting + 1)
                  (bool_decide (dname d = IMPORT_TAG)) (Some (dnode d)) w1) as Hpre.
    rewrite Hparse in Hpre. cbn [snd] in Hpre.
    rewrite (childrenOf_prefix _ _ _ Hpre); [exact Hkids |].
    apply isElement_lt. exact Hpel.
Qed.

(** The page [a<:include src="b.html" class="y"/>z] in a document root
    without [b.html]: the directive is gone and nothing stands in its
    place. *)
Lemma include_that_yields_no_tree_leaves_nothing_witness :
  (dname includeDirective = INCLUDE_TAG ∨ dname includeDirective = IMPORT_TAG)
  ∧ getJSXAttribute (attributesOf (heap includeWorld) (dnode includeDirective))
      INCLUDE_SRC_ATTR = Some "b.html"
  ∧ JS.allWhiteSpace "b.html" = false
  ∧ childrenOf (heap includeWorld) (dparent includeDirective)
    = [0] ++ dnode includeDirective :: [2]
  ∧ dnode includeDirective ∉ [0]
  ∧ parse "/var/www" "/" siteCard DocumentOrder "b.html" "/" (0 + 1)
      (bool_decide (dname includeDirective = IMPORT_TAG)) (Some (dnode includeDirective))
      (mkWorld (updateElement (setChildren ([0] ++ [2])) (dparent includeDirective)
                  (heap includeWorld))
         (source includeWorld))
    = (None, missingWorld)
  ∧ processDirective DocumentOrder (parse "/var/www" "/" siteCard DocumentOrder) "/" 0
      includeDirective includeWorld
    = (tt, missingWorld)
  ∧ childrenOf (heap missingWorld) 3 = [0; 2]
  ∧ errors (source missingWorld)
    = [mkCodeError error ("failed to read " +:+ quoted "/b.html") (Some 1)].
Proof.
  assert (h1 : dname includeDirective = INCLUDE_TAG ∨ dname includeDirective = IMPORT_TAG)
    by (left; reflexivity).
  assert (h2 : getJSXAttribute (attributesOf (heap includeWorld) (dnode includeDirective))
                 INCLUDE_SRC_ATTR = Some "b.html") by (vm_compute; reflexivity).
  assert (h3 : JS.allWhiteSpace "b.html" = false) by reflexivity.
  assert (h4 : childrenOf (heap includeWorld) (dparent includeDirective)
               = [0] ++ dnode includeDirective :: [2]) by (vm_compute; reflexivity).
  assert (h5 : dnode includeDirective ∉ [0]).
  { intros H. apply list_elem_of_singleton in H. discriminate. }
  assert (h6 : parse "/var/www" "/" siteCard DocumentOrder "b.html" "/" (0 + 1)
                 (bool_decide (dname includeDirective = IMPORT_TAG))
                 (Some (dnode includeDirective))
                 (mkWorld (updateElement (setChildren ([0] ++ [2]))
                             (dparent includeDirective) (heap includeWorld))
                    (source includeWorld))
               = (None, missingWorld)) by (vm_compute; reflexivity).
  split; [exact h1 |]. split; [exact h2 |]. split; [exact h3 |]. split; [exact h4 |].
  split; [exact h5 |]. split; [exact h6 |].
  destruct (include_that_yields_no_tree_leaves_nothing "/var/www" "/" siteCard
              DocumentOrder "/" 0 includeDirective includeWorld [0] [2] "b.html"
              missingWorld h1 h2 h3 h4 h5 h6) as [Hrun Hc].
  split; [exact Hrun |]. split; [exact Hc | vm_compute; reflexivity].
Defined.

(** X17.  The only thing that tells an [:import] from an [:include] is
    what happens for a file that has been visited: for a file that is not in
    [files] (and for a request that is refused anyway) [parse] does the same
    with and without the flag [once]. *)
Theorem first_import_is_an_include :
  ∀ rootPath cwd fs order fname currDir nesting from w,
    JS.substringFrom (String.length rootPath) (resolved rootPath fname currDir)
    ∉ files (source w) →
    parse rootPath cwd fs order fname currDir nesting true from w
    = parse rootPath cwd fs order fname currDir nesting false from w.
Proof.
  intros rootPath cwd fs order fname currDir nesting from w Hout.
  destruct (decide (nesting < MAX_NESTING)%nat) as [Hn | Hn].
  - destruct (JS.startsWith (resolved rootPath fname currDir) rootPath) eqn:Hp.
    + rewrite !parse_first_visit by assumption. reflexivity.
    + rewrite !parse_forbidden by assumption. reflexivity.
  - rewrite !parse_too_deep by lia. reflexivity.
Qed.

Lemma first_import_is_an_include_witness :
  JS.substringFrom (String.length "/var/www") (resolved "/var/www" "b.html" "/")
  ∉ files (source includeWorld)
  ∧ parse "/var/www" "/" siteAttributes DocumentOrder "b.html" "/" 1 true (Some 1) includeWorld
    = parse "/var/www" "/" siteAttributes DocumentOrder "b.html" "/" 1 false (Some 1)
        includeWorld.
Proof.
  assert (h : JS.substringFrom (String.length "/var/www") (resolved "/var/www" "b.html" "/")
              ∉ files (source includeWorld)).
  { vm_compute. intros H. apply list_elem_of_singleton in H. discriminate. }
  split; [exact h |].
  exact (first_import_is_an_include "/var/www" "/" siteAttributes DocumentOrder
           "b.html" "/" 1 (Some 1) includeWorld h).
Defined.

(** X18.  What [processDirectives] collects: every directive is an element
    whose tag is an identifier that begins with [:], taken together with the
    element it is a child of.  The root element of a file has no element
    above it, so it is never collected, whatever its tag. *)
Theorem collected_directives_are_children_of_elements :
  ∀ order h program d,
    d ∈ omap (directiveOf h) (walk order h (RootProgram program)) →
    dnode d ∈ childrenOf h (dparent d)
    ∧ isElement h (dparent d) = true
    ∧ ∃ e, element h (dnode d) = Some e
           ∧ openingName e = JSXIdentifier (dname d)
           ∧ JS.startsWith (dname d) TAGS_PREFIX = true.
Proof.
  intros order h program d Hd.
  apply list_elem_of_omap in Hd as ([x [p |]] & Hin & Hdir); [| discriminate].
  unfold directiveOf in Hdir. destruct (element h x) as [e |] eqn:He; [| discriminate].
  destruct (openingName e) as [name | pl] eqn:Hname; [| discriminate].
  destruct (JS.startsWith name TAGS_PREFIX) eqn:Hpre; [| discriminate].
  simplify_eq. simpl. apply walk_child in Hin.
  split; [exact Hin |]. split; [eapply isElement_of_child; exact Hin |].
  exists e. auto.
Qed.

(** [<html><:foo>x</:foo><p>y</p></html>]: [:foo] is collected with its
    parent [html]. *)
Lemma collected_directives_are_children_of_elements_witness :
  unknownDirective
  ∈ omap (directiveOf (heap unknownWorld))
      (walk DocumentOrder (heap unknownWorld) (RootProgram [ExpressionStatement 4]))
  ∧ dnode unknownDirective ∈ childrenOf (heap unknownWorld) (dparent unknownDirective).
Proof.
  assert (h : unknownDirective
              ∈ omap (directiveOf (heap unknownWorld))
                  (walk DocumentOrder (heap unknownWorld)
                     (RootProgram [ExpressionStatement 4]))).
  { vm_compute. apply list_elem_of_here. }
  split; [exact h |].
  exact (proj1 (collected_directives_are_children_of_elements DocumentOrder
                  (heap unknownWorld) [ExpressionStatement 4] unknownDirective h)).
Defined.
